(** * Skip list index: sequential and atomic single-writer variants

    A shallow embedding of [include/skiplist.hpp] and
    [include/skiplist_atomic_sw.hpp].  Nodes live in a heap addressed by
    natural numbers; the member functions are written in a small
    state-and-failure monad over that heap.  Failure ([None]) stands for
    behaviour the C++ program does not define: dereferencing a dangling or
    null pointer, indexing [heads] out of range, or a loop that would not
    terminate.

    Modelling choices:
    - [TKey] and [TVal] are instantiated with the integers ([Z]), as in the
      unit tests; keys are only compared and values only copied.
    - [new] returns the least address not in use ([fresh]).
    - [rand()] is a stream [rnd : nat → Z]; the state counts the draws.
    - The [while] loops and the recursion over levels take fuel.  The
      public operations supply the number of allocated nodes, which no
      acyclic chain of pointers can exceed; the theorems show that this
      is enough on every index the constructor and [upsert] can build. *)

From stdpp Require Import gmap list relations sorting.
From Stdlib Require Import ZArith Lia.

Local Open Scope Z_scope.

(** ** Memory model *)

Abbreviation addr := nat (only parsing).

(** The program state: the heap of nodes of type [N], the vector [heads] of
    the index object, and the number of calls made to [rand()] so far. *)
Record State (N : Type) := mkState {
  heap : gmap addr N;
  heads : list addr;
  draws : nat
}.
Arguments mkState {N} _ _ _.
Arguments heap {N} _.
Arguments heads {N} _.
Arguments draws {N} _.

Definition M (N A : Type) : Type := State N → option (A * State N).

Definition ret {N A} (x : A) : M N A := λ s, Some (x, s).
Definition fail {N A} : M N A := λ _, None.
Definition bind {N A B} (m : M N A) (f : A → M N B) : M N B :=
  λ s, match m s with
       | Some (x, s') => f x s'
       | None => None
       end.

Declare Scope mem_scope.
Delimit Scope mem_scope with mem.
Notation "'let*' x ':=' m 'in' k" := (bind m (λ x, k))
  (at level 10, x name, m at level 100, k at level 200) : mem_scope.
Notation "m ';;' k" := (bind m (λ _, k))
  (at level 100, k at level 200, right associativity) : mem_scope.
Local Open Scope mem_scope.

Section Mem.
Context {N : Type}.

(** Read through a pointer. *)
Definition load (a : addr) : M N N :=
  λ s, match heap s !! a with
       | Some n => Some (n, s)
       | None => None
       end.

(** Write through a pointer. *)
Definition store (a : addr) (n : N) : M N unit :=
  λ s, match heap s !! a with
       | Some _ => Some (tt, mkState (<[a := n]> (heap s)) (heads s) (draws s))
       | None => None
       end.

(** [new Node(...)] / [std::make_unique<Node>(...)]. *)
Definition alloc (n : N) : M N addr :=
  λ s, let a := fresh (dom (heap s)) in
       Some (a, mkState (<[a := n]> (heap s)) (heads s) (draws s)).

(** [delete p] / destruction of an owning pointer. *)
Definition free (a : addr) : M N unit :=
  λ s, match heap s !! a with
       | Some _ => Some (tt, mkState (delete a (heap s)) (heads s) (draws s))
       | None => None
       end.

Definition get_heads : M N (list addr) := λ s, Some (heads s, s).
Definition set_heads (hs : list addr) : M N unit :=
  λ s, Some (tt, mkState (heap s) hs (draws s)).

(** [heads[i]]: out of range is undefined. *)
Definition heads_at (i : nat) : M N addr :=
  λ s, match heads s !! i with
       | Some a => Some (a, s)
       | None => None
       end.

(** Number of nodes currently allocated; it bounds the length of every
    acyclic pointer chain and is used as loop fuel. *)
Definition nodes : M N nat := λ s, Some (size (heap s), s).

(** [rand()]: the [i]-th call returns [rnd i]. *)
Definition rand (rnd : nat → Z) : M N Z :=
  λ s, Some (rnd (draws s), mkState (heap s) (heads s) (S (draws s))).
End Mem.

(** Comparisons of a [std::optional<TKey>] with a [TKey]. *)
Definition opt_gt (o : option Z) (k : Z) : bool :=
  match o with Some x => k <? x | None => false end.
Definition opt_eq (o : option Z) (k : Z) : bool :=
  match o with Some x => x =? k | None => false end.
Definition opt_ne (o : option Z) (k : Z) : bool :=
  match o with Some x => negb (x =? k) | None => true end.

(** The coin of [rand() & 1]. *)
Definition coin (r : Z) : bool := negb (Z.land r 1 =? 0).

(** ** The sequential variant, [skiplist.hpp] *)

Module SkipList.

Record Node := mkNode {
  down : option addr;
  next : option addr;
  k : option Z;
  v : option Z
}.

Definition set_next (n : Node) (p : option addr) : Node :=
  mkNode (down n) p (k n) (v n).
Definition set_down (n : Node) (p : option addr) : Node :=
  mkNode p (next n) (k n) (v n).
Definition set_v (n : Node) (x : option Z) : Node :=
  mkNode (down n) (next n) (k n) x.

Fixpoint findInLevel_loop (fuel : nat) (current : addr) (key : Z) : M Node addr :=
  match fuel with
  | O => fail
  | S fuel' =>
      let* c := load current in
      match next c with
      | None => ret current
      | Some nx =>
          let* n := load nx in
          if opt_gt (k n) key then ret current
          else findInLevel_loop fuel' nx key
      end
  end.

Definition findInLevel (current : addr) (key : Z) : M Node addr :=
  let* fuel := nodes in findInLevel_loop fuel current key.

Definition chainNode (previous newNode : addr) : M Node addr :=
  let* p := load previous in
  store previous (set_next p None);;
  let* n := load newNode in
  store newNode (set_next n (next p));;
  let* p' := load previous in
  store previous (set_next p' (Some newNode));;
  ret newNode.

Fixpoint upsertRec (rnd : nat → Z) (fuel : nat) (current : option addr) (key val : Z)
  : M Node (option addr) :=
  match current with
  | None => ret None
  | Some cur =>
      match fuel with
      | O => fail
      | S fuel' =>
          let* insertNode := findInLevel cur key in
          let* n := load insertNode in
          if opt_eq (k n) key then
            store insertNode (set_v n (Some val));;
            upsertRec rnd fuel' (down n) key val;;
            ret None
          else
            match down n with
            | None =>
                let* newNode := alloc (mkNode None None (Some key) (Some val)) in
                let* r := chainNode insertNode newNode in
                ret (Some r)
            | Some d =>
                let* childNode := upsertRec rnd fuel' (Some d) key val in
                match childNode with
                | None => ret None
                | Some child =>
                    let* r := rand rnd in
                    if coin r then
                      let* newNode := alloc (mkNode (Some child) None (Some key) (Some val)) in
                      let* r := chainNode insertNode newNode in
                      ret (Some r)
                    else ret None
                end
            end
      end
  end.

Fixpoint ctor_loop (height : nat) (prev : option addr) : M Node unit :=
  match height with
  | O => ret tt
  | S height' =>
      let* newNode := alloc (mkNode None None None None) in
      match prev with
      | Some p => let* pn := load p in store p (set_down pn (Some newNode))
      | None => ret tt
      end;;
      let* hs := get_heads in
      set_heads (hs ++ [newNode]);;
      ctor_loop height' (Some newNode)
  end.

(** [SkipList(size_t height)], run on the empty state. *)
Definition ctor (height : nat) : M Node unit := ctor_loop height None.

Definition upsert (rnd : nat → Z) (key val : Z) : M Node unit :=
  let* top := heads_at 0 in
  let* fuel := nodes in
  upsertRec rnd fuel (Some top) key val;;
  ret tt.

Fixpoint find_loop (fuel : nat) (matchingNode : addr) (key : Z) : M Node (option Z) :=
  match fuel with
  | O => fail
  | S fuel' =>
      let* n := load matchingNode in
      match down n with
      | Some d =>
          if opt_eq (k n) key then ret (v n)
          else
            let* m := findInLevel d key in
            find_loop fuel' m key
      | None =>
          if opt_ne (k n) key then ret None else ret (v n)
      end
  end.

Definition find (key : Z) : M Node (option Z) :=
  let* top := heads_at 0 in
  let* m := findInLevel top key in
  let* fuel := nodes in
  find_loop fuel m key.

(** The inner [while (clearPointer)] loop of [clear]: each assignment
    moves the successor out of the node and destroys the node. *)
Fixpoint clear_chain (fuel : nat) (clearPointer : option addr) : M Node unit :=
  match clearPointer with
  | None => ret tt
  | Some a =>
      match fuel with
      | O => fail
      | S fuel' =>
          let* n := load a in
          store a (set_next n None);;
          free a;;
          clear_chain fuel' (next n)
      end
  end.

Fixpoint clear_levels (hs : list addr) : M Node unit :=
  match hs with
  | [] => ret tt
  | hd :: hs' =>
      let* n := load hd in
      store hd (set_next n None);;
      let* fuel := nodes in
      clear_chain fuel (next n);;
      clear_levels hs'
  end.

(** [heads.clear()] destroys the owning pointers to the sentinels. *)
Fixpoint free_all (hs : list addr) : M Node unit :=
  match hs with
  | [] => ret tt
  | hd :: hs' => free hd;; free_all hs'
  end.

Definition clear : M Node unit :=
  let* hs := get_heads in
  clear_levels hs;;
  free_all hs;;
  set_heads [].

Definition empty : State Node := mkState ∅ [] 0.

Fixpoint upserts (rnd : nat → Z) (ops : list (Z * Z)) : M Node unit :=
  match ops with
  | [] => ret tt
  | (key, val) :: ops' => upsert rnd key val;; upserts rnd ops'
  end.

(** A fresh index of the given height after the upserts [ops], in order. *)
Definition run (rnd : nat → Z) (height : nat) (ops : list (Z * Z)) : option (State Node) :=
  snd <$> (ctor height;; upserts rnd ops) empty.

(** What [find key] returns on that index. *)
Definition lookup_after (rnd : nat → Z) (height : nat) (ops : list (Z * Z)) (key : Z)
  : option (option Z) :=
  fst <$> (ctor height;; upserts rnd ops;; find key) empty.

End SkipList.

(** ** The atomic single-writer variant, [skiplist_atomic_sw.hpp]

    The embedding runs the code on one thread; the memory orders of the
    loads and stores are not represented. *)

Module SkipListAtomicSingleWriter.

Record Node := mkNode {
  down : option addr;
  next : option addr;
  k : option Z;
  v : Z
}.

(** [Node(Node *down, Node *next)]: no key; the value cell is not written
    and never read, it is modelled as zero. *)
Definition sentinel (down next : option addr) : Node := mkNode down next None 0.

Definition set_next (n : Node) (p : option addr) : Node :=
  mkNode (down n) p (k n) (v n).
Definition set_down (n : Node) (p : option addr) : Node :=
  mkNode p (next n) (k n) (v n).
Definition set_v (n : Node) (x : Z) : Node :=
  mkNode (down n) (next n) (k n) x.

Fixpoint findInLevel_loop (fuel : nat) (current : addr) (key : Z) : M Node addr :=
  match fuel with
  | O => fail
  | S fuel' =>
      let* c := load current in
      match next c with
      | None => ret current
      | Some nx =>
          let* n := load nx in
          if opt_gt (k n) key then ret current
          else findInLevel_loop fuel' nx key
      end
  end.

Definition findInLevel (current : addr) (key : Z) : M Node addr :=
  let* fuel := nodes in findInLevel_loop fuel current key.

Definition chainNode (previous newNode : addr) : M Node addr :=
  let* p := load previous in
  let* n := load newNode in
  store newNode (set_next n (next p));;
  let* p' := load previous in
  store previous (set_next p' (Some newNode));;
  ret newNode.

Fixpoint upsertRec (rnd : nat → Z) (fuel : nat) (current : option addr) (key val : Z)
  : M Node (option addr) :=
  match current with
  | None => ret None
  | Some cur =>
      match fuel with
      | O => fail
      | S fuel' =>
          let* insertNode := findInLevel cur key in
          let* n := load insertNode in
          if opt_eq (k n) key then
            store insertNode (set_v n val);;
            upsertRec rnd fuel' (down n) key val;;
            ret None
          else
            match down n with
            | None =>
                let* newNode := alloc (mkNode None None (Some key) val) in
                let* r := chainNode insertNode newNode in
                ret (Some r)
            | Some d =>
                let* childNode := upsertRec rnd fuel' (Some d) key val in
                match childNode with
                | None => ret None
                | Some child =>
                    let* r := rand rnd in
                    if coin r then
                      let* newNode := alloc (mkNode (Some child) None (Some key) val) in
                      let* r := chainNode insertNode newNode in
                      ret (Some r)
                    else ret None
                end
            end
      end
  end.

Fixpoint ctor_loop (height : nat) (prev : option addr) : M Node unit :=
  match height with
  | O => ret tt
  | S height' =>
      let* newNode := alloc (sentinel None None) in
      match prev with
      | Some p => let* pn := load p in store p (set_down pn (Some newNode))
      | None => ret tt
      end;;
      let* hs := get_heads in
      set_heads (hs ++ [newNode]);;
      ctor_loop height' (Some newNode)
  end.

Definition ctor (height : nat) : M Node unit := ctor_loop height None.

Definition upsert (rnd : nat → Z) (key val : Z) : M Node unit :=
  let* top := heads_at 0 in
  let* fuel := nodes in
  upsertRec rnd fuel (Some top) key val;;
  ret tt.

Fixpoint find_loop (fuel : nat) (matchingNode : addr) (key : Z) : M Node (option Z) :=
  match fuel with
  | O => fail
  | S fuel' =>
      let* n := load matchingNode in
      match down n with
      | Some d =>
          if opt_eq (k n) key then ret (Some (v n))
          else
            let* m := findInLevel d key in
            find_loop fuel' m key
      | None =>
          if opt_ne (k n) key then ret None else ret (Some (v n))
      end
  end.

Definition find (key : Z) : M Node (option Z) :=
  let* top := heads_at 0 in
  let* m := findInLevel top key in
  let* fuel := nodes in
  find_loop fuel m key.

(** The [while (current != nullptr)] loop of [clear], entered with
    [next] already read from [current]. *)
Fixpoint clear_chain (fuel : nat) (current : addr) (nxt : option addr) : M Node unit :=
  match fuel with
  | O => fail
  | S fuel' =>
      free current;;
      match nxt with
      | None => ret tt
      | Some c =>
          let* n := load c in
          clear_chain fuel' c (next n)
      end
  end.

Fixpoint clear_levels (hs : list addr) : M Node unit :=
  match hs with
  | [] => ret tt
  | hd :: hs' =>
      let* n := load hd in
      let* fuel := nodes in
      clear_chain fuel hd (next n);;
      clear_levels hs'
  end.

Definition clear : M Node unit :=
  let* hs := get_heads in
  clear_levels hs;;
  set_heads [].

Definition empty : State Node := mkState ∅ [] 0.

Fixpoint upserts (rnd : nat → Z) (ops : list (Z * Z)) : M Node unit :=
  match ops with
  | [] => ret tt
  | (key, val) :: ops' => upsert rnd key val;; upserts rnd ops'
  end.

Definition run (rnd : nat → Z) (height : nat) (ops : list (Z * Z)) : option (State Node) :=
  snd <$> (ctor height;; upserts rnd ops) empty.

(** What [find key] returns on that index. *)
Definition lookup_after (rnd : nat → Z) (height : nat) (ops : list (Z * Z)) (key : Z)
  : option (option Z) :=
  fst <$> (ctor height;; upserts rnd ops;; find key) empty.

End SkipListAtomicSingleWriter.

Module ASW := SkipListAtomicSingleWriter.

(** ** Representation invariant of the sequential variant *)

Import SkipList.

(** A level as the list of its nodes in chain order, sentinel first, each
    with the key it carries ([None] for the sentinel). *)
Abbreviation level := (list (addr * option Z)) (only parsing).

(** The order on stored keys in which a sentinel is below every real key. *)
Definition klt (a b : option Z) : Prop :=
  match a, b with
  | _, None => False
  | None, Some _ => True
  | Some x, Some y => x < y
  end.

Definition down_ok (below : option level) (key : option Z) (od : option addr) : Prop :=
  match below with
  | None => od = None
  | Some L' => ∃ d, od = Some d ∧ (d, key) ∈ L'
  end.

(** What a node with key [key] looks like when the index holds the
    finite map [m]. *)
Definition node_ok (m : gmap Z Z) (below : option level) (key : option Z) (n : Node) : Prop :=
  k n = key ∧ v n = (key ≫= (m !!.)) ∧ (∀ x, key = Some x → is_Some (m !! x)) ∧
  down_ok below key (down n).

(** The segment of a level from pointer [p] up to pointer [q]. *)
Fixpoint lseg (h : gmap addr Node) (m : gmap Z Z) (below : option level)
    (p : option addr) (l : level) (q : option addr) : Prop :=
  match l with
  | [] => p = q
  | (a, key) :: l' =>
      p = Some a ∧ ∃ n, h !! a = Some n ∧ node_ok m below key n ∧
        lseg h m below (next n) l' q
  end.

Definition level_ok (h : gmap addr Node) (m : gmap Z Z) (below : option level)
    (L : level) : Prop :=
  ∃ hd l, L = (hd, None) :: l ∧ lseg h m below (Some hd) L None ∧
          StronglySorted klt L.*2.

(** The levels from some level down to the bottom one. *)
Fixpoint tower (h : gmap addr Node) (m : gmap Z Z) (ls : list level) : Prop :=
  match ls with
  | [] => False
  | L :: rest =>
      level_ok h m (head rest) L ∧
      match rest with
      | [] => ∀ x, is_Some (m !! x) → (Some x) ∈ L.*2
      | _ :: _ => tower h m rest
      end
  end.

Definition addrs (ls : list level) : list addr := concat ((λ L : level, L.*1) <$> ls).

Definition lhead (L : level) : addr :=
  match L with
  | (a, _) :: _ => a
  | [] => O
  end.

(** The state [s] represents the finite map [m] with the levels [ls]:
    the levels are well formed, pairwise disjoint, headed by the sentinels
    in [heads], and make up the whole heap. *)
Definition Rep (s : State Node) (m : gmap Z Z) (ls : list level) : Prop :=
  tower (heap s) m ls ∧ NoDup (addrs ls) ∧ heads s = lhead <$> ls ∧
  ∀ a, is_Some (heap s !! a) → a ∈ addrs ls.

(** The finite map built by a sequence of upserts. *)
Definition model (ops : list (Z * Z)) : gmap Z Z :=
  foldl (λ m kv, <[kv.1 := kv.2]> m) ∅ ops.

(** Number of consecutive promote outcomes among the draws [c], [c+1], ...,
    looking at no more than [n] of them. *)
Fixpoint promotes (rnd : nat → Z) (n c : nat) : nat :=
  match n with
  | O => O
  | S n' => if coin (rnd c) then S (promotes rnd n' (S c)) else O
  end.

(** The value the specification expects from [find]: that of the most
    recent upsert of the key. *)
Fixpoint last_value (ops : list (Z * Z)) (key : Z) : option Z :=
  match ops with
  | [] => None
  | (k', v') :: ops' =>
      match last_value ops' key with
      | Some x => Some x
      | None => if k' =? key then Some v' else None
      end
  end.

(** Nodes of a level, as the program sees them: those reached from the
    sentinel along [next]. *)
Definition next_of (h : gmap addr Node) (a b : addr) : Prop :=
  ∃ n, h !! a = Some n ∧ next n = Some b.
Definition on_level (h : gmap addr Node) (hd a : addr) : Prop :=
  rtc (next_of h) hd a.
Definition appears (h : gmap addr Node) (hd : addr) (key : Z) : Prop :=
  ∃ a n, on_level h hd a ∧ h !! a = Some n ∧ k n = Some key.

(** The effect of an update on a node: its value is overwritten when it
    carries the key. *)
Definition overwrite (key val : Z) (n : Node) : Node :=
  if opt_eq (k n) key then set_v n (Some val) else n.

(** How an upsert changes the levels [ls] of heap [h] into levels [ls'] of
    heap [h']: sentinels stay, every old node stays on its level, nodes
    outside the levels are untouched and added nodes are freshly allocated. *)
Definition extends (h : gmap addr Node) (ls : list level)
    (h' : gmap addr Node) (ls' : list level) : Prop :=
  NoDup (addrs ls') ∧
  lhead <$> ls' = lhead <$> ls ∧
  (∀ a, a ∉ addrs ls' → h' !! a = h !! a) ∧
  (∀ a, a ∈ addrs ls' → a ∈ addrs ls ∨ h !! a = None) ∧
  (∀ a, a ∈ addrs ls → a ∈ addrs ls') ∧
  (∀ L L', head ls = Some L → head ls' = Some L' → ∀ x, x ∈ L → x ∈ L').

(** [n] lookups of one key in a row, with the results in order. *)
Fixpoint finds (n : nat) (key : Z) : M Node (list (option Z)) :=
  match n with
  | O => ret []
  | S n' =>
      let* r := find key in
      let* rs := finds n' key in
      ret (r :: rs)
  end.

(** ** Relating the two variants

    A node of the sequential variant and a node of the atomic variant
    correspond when they agree on the links and the key and, for a node
    that carries a key, on the value. *)
Definition node_sim (n : Node) (a : ASW.Node) : Prop :=
  down n = ASW.down a ∧ next n = ASW.next a ∧ k n = ASW.k a ∧
  (is_Some (k n) → v n = Some (ASW.v a)).

Definition state_sim (s : State Node) (t : State ASW.Node) : Prop :=
  heads s = heads t ∧ draws s = draws t ∧
  ∀ a, option_Forall2 node_sim (heap s !! a) (heap t !! a).

(** Two runs correspond: both undefined, or both defined with related
    results and corresponding states. *)
Definition res_sim {A B} (R : A → B → Prop)
    (x : option (A * State Node)) (y : option (B * State ASW.Node)) : Prop :=
  match x, y with
  | Some (a, s), Some (b, t) => R a b ∧ state_sim s t
  | None, None => True
  | _, _ => False
  end.

(** ** The shape [clear] relies on

    The chain of addresses reached from pointer [p] along the link [nxt],
    for either type of node. *)
Fixpoint path {N} (nxt : N → option addr) (h : gmap addr N)
    (p : option addr) (l : list addr) : Prop :=
  match l with
  | [] => p = None
  | a :: l' => p = Some a ∧ ∃ n, h !! a = Some n ∧ path nxt h (nxt n) l'
  end.

Definition first_addr (L : list addr) : addr := default O (head L).

(** The heap of [s] consists of the disjoint chains [lsa], one per entry of
    [heads], each starting at its sentinel. *)
Definition Shape {N} (nxt : N → option addr) (s : State N)
    (lsa : list (list addr)) : Prop :=
  (∀ L, L ∈ lsa → ∃ hd l, L = hd :: l ∧ path nxt (heap s) (Some hd) L) ∧
  NoDup (concat lsa) ∧
  heads s = first_addr <$> lsa ∧
  ∀ a, is_Some (heap s !! a) → a ∈ concat lsa.

(** A stream of [rand()] results used in the examples: the coins come out
    as tails, heads, heads, tails, tails, heads, heads, ... *)
Definition flips (i : nat) : Z := Z.of_nat ((i + 1) / 2).

(** ** What an upsert may do to an arbitrary heap

    [kept key val n n'] relates a node before and after an upsert of [key]
    with [val]: the key and the [down] pointer stay, and the value stays
    unless the node carries [key], in which case it may have become [val].
    [grows key val s s'] says that every node of [s] is kept in [s'], that
    every node of [s'] that is not in [s] carries [key] and [val], that
    [heads] is the same and that [rand()] was only called, never rewound. *)
Definition kept (key val : Z) (n n' : Node) : Prop :=
  k n' = k n ∧ down n' = down n ∧
  (v n' = v n ∨ (k n = Some key ∧ v n' = Some val)).

Definition grows (key val : Z) (s s' : State Node) : Prop :=
  heads s' = heads s ∧ (draws s ≤ draws s')%nat ∧
  (∀ a n, heap s !! a = Some n → ∃ n', heap s' !! a = Some n' ∧ kept key val n n') ∧
  (∀ a n', heap s' !! a = Some n' → heap s !! a = None →
     k n' = Some key ∧ v n' = Some val).

(** ** The atomic variant seen through the sequential one

    An atomic single-writer index [t] holds the finite map [m] when it
    corresponds, node by node, to a sequential index that does. *)
Definition ASW_Rep (t : State ASW.Node) (m : gmap Z Z) : Prop :=
  ∃ s ls, state_sim s t ∧ Rep s m ls.

(** ** The load tests, one thread at a time

    The tests instantiate the index with [int] keys and values and count in
    [size_t].  [to_size_t] is arithmetic in [size_t] and the conversion of
    an [int] to it, [to_int] the conversion of a [size_t] to [int]. *)
Definition to_size_t (x : Z) : Z := x mod 18446744073709551616.
Definition to_int (x : Z) : Z := (x + 2147483648) mod 4294967296 - 2147483648.

(** [sequence[i]] on a [std::vector]: out of range is undefined. *)
Definition at_index {N A} (l : list A) (i : nat) : M N A :=
  λ s, match l !! i with
       | Some x => Some (x, s)
       | None => None
       end.

(** [concurrent_correctness_test.cpp].  A thread function is run alone, on
    the atomic single-writer index and without the barrier; [std::shuffle]
    is a parameter [shuffle], of which the theorems assume only that it
    permutes its argument. *)
Module ConcurrentCorrectnessTest.

Definition MAX_VALUE : Z := 1000000.
Definition HEIGHT : nat := 22.

Record ThreadStats := mkStats {
  writes : Z;
  reads : Z;
  validation_failures : Z
}.

Definition incr_writes (st : ThreadStats) : ThreadStats :=
  mkStats (to_size_t (writes st + 1)) (reads st) (validation_failures st).
Definition incr_reads (st : ThreadStats) : ThreadStats :=
  mkStats (writes st) (to_size_t (reads st + 1)) (validation_failures st).
Definition incr_validation_failures (st : ThreadStats) : ThreadStats :=
  mkStats (writes st) (reads st) (to_size_t (validation_failures st + 1)).

(** The [for] loop of [generateThreadSequence]: the counter [i] is an
    [int], compared with and advanced by [size_t] values.  The loop does
    not end when [num_writers] is zero, hence the fuel. *)
Fixpoint generateThreadSequence_loop (fuel : nat) (num_writers i : Z)
    (sequence : list Z) : option (list Z) :=
  match fuel with
  | O => None
  | S fuel' =>
      if to_size_t i <=? MAX_VALUE then
        generateThreadSequence_loop fuel' num_writers
          (to_int (to_size_t (to_size_t i + num_writers))) (sequence ++ [i])
      else Some sequence
  end.

(** The sequence before it is shuffled. *)
Definition generateThreadSequence (num_writers thread_id : Z) : option (list Z) :=
  generateThreadSequence_loop (S (Z.to_nat MAX_VALUE)) num_writers
    (to_int (to_size_t (thread_id + 1))) [].

(** The [for] loop of [generateReaderSequence]; [i++] cannot overflow as
    [i] is at most [MAX_VALUE] there. *)
Fixpoint generateReaderSequence_loop (fuel : nat) (i : Z) (sequence : list Z)
  : option (list Z) :=
  match fuel with
  | O => None
  | S fuel' =>
      if to_size_t i <=? MAX_VALUE then
        generateReaderSequence_loop fuel' (i + 1) (sequence ++ [i])
      else Some sequence
  end.

Definition generateReaderSequence : option (list Z) :=
  generateReaderSequence_loop (S (Z.to_nat MAX_VALUE)) 1 [].

(** The range-[for] of [readerThread]. *)
Fixpoint readerThread_loop (sequence : list Z) (stats : ThreadStats)
  : M ASW.Node ThreadStats :=
  match sequence with
  | [] => ret stats
  | key :: sequence' =>
      let* result := ASW.find key in
      let stats := incr_reads stats in
      let stats :=
        match result with
        | Some x => if negb (x =? key) then incr_validation_failures stats else stats
        | None => stats
        end in
      readerThread_loop sequence' stats
  end.

Definition readerThread (shuffle : list Z → list Z) (stats : ThreadStats)
  : M ASW.Node ThreadStats :=
  match generateReaderSequence return M ASW.Node ThreadStats with
  | None => @fail ASW.Node ThreadStats
  | Some sequence => readerThread_loop (shuffle sequence) stats
  end.

(** The [while (current_idx < sequence.size())] loop of [writerThread]. *)
Fixpoint writerThread_loop (fuel : nat) (rnd : nat → Z) (sequence : list Z)
    (current_idx : nat) (stats : ThreadStats) : M ASW.Node ThreadStats :=
  match fuel with
  | O => fail
  | S fuel' =>
      if (current_idx <? length sequence)%nat then
        let* key := at_index sequence current_idx in
        let value := key in
        ASW.upsert rnd key value;;
        let stats := incr_writes stats in
        let* stats :=
          if (0 <? current_idx)%nat then
            let* prev_key := at_index sequence (current_idx - 1) in
            let expected_value := prev_key in
            let* result := ASW.find prev_key in
            let stats := incr_reads stats in
            match result with
            | Some x =>
                if negb (x =? expected_value)
                then ret (incr_validation_failures stats) else ret stats
            | None => ret (incr_validation_failures stats)
            end
          else ret stats in
        writerThread_loop fuel' rnd sequence (S current_idx) stats
      else ret stats
  end.

Definition writerThread (rnd : nat → Z) (shuffle : list Z → list Z)
    (num_writers thread_id : Z) (stats : ThreadStats) : M ASW.Node ThreadStats :=
  match generateThreadSequence num_writers thread_id
    return M ASW.Node ThreadStats with
  | None => @fail ASW.Node ThreadStats
  | Some sequence0 =>
      let sequence := shuffle sequence0 in
      writerThread_loop (S (length sequence)) rnd sequence 0 stats
  end.

End ConcurrentCorrectnessTest.

(** [concurrent_load_test.cpp]: the loop of [ConcurrentTest::run] that
    fills the index before the threads start; the counter is a [size_t]
    converted to an [int] key and an [int] value. *)
Module ConcurrentTest.

Fixpoint run_init_loop (fuel : nat) (rnd : nat → Z) (initial_size i : Z)
  : M ASW.Node unit :=
  match fuel with
  | O => fail
  | S fuel' =>
      if i <? initial_size then
        ASW.upsert rnd (to_int i) (to_int i);;
        run_init_loop fuel' rnd initial_size (to_size_t (i + 1))
      else ret tt
  end.

Definition run_init (rnd : nat → Z) (initial_size : Z) : M ASW.Node unit :=
  run_init_loop (S (Z.to_nat initial_size)) rnd initial_size 0.

End ConcurrentTest.

(** The upsert a writer of the correctness test issues for a key, and the
    counters a thread starts with. *)
Definition dup (key : Z) : Z * Z := (key, key).
Definition stats0 : ConcurrentCorrectnessTest.ThreadStats :=
  ConcurrentCorrectnessTest.mkStats 0 0 0.

(** ** Running the monad *)

Lemma bind_run {N A B} (m : M N A) (f : A → M N B) s x s' :
  m s = Some (x, s') → bind m f s = f x s'.
Proof. unfold bind. by intros ->. Qed.

Lemma bind_inv {N A B} (m : M N A) (f : A → M N B) s r :
  bind m f s = Some r → ∃ x s', m s = Some (x, s') ∧ f x s' = Some r.
Proof.
  unfold bind. destruct (m s) as [[x s']|]; [|done]. eauto.
Qed.

Lemma load_run {N} (a : addr) (n : N) s :
  heap s !! a = Some n → load a s = Some (n, s).
Proof. unfold load. by intros ->. Qed.

Lemma store_run {N} (a : addr) (n n0 : N) s :
  heap s !! a = Some n0 →
  store a n s = Some (tt, mkState (<[a := n]> (heap s)) (heads s) (draws s)).
Proof. unfold store. by intros ->. Qed.

(** ** Segments *)

Lemma lseg_app h m b p l1 l2 q :
  lseg h m b p (l1 ++ l2) q ↔ ∃ r, lseg h m b p l1 r ∧ lseg h m b r l2 q.
Proof.
  revert p. induction l1 as [|[a key] l1 IH]; intros p; simpl.
  - split; [eauto|]. by intros (r & -> & ?).
  - split.
    + intros (-> & n & Hn & Hok & Hl). apply IH in Hl as (r & ? & ?).
      exists r. split; [|done]. split; [done|]. eauto.
    + intros (r & (-> & n & Hn & Hok & Hl) & Hr). split; [done|].
      exists n. split_and!; [done..|]. apply IH. eauto.
Qed.

Lemma lseg_mono h m b h' m' b' p l q :
  (∀ a key n, (a, key) ∈ l → h !! a = Some n → node_ok m b key n →
     ∃ n', h' !! a = Some n' ∧ next n' = next n ∧ node_ok m' b' key n') →
  lseg h m b p l q → lseg h' m' b' p l q.
Proof.
  revert p. induction l as [|[a key] l IH]; intros p Hmono; simpl; [done|].
  intros (-> & n & Hn & Hok & Hl). split; [done|].
  destruct (Hmono a key n) as (n' & Hn' & Hnext & Hok'); [left|done..|].
  exists n'. split_and!; [done..|]. rewrite Hnext. apply IH; [|done].
  intros a0 key0 n0 Hin. apply Hmono. by right.
Qed.

Lemma lseg_lookup h m b p l q a key :
  lseg h m b p l q → (a, key) ∈ l → ∃ n, h !! a = Some n ∧ node_ok m b key n.
Proof.
  revert p. induction l as [|[a0 key0] l IH]; intros p; simpl.
  - intros _ Hin. by apply elem_of_nil in Hin.
  - intros (-> & n & Hn & Hok & Hl) Hin.
    apply elem_of_cons in Hin as [[= -> ->]|Hin]; eauto.
Qed.

(** ** The search primitive *)

Lemma findInLevel_loop_spec h hs d m b key :
  ∀ post cur kc fuel,
    lseg h m b (Some cur) ((cur, kc) :: post) None →
    (length post < fuel)%nat →
    ∃ q1 q2 anc ka,
      post = q1 ++ q2 ∧ last ((cur, kc) :: q1) = Some (anc, ka) ∧
      Forall (λ x, opt_gt x.2 key = false) q1 ∧
      (∀ x, head q2 = Some x → opt_gt x.2 key = true) ∧
      findInLevel_loop fuel cur key (mkState h hs d) = Some (anc, mkState h hs d).
Proof.
  induction post as [|[a1 k1] post IH]; intros cur kc fuel Hseg Hfuel;
    (destruct fuel as [|fuel]; [simpl in Hfuel; lia|]);
    destruct Hseg as (_ & n & Hn & Hok & Hseg); simpl in Hseg.
  - exists [], [], cur, kc. split_and!; try done.
    simpl. rewrite (bind_run _ _ _ n (mkState h hs d)); [|by apply load_run].
    by rewrite Hseg.
  - destruct Hseg as (Hnext & n1 & Hn1 & Hok1 & Hseg1).
    simpl. rewrite (bind_run _ _ _ n (mkState h hs d)); [|by apply load_run].
    rewrite Hnext. rewrite (bind_run _ _ _ n1 (mkState h hs d)); [|by apply load_run].
    rewrite (proj1 Hok1).
    destruct (opt_gt k1 key) eqn:Hgt.
    + exists [], ((a1, k1) :: post), cur, kc. split_and!; try done.
      intros x [= <-]. done.
    + destruct (IH a1 k1 fuel) as (q1 & q2 & anc & ka & -> & Hlast & Hle & Hhd & Hrun).
      { simpl. split; [done|]. by exists n1. }
      { simpl in Hfuel. lia. }
      exists ((a1, k1) :: q1), q2, anc, ka. split_and!; try done.
      constructor; done.
Qed.

(** ** Sorted key lists *)

Lemma klt_gt a b key : klt a b → opt_gt a key = true → opt_gt b key = true.
Proof.
  destruct a as [x|], b as [y|]; simpl; try done.
  intros Hlt Hgt. apply Z.ltb_lt in Hgt. apply Z.ltb_lt. lia.
Qed.

Lemma klt_le_ne a b key : klt a b → opt_gt b key = false → a ≠ Some key.
Proof.
  destruct a as [x|], b as [y|]; simpl; try done.
  intros Hlt Hle [= ->]. apply Z.ltb_ge in Hle. lia.
Qed.

Lemma klt_trans_key a b key :
  klt a b → opt_gt b key = false → b ≠ Some key → klt a (Some key).
Proof.
  destruct a as [x|], b as [y|]; simpl; try done.
  intros Hlt Hle Hne. apply Z.ltb_ge in Hle.
  assert (y ≠ key) by congruence. lia.
Qed.

Lemma kle_ne_klt b key : opt_gt b key = false → b ≠ Some key → klt b (Some key).
Proof.
  destruct b as [y|]; simpl; [|done].
  intros Hle Hne. apply Z.ltb_ge in Hle. assert (y ≠ key) by congruence. lia.
Qed.

Lemma opt_gt_klt b key : opt_gt b key = true → klt (Some key) b.
Proof. destruct b as [y|]; simpl; [|done]. apply Z.ltb_lt. Qed.

Lemma opt_gt_ne b key : opt_gt b key = true → b ≠ Some key.
Proof. destruct b as [y|]; simpl; [|done]. intros H%Z.ltb_lt [= ->]. lia. Qed.

Lemma opt_eq_true o key : opt_eq o key = true ↔ o = Some key.
Proof.
  destruct o as [x|]; simpl; [|done]. rewrite Z.eqb_eq. split; congruence.
Qed.

Lemma opt_eq_false o key : opt_eq o key = false ↔ o ≠ Some key.
Proof.
  destruct o as [x|]; simpl; [|done]. rewrite Z.eqb_neq. split; congruence.
Qed.

Lemma opt_ne_eq o key : opt_ne o key = negb (opt_eq o key).
Proof. by destruct o. Qed.

Lemma sorted_head_gt (ks : list (option Z)) key :
  StronglySorted klt ks →
  (∀ x, head ks = Some x → opt_gt x key = true) →
  Forall (λ x, opt_gt x key = true) ks.
Proof.
  destruct ks as [|x ks]; [constructor|].
  intros [Hall _]%StronglySorted_cons Hhd.
  specialize (Hhd x eq_refl). constructor; [done|].
  eapply Forall_impl; [done|]. intros y Hy. by eapply klt_gt.
Qed.

(** Where the search stops, the key is to the left or nowhere. *)
Lemma sorted_absent (ks1 ks2 : list (option Z)) ka key :
  StronglySorted klt (ks1 ++ ka :: ks2) →
  opt_gt ka key = false → ka ≠ Some key →
  Forall (λ x, opt_gt x key = true) ks2 →
  Some key ∉ ks1 ++ ka :: ks2.
Proof.
  intros Hs Hle Hne Hgt Hin.
  apply StronglySorted_app in Hs as (Hcross & _ & Hs2).
  apply elem_of_app in Hin as [Hin|Hin].
  - eapply klt_le_ne; [|done..]. apply Hcross; [done|left].
  - apply elem_of_cons in Hin as [Hin|Hin]; [done|].
    rewrite Forall_forall in Hgt. by eapply opt_gt_ne; [apply Hgt|].
Qed.

Lemma sorted_insert (ks1 ks2 : list (option Z)) ka key :
  StronglySorted klt (ks1 ++ ka :: ks2) →
  opt_gt ka key = false → ka ≠ Some key →
  Forall (λ x, opt_gt x key = true) ks2 →
  StronglySorted klt (ks1 ++ ka :: Some key :: ks2).
Proof.
  intros Hs Hle Hne Hgt.
  apply StronglySorted_app in Hs as (Hcross & Hs1 & Hs2).
  apply StronglySorted_cons in Hs2 as [Ha Hs2].
  apply StronglySorted_app. split_and!; [|done|].
  - intros x1 x2 Hx1 Hx2. apply elem_of_cons in Hx2 as [->|Hx2].
    { apply Hcross; [done|left]. }
    apply elem_of_cons in Hx2 as [->|Hx2].
    { eapply klt_trans_key; [|done..]. apply Hcross; [done|left]. }
    apply Hcross; [done|by right].
  - apply StronglySorted_cons. split.
    + constructor; [by apply kle_ne_klt|done].
    + apply StronglySorted_cons. split; [|done].
      eapply Forall_impl; [done|]. intros y Hy. by apply opt_gt_klt.
Qed.

(** A stored key occurs once in a sorted level. *)
Lemma sorted_key_unique (L : level) a1 a2 key :
  StronglySorted klt L.*2 → (a1, key) ∈ L → (a2, key) ∈ L → a1 = a2.
Proof.
  induction L as [|[a0 k0] L IH]; simpl; intros Hs H1 H2.
  { by apply elem_of_nil in H1. }
  apply StronglySorted_cons in Hs as [Hall Hs].
  assert (Hirr : ∀ a, (a, k0) ∈ L → False).
  { intros a Ha. rewrite Forall_forall in Hall.
    assert (klt k0 k0) as Hk.
    { apply Hall. apply (list_elem_of_fmap_2 snd) in Ha. done. }
    destruct k0; simpl in Hk; [lia|done]. }
  apply elem_of_cons in H1 as [E1|H1]; apply elem_of_cons in H2 as [E2|H2];
    simplify_eq; eauto; by exfalso; eauto.
Qed.

(** ** Levels and towers *)

Lemma lseg_in_heap h m b p l q a :
  lseg h m b p l q → a ∈ l.*1 → is_Some (h !! a).
Proof.
  intros Hseg Hin. apply list_elem_of_fmap in Hin as ([a' key] & -> & Hin).
  destruct (lseg_lookup _ _ _ _ _ _ _ _ Hseg Hin) as (n & Hn & _). eauto.
Qed.

Lemma level_in_heap h m b L a : level_ok h m b L → a ∈ L.*1 → is_Some (h !! a).
Proof. intros (hd & l & _ & Hseg & _). by eapply lseg_in_heap. Qed.

Lemma tower_in_heap h m ls a : tower h m ls → a ∈ addrs ls → is_Some (h !! a).
Proof.
  unfold addrs. induction ls as [|L rest IH]; simpl; [done|].
  intros [HL Hrest] [Hin|Hin]%elem_of_app.
  - by eapply level_in_heap.
  - destruct rest; [by apply elem_of_nil in Hin|]. by apply IH.
Qed.

Lemma tower_rest h m L L' rest : tower h m (L :: L' :: rest) → tower h m (L' :: rest).
Proof. by intros [_ ?]. Qed.

Lemma tower_level h m L rest : tower h m (L :: rest) → level_ok h m (head rest) L.
Proof. by intros [? _]. Qed.

Lemma NoDup_length_heap {N} (h : gmap nat N) (l : list nat) :
  NoDup l → (∀ a, a ∈ l → is_Some (h !! a)) → (length l ≤ size h)%nat.
Proof.
  intros Hnd Hin. rewrite <- size_dom, <- (size_list_to_set (C := gset nat) l Hnd).
  apply subseteq_size. intros a Ha. apply elem_of_dom, Hin.
  by apply elem_of_list_to_set in Ha.
Qed.

Lemma addrs_cons L ls : addrs (L :: ls) = L.*1 ++ addrs ls.
Proof. done. Qed.

Lemma elem_of_addrs a ls : a ∈ addrs ls ↔ ∃ L, L ∈ ls ∧ a ∈ L.*1.
Proof.
  induction ls as [|L0 ls IH].
  - split; [by intros ?%elem_of_nil|]. by intros (L & ?%elem_of_nil & _).
  - rewrite addrs_cons, elem_of_app, IH. split.
    + intros [Ha|(L & HL & Ha)]; [exists L0|exists L]; split; try done;
        [left|by right].
    + intros (L & [->|HL]%elem_of_cons & Ha); eauto.
Qed.

Lemma level_length h m b L rest :
  level_ok h m b L → NoDup (addrs (L :: rest)) → (length L ≤ size h)%nat.
Proof.
  intros HL Hnd. rewrite addrs_cons in Hnd. apply NoDup_app in Hnd as (Hnd & _ & _).
  rewrite <- (length_fmap fst). apply NoDup_length_heap; [done|].
  intros a Ha. by eapply level_in_heap.
Qed.

Lemma tower_nonempty h m ls L : tower h m ls → L ∈ ls → L ≠ [].
Proof.
  induction ls as [|L0 rest IH]; simpl; [done|].
  intros [HL Hrest] [->|Hin]%elem_of_cons.
  - destruct HL as (hd & l & -> & _). done.
  - destruct rest; [by apply elem_of_nil in Hin|]. by apply IH.
Qed.

Lemma tower_length h m ls :
  tower h m ls → NoDup (addrs ls) → (length ls ≤ size h)%nat.
Proof.
  intros Ht Hnd.
  assert (length ls ≤ length (addrs ls))%nat as Hle.
  { clear Hnd. induction ls as [|L rest IH]; simpl; [done|].
    rewrite addrs_cons, length_app, length_fmap.
    assert (L ≠ []) as HL by (eapply tower_nonempty; [done|left]).
    assert (length rest ≤ length (addrs rest))%nat.
    { destruct rest as [|L' rest]; [simpl; lia|]. apply IH. by eapply tower_rest. }
    destruct L; [done|]. simpl. lia. }
  etrans; [done|]. apply NoDup_length_heap; [done|].
  intros a Ha. by eapply tower_in_heap.
Qed.

(** The search from [cur] on a level stops at the rightmost node whose key
    does not exceed [key]. *)
Lemma findInLevel_level h hs d m b L pre cur kc post key :
  level_ok h m b L → (length L ≤ size h)%nat →
  L = pre ++ (cur, kc) :: post →
  Forall (λ x, opt_gt x.2 key = false) (pre ++ [(cur, kc)]) →
  ∃ l1 anc ka l2,
    L = l1 ++ (anc, ka) :: l2 ∧
    Forall (λ x, opt_gt x.2 key = false) (l1 ++ [(anc, ka)]) ∧
    Forall (λ x, opt_gt x.2 key = true) l2 ∧
    findInLevel cur key (mkState h hs d) = Some (anc, mkState h hs d).
Proof.
  intros (hd & l & HL & Hseg & Hsort) Hlen Hsplit Hle.
  rewrite Hsplit in Hseg, Hsort, Hlen.
  apply lseg_app in Hseg as (r & Hpre & Hseg).
  assert (r = Some cur) as -> by (by destruct Hseg).
  destruct (findInLevel_loop_spec h hs d m b key post cur kc (size h) Hseg)
    as (q1 & q2 & anc & ka & -> & Hlast & Hle1 & Hhd & Hrun).
  { rewrite length_app in Hlen. simpl in Hlen. lia. }
  apply last_Some in Hlast as [l' Hl'].
  exists (pre ++ l'), anc, ka, q2. split_and!.
  - rewrite Hsplit, <- app_assoc. f_equal.
    change ((cur, kc) :: q1 ++ q2) with (((cur, kc) :: q1) ++ q2).
    rewrite Hl', <- app_assoc. done.
  - rewrite <- app_assoc, <- Hl'.
    change (pre ++ (cur, kc) :: q1) with (pre ++ [(cur, kc)] ++ q1).
    rewrite app_assoc. by apply Forall_app.
  - rewrite fmap_app, fmap_cons, fmap_app in Hsort.
    apply StronglySorted_app_1_r in Hsort.
    apply StronglySorted_cons in Hsort as [_ Hsort].
    apply StronglySorted_app_1_r in Hsort.
    apply (Forall_fmap snd (λ x, opt_gt x key = true)).
    apply sorted_head_gt; [done|].
    intros x Hx. destruct q2 as [|y q2]; [done|]. simpl in Hx.
    injection Hx as <-. by apply Hhd.
  - unfold findInLevel. by rewrite (bind_run _ _ _ (size h) (mkState h hs d)).
Qed.

Lemma klt_le a b key : klt a b → opt_gt b key = false → opt_gt a key = false.
Proof.
  destruct a as [x|], b as [y|]; simpl; try done.
  intros Hlt Hle. apply Z.ltb_ge in Hle. apply Z.ltb_ge. lia.
Qed.

Lemma sorted_prefix_le (L : level) pre d kd post key :
  StronglySorted klt L.*2 → L = pre ++ (d, kd) :: post →
  opt_gt kd key = false →
  Forall (λ x, opt_gt x.2 key = false) (pre ++ [(d, kd)]).
Proof.
  intros Hs -> Hle. rewrite fmap_app, fmap_cons in Hs.
  apply StronglySorted_app in Hs as (Hcross & _ & _).
  apply Forall_app. split; [|by constructor].
  apply Forall_forall. intros x Hx. eapply klt_le; [|done].
  apply Hcross; [by apply list_elem_of_fmap_2|left].
Qed.

(** Descending from a node of one level to its [down] node puts the search
    at a position of the level below that is still left of the key. *)
Lemma descend_position h m L' rest d kd key :
  tower h m (L' :: rest) → (d, kd) ∈ L' → opt_gt kd key = false →
  ∃ pre post, L' = pre ++ (d, kd) :: post ∧
    Forall (λ x, opt_gt x.2 key = false) (pre ++ [(d, kd)]).
Proof.
  intros [(hd & l & _ & _ & Hsort) _] Hin Hle.
  apply list_elem_of_split in Hin as (pre & post & ->).
  exists pre, post. split; [done|]. by eapply sorted_prefix_le.
Qed.

Lemma anchor_le (l1 : level) anc ka key :
  Forall (λ x, opt_gt x.2 key = false) (l1 ++ [(anc, ka)]) → opt_gt ka key = false.
Proof. intros [_ H]%Forall_app. apply Forall_inv in H. exact H. Qed.

Lemma anchor_lookup h m b L l1 anc ka l2 :
  level_ok h m b L → L = l1 ++ (anc, ka) :: l2 →
  ∃ n, h !! anc = Some n ∧ node_ok m b ka n.
Proof.
  intros (hd & l & _ & Hseg & _) HL. eapply lseg_lookup; [done|].
  rewrite HL. apply elem_of_app. right. left.
Qed.

Lemma anchor_absent h m b L l1 anc ka l2 key :
  level_ok h m b L → L = l1 ++ (anc, ka) :: l2 →
  Forall (λ x, opt_gt x.2 key = false) (l1 ++ [(anc, ka)]) →
  Forall (λ x, opt_gt x.2 key = true) l2 →
  ka ≠ Some key → Some key ∉ L.*2.
Proof.
  intros (hd & l & _ & _ & Hsort) HL Hle Hgt Hne.
  rewrite HL in Hsort |- *. rewrite fmap_app, fmap_cons in Hsort |- *.
  apply sorted_absent; [done|by apply (anchor_le l1 anc)|done|].
  by apply Forall_fmap.
Qed.

(** ** Lookup *)

Lemma find_loop_spec h hs d m key :
  ∀ rest fuel L l1 anc ka l2,
    tower h m (L :: rest) → NoDup (addrs (L :: rest)) →
    L = l1 ++ (anc, ka) :: l2 →
    Forall (λ x, opt_gt x.2 key = false) (l1 ++ [(anc, ka)]) →
    Forall (λ x, opt_gt x.2 key = true) l2 →
    (length (L :: rest) ≤ fuel)%nat →
    find_loop fuel anc key (mkState h hs d) = Some (m !! key, mkState h hs d).
Proof.
  induction rest as [|L' rest IH]; intros fuel L l1 anc ka l2 Ht Hnd HL Hle Hgt Hfuel;
    (destruct fuel as [|fuel]; [simpl in Hfuel; lia|]);
    destruct (anchor_lookup _ _ _ _ _ _ _ _ (tower_level _ _ _ _ Ht) HL)
      as (n & Hn & Hk & Hv & Hdom & Hdown);
    simpl; rewrite (bind_run _ _ _ n (mkState h hs d)) by (by apply load_run);
    simpl in Hdown.
  - rewrite Hdown, opt_ne_eq, Hk. destruct (opt_eq ka key) eqn:Heq; simpl.
    + apply opt_eq_true in Heq as ->. by rewrite Hv.
    + apply opt_eq_false in Heq. unfold ret. do 2 f_equal.
      destruct (m !! key) as [x|] eqn:Hm; [|done]. exfalso.
      eapply anchor_absent; [by eapply tower_level|done..|].
      destruct Ht as [_ Hbot]. apply Hbot. by rewrite Hm.
  - destruct Hdown as (dn & -> & Hd). rewrite Hk.
    destruct (opt_eq ka key) eqn:Heq.
    + apply opt_eq_true in Heq as ->. by rewrite Hv.
    + pose proof (tower_rest _ _ _ _ _ Ht) as Ht'.
      assert (NoDup (addrs (L' :: rest))) as Hnd'.
      { rewrite addrs_cons in Hnd. by apply NoDup_app in Hnd as (_ & _ & ?). }
      destruct (descend_position _ _ _ _ _ _ key Ht' Hd) as (pre & post & HL' & Hle');
        [by apply (anchor_le l1 anc)|].
      destruct (findInLevel_level h hs d m (head rest) L' pre dn ka post key)
        as (l1' & anc' & ka' & l2' & HL'' & Hle'' & Hgt'' & Hrun); try done.
      { by eapply tower_level. }
      { eapply level_length; [by eapply tower_level|done]. }
      rewrite (bind_run _ _ _ _ _ Hrun).
      eapply IH; try done. simpl in Hfuel |- *. lia.
Qed.

(** ** Changing the heap under a level *)

Lemma level_ok_mono h m b h' m' b' L :
  level_ok h m b L →
  (∀ a key n, (a, key) ∈ L → h !! a = Some n → node_ok m b key n →
     ∃ n', h' !! a = Some n' ∧ next n' = next n ∧ node_ok m' b' key n') →
  level_ok h' m' b' L.
Proof.
  intros (hd & l & HL & Hseg & Hsort) Hmono. exists hd, l.
  split_and!; [done| |done]. by eapply lseg_mono.
Qed.

Lemma tower_frame h h' m ls :
  tower h m ls → (∀ a, a ∈ addrs ls → h' !! a = h !! a) → tower h' m ls.
Proof.
  induction ls as [|L rest IH]; simpl; [done|]. intros [HL Hrest] Hsame. split.
  - eapply level_ok_mono; [done|]. intros a key n Hin Hn Hok. exists n.
    split_and!; try done. rewrite Hsame; [done|].
    rewrite addrs_cons. apply elem_of_app. left.
    by apply (list_elem_of_fmap_2 fst) in Hin.
  - destruct rest as [|L' rest]; [done|]. apply IH; [done|].
    intros a Ha. apply Hsame. rewrite addrs_cons. apply elem_of_app. by right.
Qed.

Lemma node_ok_overwrite m b key val kx n :
  node_ok m b kx n → node_ok (<[key := val]> m) b kx (overwrite key val n).
Proof.
  intros (Hk & Hv & Hdom & Hdown). unfold overwrite. rewrite Hk.
  destruct (opt_eq kx key) eqn:Heq.
  - apply opt_eq_true in Heq as ->. split_and!; simpl; try done.
    + by rewrite lookup_insert_eq.
    + intros x [= <-]. rewrite lookup_insert_eq. eauto.
  - apply opt_eq_false in Heq. split_and!; try done.
    + rewrite Hv. destruct kx as [x|]; [simpl|done].
      rewrite lookup_insert_ne; [done|congruence].
    + intros x ->. rewrite lookup_insert_ne; [eauto|congruence].
Qed.

Lemma overwrite_next key val n : next (overwrite key val n) = next n.
Proof. unfold overwrite. by destruct (opt_eq (k n) key). Qed.

Lemma overwrite_other key val n : k n ≠ Some key → overwrite key val n = n.
Proof. intros H%opt_eq_false. unfold overwrite. by rewrite H. Qed.

Lemma tower_overwrite h h' m ls key val :
  tower h m ls → is_Some (m !! key) →
  (∀ a, a ∈ addrs ls → h' !! a = overwrite key val <$> h !! a) →
  tower h' (<[key := val]> m) ls.
Proof.
  intros Ht Hkey. induction ls as [|L rest IH]; simpl; [done|].
  destruct Ht as [HL Hrest]. intros Hsame. split.
  - eapply level_ok_mono; [done|]. intros a kx n Hin Hn Hok.
    exists (overwrite key val n). split_and!.
    + rewrite Hsame, Hn; [done|]. rewrite addrs_cons. apply elem_of_app. left.
      by apply (list_elem_of_fmap_2 fst) in Hin.
    + apply overwrite_next.
    + by apply node_ok_overwrite.
  - destruct rest as [|L' rest].
    + intros x Hx. destruct (decide (x = key)) as [->|Hne]; [by apply Hrest|].
      apply Hrest. by rewrite lookup_insert_ne in Hx.
    + apply IH; [done|]. intros a Ha. apply Hsame. rewrite addrs_cons.
      apply elem_of_app. by right.
Qed.

Lemma level_node_key h m b L a n :
  level_ok h m b L → a ∈ L.*1 → h !! a = Some n → (a, k n) ∈ L.
Proof.
  intros (hd & l & _ & Hseg & _) Hin Hn.
  apply list_elem_of_fmap in Hin as ([a' kx] & -> & Hin).
  destruct (lseg_lookup _ _ _ _ _ _ _ _ Hseg Hin) as (n' & Hn' & Hk & _).
  simpl in Hn. rewrite Hn in Hn'. injection Hn' as ->. by rewrite Hk.
Qed.

Lemma level_sorted h m b L : level_ok h m b L → StronglySorted klt L.*2.
Proof. by intros (hd & l & _ & _ & ?). Qed.

Lemma NoDup_addrs_cons L rest :
  NoDup (addrs (L :: rest)) →
  NoDup L.*1 ∧ NoDup (addrs rest) ∧ ∀ a, a ∈ L.*1 → a ∉ addrs rest.
Proof. rewrite addrs_cons. intros (? & ? & ?)%NoDup_app. done. Qed.

(** ** Upsert of a key that is present *)

Lemma upsertRec_None rnd fuel key val : upsertRec rnd fuel None key val = ret None.
Proof. by destruct fuel. Qed.

Lemma upsertRec_update rnd hs d m key val :
  is_Some (m !! key) →
  ∀ rest fuel h L pre cur kc post,
    tower h m (L :: rest) → NoDup (addrs (L :: rest)) →
    L = pre ++ (cur, kc) :: post →
    Forall (λ x, opt_gt x.2 key = false) (pre ++ [(cur, kc)]) →
    (length (L :: rest) ≤ fuel)%nat →
    ∃ h', upsertRec rnd fuel (Some cur) key val (mkState h hs d)
            = Some (None, mkState h' hs d) ∧
      (∀ a, a ∈ addrs (L :: rest) → h' !! a = overwrite key val <$> h !! a) ∧
      (∀ a, a ∉ addrs (L :: rest) → h' !! a = h !! a).
Proof.
  intros Hkey.
  induction rest as [|L' rest IH]; intros fuel h L pre cur kc post Ht Hnd HL Hle Hfuel;
    (destruct fuel as [|fuel]; [simpl in Hfuel; lia|]);
    pose proof (tower_level _ _ _ _ Ht) as HLok;
    pose proof (NoDup_addrs_cons _ _ Hnd) as (HndL & Hndr & Hdisj);
    (destruct (findInLevel_level h hs d m _ L pre cur kc post key HLok)
      as (l1 & anc & ka & l2 & HL2 & Hle2 & Hgt2 & Hrun);
      [by eapply level_length|done|done|]);
    destruct (anchor_lookup _ _ _ _ _ _ _ _ HLok HL2) as (n & Hn & Hok);
    assert ((anc, ka) ∈ L) as Hanc by (rewrite HL2; apply elem_of_app; right; left);
    assert (anc ∈ L.*1) as Hanc1 by (by apply (list_elem_of_fmap_2 fst) in Hanc);
    cbn [upsertRec]; rewrite (bind_run _ _ _ _ _ Hrun);
    rewrite (bind_run _ _ _ n (mkState h hs d)) by (by apply load_run);
    destruct Hok as (Hk & Hv & Hdom & Hdown); rewrite Hk;
    destruct (opt_eq ka key) eqn:Heq.
  - (* found on the bottom level *)
    apply opt_eq_true in Heq as ->. simpl in Hdown.
    rewrite (bind_run _ _ _ tt _ (store_run anc _ n (mkState h hs d) Hn)).
    rewrite Hdown, upsertRec_None. simpl. eexists. split; [reflexivity|]. split.
    + intros a Ha. rewrite addrs_cons, app_nil_r in Ha.
      destruct (decide (a = anc)) as [->|Hne].
      * rewrite lookup_insert_eq, Hn. simpl. unfold overwrite. rewrite Hk. simpl.
        by rewrite Z.eqb_refl.
      * rewrite lookup_insert_ne by done. destruct (h !! a) as [na|] eqn:Hna; [|done].
        simpl. rewrite overwrite_other; [done|]. intros Hka.
        apply Hne. eapply sorted_key_unique; [by eapply level_sorted| |done].
        rewrite <- Hka. by eapply level_node_key.
    + intros a Ha. rewrite lookup_insert_ne; [done|]. intros <-. apply Ha.
      rewrite addrs_cons. apply elem_of_app. by left.
  - (* not on the bottom level although present: impossible *)
    apply opt_eq_false in Heq. exfalso.
    eapply anchor_absent; [done..|]. destruct Ht as [_ Hbot]. by apply Hbot.
  - (* found on an upper level *)
    apply opt_eq_true in Heq as ->. simpl in Hdown. destruct Hdown as (dn & Hdn & Hd).
    rewrite (bind_run _ _ _ tt _ (store_run anc _ n (mkState h hs d) Hn)).
    rewrite Hdn. simpl heap. simpl heads. simpl draws.
    pose proof (tower_rest _ _ _ _ _ Ht) as Ht'.
    assert (tower (<[anc := set_v n (Some val)]> h) m (L' :: rest)) as Ht1.
    { eapply tower_frame; [done|]. intros a Ha. rewrite lookup_insert_ne; [done|].
      intros <-. by eapply Hdisj. }
    destruct (descend_position _ _ _ _ _ _ key Ht1 Hd) as (pre' & post' & HL' & Hle').
    { simpl. apply Z.ltb_irrefl. }
    destruct (IH fuel _ L' pre' dn (Some key) post' Ht1 Hndr HL' Hle')
      as (h2 & Hrun2 & Hin2 & Hout2).
    { simpl in Hfuel |- *. lia. }
    rewrite (bind_run _ _ _ _ _ Hrun2). simpl.
    exists h2. split; [done|]. split.
    + intros a Ha. rewrite addrs_cons in Ha. apply elem_of_app in Ha as [Ha|Ha].
      * rewrite Hout2 by (by apply Hdisj).
        destruct (decide (a = anc)) as [->|Hne].
        -- rewrite lookup_insert_eq, Hn. simpl. unfold overwrite. rewrite Hk. simpl.
           by rewrite Z.eqb_refl.
        -- rewrite lookup_insert_ne by done.
           destruct (h !! a) as [na|] eqn:Hna; [|done].
           simpl. rewrite overwrite_other; [done|]. intros Hka.
           apply Hne. eapply sorted_key_unique; [by eapply level_sorted| |done].
           rewrite <- Hka. by eapply level_node_key.
      * rewrite Hin2 by done. rewrite lookup_insert_ne; [done|].
        intros <-. by eapply Hdisj.
    + intros a Ha. rewrite Hout2.
      * rewrite lookup_insert_ne; [done|]. intros <-. apply Ha.
        rewrite addrs_cons. apply elem_of_app. by left.
      * intros Ha'. apply Ha. rewrite addrs_cons. apply elem_of_app. by right.
  - (* descend *)
    apply opt_eq_false in Heq. simpl in Hdown. destruct Hdown as (dn & Hdn & Hd).
    rewrite Hdn.
    pose proof (tower_rest _ _ _ _ _ Ht) as Ht'.
    destruct (descend_position _ _ _ _ _ _ key Ht' Hd) as (pre' & post' & HL' & Hle').
    { by apply (anchor_le l1 anc). }
    destruct (IH fuel h L' pre' dn ka post' Ht' Hndr HL' Hle')
      as (h2 & Hrun2 & Hin2 & Hout2).
    { simpl in Hfuel |- *. lia. }
    rewrite (bind_run _ _ _ _ _ Hrun2). simpl.
    exists h2. split; [done|]. split.
    + intros a Ha. rewrite addrs_cons in Ha. apply elem_of_app in Ha as [Ha|Ha].
      * rewrite Hout2 by (by apply Hdisj).
        destruct (h !! a) as [na|] eqn:Hna; [|done].
        simpl. rewrite overwrite_other; [done|]. intros Hka.
        eapply anchor_absent; [done..|].
        rewrite <- Hka. apply (list_elem_of_fmap_2 snd L (a, k na)).
        by eapply level_node_key.
      * by apply Hin2.
    + intros a Ha. apply Hout2. intros Ha'. apply Ha. rewrite addrs_cons.
      apply elem_of_app. by right.
Qed.

(** ** Allocation and splicing *)

Lemma fresh_None {N} (h : gmap nat N) : h !! fresh (dom h) = None.
Proof. apply not_elem_of_dom, is_fresh. Qed.

Lemma alloc_chain_run h hs d prev p nn :
  h !! prev = Some p →
  ∃ h', (let* newNode := alloc nn in
         let* r := chainNode prev newNode in
         ret (Some r)) (mkState h hs d)
        = Some (Some (fresh (dom h)), mkState h' hs d) ∧
    h' !! prev = Some (set_next p (Some (fresh (dom h)))) ∧
    h' !! fresh (dom h) = Some (set_next nn (next p)) ∧
    ∀ a, a ≠ prev → a ≠ fresh (dom h) → h' !! a = h !! a.
Proof.
  intros Hp. pose proof (fresh_None h) as Hfresh.
  set (a' := fresh (dom h)) in *.
  assert (prev ≠ a') as Hne by congruence.
  eexists. split.
  - unfold alloc, chainNode, bind, load, store, ret. simpl. fold a'.
    repeat first [ rewrite lookup_insert_eq
                 | rewrite lookup_insert_ne by done
                 | rewrite Hp
                 | progress simpl ].
    reflexivity.
  - split_and!.
    + by rewrite lookup_insert_eq.
    + by rewrite lookup_insert_ne, lookup_insert_eq.
    + intros a H1 H2. by rewrite !lookup_insert_ne.
Qed.

Lemma node_ok_insert_ne m b b' key val kx n :
  node_ok m b kx n → kx ≠ Some key →
  (∀ od, down_ok b kx od → down_ok b' kx od) →
  node_ok (<[key := val]> m) b' kx n.
Proof.
  intros (Hk & Hv & Hdom & Hdown) Hne Hb. split_and!; [done| | |by apply Hb].
  - rewrite Hv. destruct kx as [x|]; [simpl|done].
    rewrite lookup_insert_ne; [done|congruence].
  - intros x ->. rewrite lookup_insert_ne; [eauto|congruence].
Qed.

(** A level that is not changed by an insertion below it. *)
Lemma level_keep h h' m b b' L key val :
  level_ok h m b L → Some key ∉ L.*2 →
  (∀ a, a ∈ L.*1 → h' !! a = h !! a) →
  (∀ kx od, down_ok b kx od → down_ok b' kx od) →
  level_ok h' (<[key := val]> m) b' L.
Proof.
  intros HL Hkey Hsame Hb. eapply level_ok_mono; [done|].
  intros a kx n Hin Hn Hok. exists n. split_and!; [|done|].
  - rewrite Hsame; [done|]. by apply (list_elem_of_fmap_2 fst) in Hin.
  - eapply node_ok_insert_ne; [done| |by apply Hb].
    intros ->. apply Hkey. by apply (list_elem_of_fmap_2 snd) in Hin.
Qed.

(** Splicing a node for [key] after the anchor of a level. *)
Lemma level_insert h h' m b b' L l1 anc ka l2 n a' dn key val :
  level_ok h m b L → NoDup L.*1 →
  L = l1 ++ (anc, ka) :: l2 →
  Forall (λ x, opt_gt x.2 key = false) (l1 ++ [(anc, ka)]) →
  Forall (λ x, opt_gt x.2 key = true) l2 →
  ka ≠ Some key →
  h !! anc = Some n → a' ∉ L.*1 →
  h' !! anc = Some (set_next n (Some a')) →
  h' !! a' = Some (mkNode dn (next n) (Some key) (Some val)) →
  (∀ a, a ∈ L.*1 → a ≠ anc → h' !! a = h !! a) →
  down_ok b' (Some key) dn →
  (∀ kx od, down_ok b kx od → down_ok b' kx od) →
  level_ok h' (<[key := val]> m) b' (l1 ++ (anc, ka) :: (a', Some key) :: l2).
Proof.
  intros HL Hnd HLs Hle Hgt Hne Hn Ha' Hanc' Hnew Hsame Hdn Hb.
  pose proof (anchor_absent _ _ _ _ _ _ _ _ _ HL HLs Hle Hgt Hne) as Habs.
  destruct HL as (hd & l & HLhd & Hseg & Hsort).
  rewrite HLs in Hseg, Hsort, Hnd, Hsame, Ha', Habs.
  assert (∃ l', l1 ++ (anc, ka) :: (a', Some key) :: l2 = (hd, None) :: l') as [l' Hl'].
  { rewrite HLs in HLhd. clear -HLhd.
    destruct l1 as [|x l1]; simpl in HLhd |- *; simplify_eq; eauto. }
  exists hd, l'. split; [done|]. split.
  - apply lseg_app in Hseg as (r & Hseg1 & Hseg2).
    destruct Hseg2 as (-> & n0 & Hn0 & Hok0 & Hseg2).
    rewrite Hn in Hn0. injection Hn0 as <-.
    rewrite fmap_app, fmap_cons in Hnd. apply NoDup_app in Hnd as (_ & Hnd1 & Hnd2).
    apply NoDup_cons in Hnd2 as [Hnd2 _].
    assert (∀ x, x ∈ l1 ++ (anc, ka) :: l2 → x.2 ≠ Some key) as Hkeys.
    { intros x Hx Hk. apply Habs. rewrite <- Hk. by apply list_elem_of_fmap_2. }
    apply lseg_app. exists (Some anc). split.
    + eapply lseg_mono; [|done]. intros a kx na Hin Hna Hok. exists na.
      split_and!; [|done|].
      * rewrite Hsame; [done| |].
        -- apply (list_elem_of_fmap_2 fst) in Hin. rewrite fmap_app.
           apply elem_of_app. by left.
        -- intros ->. eapply Hnd1; [by apply (list_elem_of_fmap_2 fst) in Hin|left].
      * eapply node_ok_insert_ne; [done| |by apply Hb].
        apply (Hkeys (a, kx)). apply elem_of_app. by left.
    + simpl. split; [done|]. eexists. split; [exact Hanc'|]. split.
      { destruct Hok0 as (? & ? & ? & ?).
        eapply node_ok_insert_ne; [done|done|by apply Hb]. }
      simpl. split; [done|]. eexists. split; [exact Hnew|]. split.
      { split_and!; simpl; [done| |..|done].
        - by rewrite lookup_insert_eq.
        - intros x [= <-]. rewrite lookup_insert_eq. eauto. }
      simpl. eapply lseg_mono; [|done]. intros a kx na Hin Hna Hok. exists na.
      split_and!; [|done|].
      * rewrite Hsame; [done| |].
        -- apply (list_elem_of_fmap_2 fst) in Hin. rewrite fmap_app, fmap_cons.
           apply elem_of_app. right. by right.
        -- intros ->. apply Hnd2. by apply (list_elem_of_fmap_2 fst) in Hin.
      * eapply node_ok_insert_ne; [done| |by apply Hb].
        apply (Hkeys (a, kx)). apply elem_of_app. right. by right.
  - rewrite fmap_app, !fmap_cons. simpl. rewrite fmap_app, fmap_cons in Hsort.
    apply sorted_insert; [done|by apply (anchor_le l1 anc)|done|].
    by apply Forall_fmap.
Qed.

Lemma insert_mid_elem {A} (l1 l2 : list A) x y z :
  z ∈ l1 ++ x :: y :: l2 ↔ z = y ∨ z ∈ l1 ++ x :: l2.
Proof. rewrite !elem_of_app, !elem_of_cons. tauto. Qed.

Lemma NoDup_insert_mid {A} (l1 l2 : list A) x y :
  NoDup (l1 ++ x :: l2) → y ∉ l1 ++ x :: l2 → NoDup (l1 ++ x :: y :: l2).
Proof.
  intros Hnd Hy.
  replace (l1 ++ x :: y :: l2) with ((l1 ++ [x]) ++ y :: l2)
    by (by rewrite <- app_assoc).
  rewrite <- Permutation_middle. apply NoDup_cons.
  rewrite <- app_assoc. done.
Qed.

Lemma lhead_insert_mid (l1 l2 : level) x y :
  lhead (l1 ++ x :: y :: l2) = lhead (l1 ++ x :: l2).
Proof. by destruct l1. Qed.

Lemma promotes_le rnd n c : (promotes rnd n c ≤ n)%nat.
Proof.
  revert c. induction n as [|n IH]; intros c; simpl; [done|].
  destruct (coin (rnd c)); [|lia]. specialize (IH (S c)). lia.
Qed.

Lemma promotes_snoc rnd n c :
  promotes rnd (S n) c =
    if decide (promotes rnd n c = n)
    then (if coin (rnd (c + n)%nat) then S n else n)
    else promotes rnd n c.
Proof.
  revert c. induction n as [|n IH]; intros c.
  - simpl. rewrite Nat.add_0_r. by destruct (coin (rnd c)).
  - change (promotes rnd (S (S n)) c)
      with (if coin (rnd c) then S (promotes rnd (S n) (S c)) else O).
    rewrite IH. simpl. destruct (coin (rnd c)) eqn:Hc.
    + replace (c + S n)%nat with (S (c + n)) by lia.
      repeat case_decide; try lia; destruct (coin (rnd (S (c + n)))); lia.
    + case_decide; [lia|done].
Qed.

(** ** Upsert of a key that is absent *)

Section InsertLevel.
Variables (h h1 : gmap addr Node) (m : gmap Z Z) (key val : Z).
Variables (L L1 L1' : level) (rest1 rest1' : list level).
Hypothesis Ht : tower h m (L :: L1 :: rest1).
Hypothesis Hnd : NoDup (addrs (L :: L1 :: rest1)).
Hypothesis Ht1 : tower h1 (<[key := val]> m) (L1' :: rest1').
Hypothesis Hext : extends h (L1 :: rest1) h1 (L1' :: rest1').

Lemma level_disjoint_below a : a ∈ L.*1 → a ∉ addrs (L1' :: rest1').
Proof using Ht Hnd Hext.
  intros Ha Ha'. destruct Hext as (_ & _ & _ & Hfresh & _ & _).
  destruct (NoDup_addrs_cons _ _ Hnd) as (_ & _ & Hdisj).
  destruct (Hfresh a Ha') as [Hin|Hnone]; [by eapply Hdisj|].
  destruct (level_in_heap _ _ _ _ a (tower_level _ _ _ _ Ht) Ha) as [n Hn].
  congruence.
Qed.

Lemma level_same_below a : a ∈ L.*1 → h1 !! a = h !! a.
Proof using Ht Hnd Hext.
  intros Ha. destruct Hext as (_ & _ & Hframe & _ & _ & _). apply Hframe.
  by apply level_disjoint_below.
Qed.

Lemma down_ok_below kx od : down_ok (Some L1) kx od → down_ok (Some L1') kx od.
Proof using Hext.
  destruct Hext as (_ & _ & _ & _ & _ & Hmono).
  intros (dn & -> & Hd). exists dn. split; [done|]. by eapply Hmono.
Qed.

(** No node is added on level [L]. *)
Lemma keep_level :
  Some key ∉ L.*2 →
  tower h1 (<[key := val]> m) (L :: L1' :: rest1') ∧
  extends h (L :: L1 :: rest1) h1 (L :: L1' :: rest1').
Proof using Ht Hnd Ht1 Hext.
  intros Habs. split; [split; [|done]|].
  - eapply level_keep; [by eapply tower_level|done| |].
    + apply level_same_below.
    + apply down_ok_below.
  - pose proof Hext as (Hnd1 & Hhd1 & Hframe1 & Hfresh1 & Hold1 & Hmono1).
    destruct (NoDup_addrs_cons _ _ Hnd) as (HndL & _ & Hdisj).
    split_and!.
    + rewrite addrs_cons. apply NoDup_app. split_and!; [done| |done].
      apply level_disjoint_below.
    + rewrite !fmap_cons. rewrite !fmap_cons in Hhd1. by rewrite Hhd1.
    + intros a Ha. apply Hframe1. intros Ha'. apply Ha.
      rewrite addrs_cons. apply elem_of_app. by right.
    + intros a. rewrite !(addrs_cons L), !elem_of_app. intros [Ha|Ha]; [by left; left|].
      destruct (Hfresh1 a Ha); [left; by right|by right].
    + intros a. rewrite !(addrs_cons L), !elem_of_app. intros [Ha|Ha]; [by left|].
      right. by apply Hold1.
    + simpl. by intros ? ? [= <-] [= <-].
Qed.

(** A node for [key] is spliced in on level [L], on top of [child]. *)
Lemma insert_level h2 l1 anc ka l2 n a' child :
  L = l1 ++ (anc, ka) :: l2 →
  Forall (λ x, opt_gt x.2 key = false) (l1 ++ [(anc, ka)]) →
  Forall (λ x, opt_gt x.2 key = true) l2 →
  ka ≠ Some key →
  (child, Some key) ∈ L1' →
  h1 !! anc = Some n → h1 !! a' = None →
  h2 !! anc = Some (set_next n (Some a')) →
  h2 !! a' = Some (mkNode (Some child) (next n) (Some key) (Some val)) →
  (∀ a, a ≠ anc → a ≠ a' → h2 !! a = h1 !! a) →
  tower h2 (<[key := val]> m) ((l1 ++ (anc, ka) :: (a', Some key) :: l2) :: L1' :: rest1') ∧
  extends h (L :: L1 :: rest1) h2
    ((l1 ++ (anc, ka) :: (a', Some key) :: l2) :: L1' :: rest1').
Proof using Ht Hnd Ht1 Hext.
  intros HL Hle Hgt Hne Hchild Hn1 Hfresh Hanc2 Hnew2 Hother.
  pose proof Hext as (Hnd1 & Hhd1 & Hframe1 & Hfresh1 & Hold1 & Hmono1).
  destruct (NoDup_addrs_cons _ _ Hnd) as (HndL & _ & Hdisj).
  assert (anc ∈ L.*1) as Hanc.
  { rewrite HL, fmap_app, fmap_cons. apply elem_of_app. right. left. }
  assert (a' ∉ L.*1) as Ha'L.
  { intros Ha. destruct (level_in_heap _ _ _ _ a' (tower_level _ _ _ _ Ht) Ha) as [x Hx].
    rewrite <- level_same_below in Hx by done. congruence. }
  assert (a' ∉ addrs (L1' :: rest1')) as Ha'r.
  { intros Ha. destruct (tower_in_heap _ _ _ a' Ht1 Ha) as [x Hx]. congruence. }
  assert (∀ a, a ∈ (l1 ++ (anc, ka) :: (a', Some key) :: l2).*1 ↔ a = a' ∨ a ∈ L.*1)
    as Hmem.
  { intros a. rewrite HL, !fmap_app, !fmap_cons. simpl. apply insert_mid_elem. }
  split; [split|].
  - apply (level_insert h h2 m (Some L1) (Some L1') L l1 anc ka l2 n a' (Some child));
      try done.
    + apply (tower_level _ _ _ _ Ht).
    + rewrite <- level_same_below; done.
    + intros a Ha Hnea. rewrite Hother; [by apply level_same_below|done|].
      intros ->. done.
    + simpl. eauto.
    + apply down_ok_below.
  - eapply tower_frame; [done|]. intros a Ha. apply Hother.
    + intros ->. by eapply level_disjoint_below.
    + intros ->. done.
  - split_and!.
    + rewrite addrs_cons. apply NoDup_app. split_and!; [| |done].
      * rewrite !fmap_app, !fmap_cons. simpl. apply NoDup_insert_mid.
        -- by rewrite HL, fmap_app, fmap_cons in HndL.
        -- by rewrite HL, fmap_app, fmap_cons in Ha'L.
      * intros a [->|Ha]%Hmem; [done|]. by apply level_disjoint_below.
    + rewrite !fmap_cons. rewrite !fmap_cons in Hhd1.
      by rewrite Hhd1, lhead_insert_mid, HL.
    + intros a Ha. rewrite addrs_cons, elem_of_app, Hmem in Ha.
      rewrite Hother.
      * apply Hframe1. tauto.
      * intros ->. tauto.
      * intros ->. tauto.
    + intros a. rewrite addrs_cons, elem_of_app, Hmem.
      intros [[->|Ha]|Ha].
      * right. rewrite <- Hframe1; done.
      * left. rewrite addrs_cons. apply elem_of_app. by left.
      * destruct (Hfresh1 a Ha); [left|by right].
        rewrite addrs_cons. apply elem_of_app. by right.
    + intros a. rewrite (addrs_cons L), (addrs_cons (_ ++ _)), !elem_of_app, Hmem.
      intros [Ha|Ha]; [tauto|]. right. by apply Hold1.
    + simpl. intros ? ? [= <-] [= <-] x. rewrite HL. rewrite insert_mid_elem. tauto.
Qed.
End InsertLevel.

Lemma upsertRec_insert rnd hs m key val :
  m !! key = None →
  ∀ rest fuel h d L pre cur kc post,
    tower h m (L :: rest) → NoDup (addrs (L :: rest)) →
    L = pre ++ (cur, kc) :: post →
    Forall (λ x, opt_gt x.2 key = false) (pre ++ [(cur, kc)]) →
    (length (L :: rest) ≤ fuel)%nat →
    ∃ r h' L' rest',
      upsertRec rnd fuel (Some cur) key val (mkState h hs d)
        = Some (r, mkState h' hs
                     (d + min (length rest) (S (promotes rnd (length rest) d)))) ∧
      tower h' (<[key := val]> m) (L' :: rest') ∧
      extends h (L :: rest) h' (L' :: rest') ∧
      match r with
      | Some a' => (a', Some key) ∈ L' ∧ promotes rnd (length rest) d = length rest
      | None => (promotes rnd (length rest) d < length rest)%nat
      end ∧
      length (addrs (L' :: rest'))
        = (length (addrs (L :: rest)) + S (promotes rnd (length rest) d))%nat ∧
      (∀ i Li, (L' :: rest') !! i = Some Li →
         Some key ∈ Li.*2 ↔ (length rest - promotes rnd (length rest) d ≤ i)%nat).
Proof.
  intros Hkey.
  induction rest as [|L1 rest1 IH]; intros fuel h d L pre cur kc post Ht Hnd HL Hle Hfuel;
    (destruct fuel as [|fuel]; [simpl in Hfuel; lia|]);
    pose proof (tower_level _ _ _ _ Ht) as HLok;
    pose proof (NoDup_addrs_cons _ _ Hnd) as (HndL & Hndr & Hdisj);
    (destruct (findInLevel_level h hs d m _ L pre cur kc post key HLok)
      as (l1 & anc & ka & l2 & HL2 & Hle2 & Hgt2 & Hrun);
      [by eapply level_length|done|done|]);
    destruct (anchor_lookup _ _ _ _ _ _ _ _ HLok HL2) as (n & Hn & Hok);
    assert ((anc, ka) ∈ L) as Hanc by (rewrite HL2; apply elem_of_app; right; left);
    assert (anc ∈ L.*1) as Hanc1 by (by apply (list_elem_of_fmap_2 fst) in Hanc);
    cbn [upsertRec]; rewrite (bind_run _ _ _ _ _ Hrun);
    rewrite (bind_run _ _ _ n (mkState h hs d)) by (by apply load_run);
    destruct Hok as (Hk & Hv & Hdom & Hdown); rewrite Hk;
    (assert (ka ≠ Some key) as Hne
       by (intros ->; destruct (Hdom key eq_refl) as [x Hx]; congruence));
    rewrite (proj2 (opt_eq_false ka key) Hne);
    pose proof (anchor_absent _ _ _ _ _ _ _ _ _ HLok HL2 Hle2 Hgt2 Hne) as Habs.
  - (* the bottom level: the leaf is always inserted *)
    simpl in Hdown. rewrite Hdown.
    destruct (alloc_chain_run h hs d anc n (mkNode None None (Some key) (Some val)) Hn)
      as (h' & Hrun' & Hanc' & Hnew' & Hother).
    pose proof (fresh_None h) as Hfresh.
    set (a' := fresh (dom h)) in *.
    assert (a' ∉ L.*1) as Ha'L.
    { intros Ha. destruct (level_in_heap _ _ _ _ a' HLok Ha) as [x Hx]. congruence. }
    assert (∀ a, a ∈ (l1 ++ (anc, ka) :: (a', Some key) :: l2).*1 ↔ a = a' ∨ a ∈ L.*1)
      as Hmem.
    { intros a. rewrite HL2, !fmap_app, !fmap_cons. simpl. apply insert_mid_elem. }
    exists (Some a'), h', (l1 ++ (anc, ka) :: (a', Some key) :: l2), [].
    simpl length. simpl promotes. rewrite Nat.add_0_r.
    assert (length (l1 ++ (anc, ka) :: (a', Some key) :: l2) = S (length L)) as HlenL.
    { rewrite HL2, !length_app. simpl. lia. }
    split; [exact Hrun'|]. split; [split|split; [|split; [|split]]].
    + apply (level_insert h h' m None None L l1 anc ka l2 n a' None); try done.
      intros a Ha Hnea. apply Hother; [done|]. intros ->. done.
    + intros x Hx. destruct (decide (x = key)) as [->|Hnex].
      * rewrite !fmap_app, !fmap_cons. simpl. apply insert_mid_elem. by left.
      * rewrite lookup_insert_ne in Hx by done. destruct Ht as [_ Hbot].
        specialize (Hbot x Hx). rewrite HL2, fmap_app, fmap_cons in Hbot.
        rewrite !fmap_app, !fmap_cons. simpl. apply insert_mid_elem. by right.
    + split_and!.
      * rewrite addrs_cons, app_nil_r, !fmap_app, !fmap_cons. simpl.
        apply NoDup_insert_mid.
        -- by rewrite HL2, fmap_app, fmap_cons in HndL.
        -- by rewrite HL2, fmap_app, fmap_cons in Ha'L.
      * simpl. by rewrite lhead_insert_mid, HL2.
      * intros a. rewrite addrs_cons, app_nil_r, Hmem. intros Ha.
        apply Hother; [intros ->|intros ->]; tauto.
      * intros a. rewrite !addrs_cons, !app_nil_r, Hmem.
        intros [->|Ha]; [by right|by left].
      * intros a. rewrite !addrs_cons, !app_nil_r, Hmem. tauto.
      * simpl. intros ? ? [= <-] [= <-] x. rewrite HL2, insert_mid_elem. tauto.
    + split; [|done]. apply insert_mid_elem. by left.
    + rewrite !addrs_cons, !length_app, !length_fmap, HlenL. simpl. lia.
    + intros i Li Hi. destruct i as [|i]; [|done]. simpl in Hi. injection Hi as <-.
      split; [lia|]. intros _.
      rewrite !fmap_app, !fmap_cons. simpl. apply insert_mid_elem. by left.
  - (* an upper level: insert below, then toss the coin *)
    simpl in Hdown. destruct Hdown as (dn & Hdn & Hd). rewrite Hdn.
    pose proof (tower_rest _ _ _ _ _ Ht) as Ht'.
    destruct (descend_position _ _ _ _ _ _ key Ht' Hd) as (pre' & post' & HL' & Hle').
    { by apply (anchor_le l1 anc). }
    destruct (IH fuel h d L1 pre' dn ka post' Ht' Hndr HL' Hle')
      as (r1 & h1 & L1' & rest1' & Hrun1 & Ht1 & Hext1 & Hr1 & Hcnt1 & Hcol1).
    { simpl in Hfuel |- *. lia. }
    rewrite (bind_run _ _ _ _ _ Hrun1).
    pose proof (promotes_le rnd (length rest1) d) as Hple.
    pose proof (promotes_snoc rnd (length rest1) d) as Hsnoc.
    assert (length rest1' = length rest1) as Hlen.
    { destruct Hext1 as (_ & Hhd & _). apply (f_equal length) in Hhd.
      rewrite !length_fmap in Hhd. simpl in Hhd. lia. }
    simpl length.
    destruct r1 as [child|].
    + destruct Hr1 as [Hchild Hfull].
      rewrite Hfull, decide_True in Hsnoc by done.
      rewrite Hfull, Nat.min_l by lia.
      rewrite (bind_run _ _ _ (rnd (d + length rest1)%nat)
                 (mkState h1 hs (S (d + length rest1)))) by done.
      destruct (coin (rnd (d + length rest1)%nat)) eqn:Hcoin.
      * (* promoted *)
        assert (h1 !! anc = Some n) as Hn1.
        { by rewrite (level_same_below h h1 m L L1 L1' rest1 rest1' Ht Hnd Hext1). }
        destruct (alloc_chain_run h1 hs (S (d + length rest1)) anc n
                    (mkNode (Some child) None (Some key) (Some val)) Hn1)
          as (h2 & Hrun2 & Hanc2 & Hnew2 & Hother2).
        pose proof (fresh_None h1) as Hfresh.
        set (a' := fresh (dom h1)) in *.
        destruct (insert_level h h1 m key val L L1 L1' rest1 rest1' Ht Hnd Ht1 Hext1
                    h2 l1 anc ka l2 n a' child) as [Ht2 Hext2]; try done.
        exists (Some a'), h2, (l1 ++ (anc, ka) :: (a', Some key) :: l2), (L1' :: rest1').
        rewrite Hsnoc, Nat.min_l by lia.
        replace (d + S (length rest1))%nat with (S (d + length rest1)) by lia.
        split; [exact Hrun2|]. split; [done|]. split; [done|]. split; [|split].
        -- split; [|done]. apply insert_mid_elem. by left.
        -- rewrite (addrs_cons (_ ++ _)), (addrs_cons L), !length_app, !length_fmap.
           rewrite Hcnt1, Hfull, HL2, !length_app. simpl. lia.
        -- intros i Li Hi. split; [lia|]. intros _. destruct i as [|i].
           ++ simpl in Hi. injection Hi as <-.
              rewrite !fmap_app, !fmap_cons. simpl. apply insert_mid_elem. by left.
           ++ apply (Hcol1 i Li Hi). lia.
      * (* not promoted *)
        destruct (keep_level h h1 m key val L L1 L1' rest1 rest1' Ht Hnd Ht1 Hext1 Habs)
          as [Ht2 Hext2].
        exists None, h1, L, (L1' :: rest1').
        rewrite Hsnoc, Nat.min_r by lia.
        replace (d + S (length rest1))%nat with (S (d + length rest1)) by lia.
        split; [done|]. split; [done|]. split; [done|]. split; [lia|]. split.
        { rewrite !(addrs_cons L), !length_app, Hcnt1, Hfull. lia. }
        intros i Li Hi. destruct i as [|i].
        -- simpl in Hi. injection Hi as <-. split; [done|lia].
        -- split; [lia|]. intros _. apply (Hcol1 i Li Hi). lia.
    + (* the column stopped below *)
      rewrite decide_False in Hsnoc by lia.
      destruct (keep_level h h1 m key val L L1 L1' rest1 rest1' Ht Hnd Ht1 Hext1 Habs)
        as [Ht2 Hext2].
      exists None, h1, L, (L1' :: rest1').
      rewrite Hsnoc, !Nat.min_r by lia.
      split; [done|]. split; [done|]. split; [done|]. split; [lia|]. split.
      { rewrite !(addrs_cons L), !length_app, Hcnt1. lia. }
      intros i Li Hi. destruct i as [|i].
      * simpl in Hi. injection Hi as <-. split; [done|lia].
      * simpl in Hi. rewrite (Hcol1 i Li Hi). lia.
Qed.

(** ** The public operations on a represented state *)

Lemma Rep_top s m ls :
  Rep s m ls → ∃ hd l rest, ls = ((hd, None) :: l) :: rest ∧ heads s !! 0%nat = Some hd.
Proof.
  intros (Ht & _ & Hhd & _). destruct ls as [|L rest]; [done|].
  destruct (tower_level _ _ _ _ Ht) as (hd & l & -> & _).
  exists hd, l, rest. split; [done|]. by rewrite Hhd.
Qed.

Lemma find_spec s m ls key : Rep s m ls → find key s = Some (m !! key, s).
Proof.
  intros HR. destruct (Rep_top _ _ _ HR) as (hd & l & rest & -> & Hhd).
  destruct HR as (Ht & Hnd & _ & _). destruct s as [h hs d].
  cbn [heap heads draws] in *.
  unfold find. rewrite (bind_run _ _ _ hd (mkState h hs d))
    by (unfold heads_at; simpl; by rewrite Hhd).
  destruct (findInLevel_level h hs d m _ ((hd, None) :: l) [] hd None l key
              (tower_level _ _ _ _ Ht))
    as (l1 & anc & ka & l2 & HL2 & Hle2 & Hgt2 & Hrun); try done.
  { eapply level_length; [apply (tower_level _ _ _ _ Ht)|done]. }
  { by constructor. }
  rewrite (bind_run _ _ _ _ _ Hrun).
  rewrite (bind_run _ _ _ (size h) (mkState h hs d)) by done.
  eapply find_loop_spec; try done. by eapply tower_length.
Qed.

Lemma upsert_present rnd s m ls key val :
  Rep s m ls → is_Some (m !! key) →
  ∃ s', upsert rnd key val s = Some (tt, s') ∧
    Rep s' (<[key := val]> m) ls ∧
    heap s' = overwrite key val <$> heap s ∧
    heads s' = heads s ∧ draws s' = draws s.
Proof.
  intros HR Hkey. destruct (Rep_top _ _ _ HR) as (hd & l & rest & -> & Hhd).
  destruct HR as (Ht & Hnd & Hheads & Hall). destruct s as [h hs d].
  cbn [heap heads draws] in *.
  destruct (upsertRec_update rnd hs d m key val Hkey rest (size h) h
              ((hd, None) :: l) [] hd None l Ht Hnd)
    as (h' & Hrun & Hin & Hout); try done.
  { by constructor. }
  { by eapply tower_length. }
  exists (mkState h' hs d). unfold upsert.
  rewrite (bind_run _ _ _ hd (mkState h hs d))
    by (unfold heads_at; simpl; by rewrite Hhd).
  rewrite (bind_run _ _ _ (size h) (mkState h hs d)) by done.
  rewrite (bind_run _ _ _ _ _ Hrun). split; [done|].
  assert (∀ a, h' !! a = overwrite key val <$> h !! a) as Hpt.
  { intros a. destruct (decide (a ∈ addrs (((hd, None) :: l) :: rest))) as [Ha|Ha].
    - by apply Hin.
    - rewrite Hout by done. destruct (h !! a) as [n|] eqn:Hn; [|done].
      exfalso. apply Ha, Hall. by rewrite Hn. }
  split_and!; cbn [heap heads draws]; try done.
  - split_and!; cbn [heap heads draws]; try done.
    + eapply tower_overwrite; [done..|]. intros a _. apply Hpt.
    + intros a. rewrite Hpt. intros [n Hn]. apply Hall.
      destruct (h !! a); [eauto|done].
  - apply map_eq. intros a. by rewrite lookup_fmap.
Qed.

Lemma upsert_absent rnd s m ls key val :
  Rep s m ls → m !! key = None →
  ∃ s' ls', upsert rnd key val s = Some (tt, s') ∧
    Rep s' (<[key := val]> m) ls' ∧
    extends (heap s) ls (heap s') ls' ∧
    heads s' = heads s ∧
    draws s' = (draws s + min (length ls - 1)
                            (S (promotes rnd (length ls - 1) (draws s))))%nat ∧
    length (addrs ls')
      = (length (addrs ls) + S (promotes rnd (length ls - 1) (draws s)))%nat ∧
    (∀ i Li, ls' !! i = Some Li →
       Some key ∈ Li.*2 ↔
       (length ls - 1 - promotes rnd (length ls - 1) (draws s) ≤ i)%nat).
Proof.
  intros HR Hkey. destruct (Rep_top _ _ _ HR) as (hd & l & rest & -> & Hhd).
  destruct HR as (Ht & Hnd & Hheads & Hall). destruct s as [h hs d].
  cbn [heap heads draws] in *.
  destruct (upsertRec_insert rnd hs m key val Hkey rest (size h) h d
              ((hd, None) :: l) [] hd None l Ht Hnd)
    as (r & h' & L' & rest' & Hrun & Ht' & Hext & _ & Hcnt & Hcol); try done.
  { by constructor. }
  { by eapply tower_length. }
  replace (length (((hd, None) :: l) :: rest) - 1)%nat with (length rest)
    by (simpl; lia).
  eexists (mkState h' hs _), (L' :: rest'). unfold upsert.
  rewrite (bind_run _ _ _ hd (mkState h hs d))
    by (unfold heads_at; simpl; by rewrite Hhd).
  rewrite (bind_run _ _ _ (size h) (mkState h hs d)) by done.
  rewrite (bind_run _ _ _ _ _ Hrun). split; [done|].
  pose proof Hext as (Hnd' & Hhd' & Hframe & Hfresh & Hold & Hmono).
  split_and!; cbn [heap heads draws]; try done.
  split_and!; cbn [heap heads draws]; try done.
  - by rewrite Hhd'.
  - intros a Ha. destruct (decide (a ∈ addrs (L' :: rest'))) as [|Hn]; [done|].
    rewrite Hframe in Ha by done. by apply Hold, Hall.
Qed.

(** ** Construction *)

Lemma tower_cons_ne h m L rest :
  rest ≠ [] → tower h m (L :: rest) ↔ level_ok h m (head rest) L ∧ tower h m rest.
Proof. by destruct rest. Qed.

Lemma addrs_app ls1 ls2 : addrs (ls1 ++ ls2) = addrs ls1 ++ addrs ls2.
Proof.
  induction ls1 as [|L ls1 IH]; [done|].
  by rewrite <- app_comm_cons, !addrs_cons, IH, app_assoc.
Qed.

Lemma sentinel_level h m b a n :
  h !! a = Some n → k n = None → v n = None → next n = None →
  down_ok b None (down n) →
  level_ok h m b [(a, None)].
Proof.
  intros Hn Hk Hv Hnext Hdown. exists a, []. split_and!; [done| |].
  - simpl. split; [done|]. exists n. split_and!; try done.
  - repeat constructor.
Qed.

Lemma tower_snoc h ls p pn a :
  tower h ∅ (ls ++ [[(p, None)]]) →
  NoDup (addrs (ls ++ [[(p, None)]])) →
  h !! a = None → h !! p = Some pn →
  tower (<[p := set_down pn (Some a)]> (<[a := mkNode None None None None]> h)) ∅
    (ls ++ [[(p, None)]; [(a, None)]]).
Proof.
  intros Ht Hnd Ha Hp. assert (p ≠ a) as Hpa by congruence.
  induction ls as [|L0 ls IH].
  - simpl in Ht |- *. destruct Ht as [(hd & l & [= <- <-] & Hseg & _) _].
    destruct Hseg as (_ & n & Hn & (Hk & Hv & _ & _) & Hnext). simpl in Hnext.
    rewrite Hp in Hn. injection Hn as <-.
    split; [|split].
    + eapply sentinel_level; [apply lookup_insert_eq|done..|].
      exists a. split; [reflexivity|]. apply list_elem_of_here.
    + eapply sentinel_level;
        [by rewrite lookup_insert_ne, lookup_insert_eq|done..].
    + intros x [y Hy]. by rewrite lookup_empty in Hy.
  - rewrite <- !app_comm_cons in *.
    apply tower_cons_ne in Ht as [HL0 Ht]; [|by destruct ls].
    apply NoDup_addrs_cons in Hnd as (_ & Hnd & Hdisj).
    apply tower_cons_ne; [by destruct ls|]. split; [|by apply IH].
    replace (head (ls ++ [[(p, None)]; [(a, None)]]))
      with (head (ls ++ [[(p, None)]])) by (by destruct ls).
    eapply level_ok_mono; [done|]. intros x kx n Hin Hn Hok. exists n.
    split_and!; try done. apply (list_elem_of_fmap_2 fst) in Hin. simpl in Hin.
    rewrite !lookup_insert_ne; [done| |].
    + intros <-. congruence.
    + intros <-. eapply Hdisj; [done|]. rewrite addrs_app. apply elem_of_app.
      right. left.
Qed.

Lemma ctor_loop_spec :
  ∀ n s ls p,
    Rep s ∅ (ls ++ [[(p, None)]]) →
    ∃ s' ls', ctor_loop n (Some p) s = Some (tt, s') ∧ Rep s' ∅ ls' ∧
      length ls' = (length ls + 1 + n)%nat ∧ draws s' = draws s.
Proof.
  induction n as [|n IH]; intros s ls p HR.
  - exists s, (ls ++ [[(p, None)]]). split_and!; try done.
    rewrite length_app. simpl. lia.
  - destruct HR as (Ht & Hnd & Hheads & Hall). destruct s as [h hs d].
    cbn [heap heads draws] in *.
    pose proof (fresh_None h) as Hfresh. set (a := fresh (dom h)) in *.
    assert (p ∈ addrs (ls ++ [[(p, None)]])) as Hpin.
    { rewrite addrs_app. apply elem_of_app. right. left. }
    destruct (tower_in_heap _ _ _ p Ht Hpin) as [pn Hp].
    assert (p ≠ a) as Hpa by congruence.
    destruct (IH (mkState (<[p := set_down pn (Some a)]>
                            (<[a := mkNode None None None None]> h))
                          (hs ++ [a]) d)
                 (ls ++ [[(p, None)]]) a) as (s' & ls' & Hrun & HR' & Hlen & Hd).
    { split_and!; cbn [heap heads draws].
      - rewrite <- app_assoc. by apply tower_snoc.
      - rewrite addrs_app. apply NoDup_app. split_and!; [done| |].
        + intros x Hx [->|Hnil%elem_of_nil]%elem_of_cons; [|done].
          destruct (tower_in_heap _ _ _ a Ht Hx) as [y Hy]. congruence.
        + apply NoDup_singleton.
      - by rewrite fmap_app, Hheads.
      - intros x. rewrite (addrs_app (ls ++ _)), elem_of_app.
        destruct (decide (x = a)) as [->|Hxa]; [intros _; right; left|].
        destruct (decide (x = p)) as [->|Hxp]; [by left|].
        rewrite !lookup_insert_ne by done. intros Hx. left. by apply Hall. }
    exists s', ls'. split_and!; try done.
    + rewrite <- Hrun. cbn [ctor_loop].
      unfold alloc, bind, load, store, get_heads, set_heads, ret.
      cbn [heap heads draws]. fold a.
      rewrite lookup_insert_ne, Hp by done. cbn [heap heads draws].
      by rewrite lookup_insert_ne, Hp by done.
    + rewrite Hlen, length_app. simpl. lia.
Qed.

Lemma ctor_spec height :
  (1 ≤ height)%nat →
  ∃ s ls, ctor height empty = Some (tt, s) ∧ Rep s ∅ ls ∧
    length ls = height ∧ draws s = O.
Proof.
  intros Hh. destruct height as [|n]; [lia|].
  set (a := fresh (dom (∅ : gmap nat Node))).
  destruct (ctor_loop_spec n
              (mkState (<[a := mkNode None None None None]> ∅) [a] 0) [] a)
    as (s' & ls' & Hrun & HR' & Hlen & Hd).
  { split_and!; cbn [heap heads draws].
    - split.
      + eapply sentinel_level; [apply lookup_insert_eq|done..].
      + intros x [y Hy]. by rewrite lookup_empty in Hy.
    - unfold addrs. simpl. apply NoDup_singleton.
    - done.
    - intros x. destruct (decide (x = a)) as [->|Hxa]; [intros _; left|].
      rewrite lookup_insert_ne, lookup_empty by done. by intros [? ?]. }
  exists s', ls'. split_and!; done.
Qed.

(** ** Sequences of upserts *)

Lemma Rep_size s m ls : Rep s m ls → size (heap s) = length (addrs ls).
Proof.
  intros (Ht & Hnd & _ & Hall).
  rewrite <- size_dom, <- (size_list_to_set (C := gset nat) _ Hnd). f_equal.
  apply set_eq. intros a. rewrite elem_of_dom, elem_of_list_to_set. split; [apply Hall|].
  by eapply tower_in_heap.
Qed.

Lemma Rep_heads_length s m ls : Rep s m ls → length (heads s) = length ls.
Proof. intros (_ & _ & -> & _). by rewrite length_fmap. Qed.

Lemma extends_length h ls h' ls' : extends h ls h' ls' → length ls' = length ls.
Proof.
  intros (_ & Hhd & _). apply (f_equal length) in Hhd. by rewrite !length_fmap in Hhd.
Qed.

(** Every upsert keeps the representation and maps the key to the value. *)
Lemma upsert_Rep rnd s m ls key val :
  Rep s m ls →
  ∃ s' ls', upsert rnd key val s = Some (tt, s') ∧
    Rep s' (<[key := val]> m) ls' ∧ length ls' = length ls ∧ heads s' = heads s.
Proof.
  intros HR. destruct (m !! key) as [x|] eqn:Hm.
  - destruct (upsert_present rnd s m ls key val HR)
      as (s' & Hrun & HR' & _ & Hheads & _); [by rewrite Hm|]. by exists s', ls.
  - destruct (upsert_absent rnd s m ls key val HR Hm)
      as (s' & ls' & Hrun & HR' & Hext & Hheads & _). exists s', ls'.
    split_and!; [done..| |done]. by eapply extends_length.
Qed.

Lemma upserts_spec rnd ops :
  ∀ s m ls, Rep s m ls →
    ∃ s' ls', upserts rnd ops s = Some (tt, s') ∧
      Rep s' (foldl (λ m kv, <[kv.1 := kv.2]> m) m ops) ls' ∧
      length ls' = length ls ∧ heads s' = heads s.
Proof.
  induction ops as [|[key val] ops IH]; intros s m ls HR.
  - by exists s, ls.
  - destruct (upsert_Rep rnd s m ls key val HR)
      as (s1 & ls1 & Hrun1 & HR1 & Hlen1 & Hhd1).
    destruct (IH s1 _ ls1 HR1) as (s' & ls' & Hrun & HR' & Hlen & Hhd).
    exists s', ls'. split_and!; [|done|congruence..].
    cbn [upserts]. by rewrite (bind_run _ _ _ _ _ Hrun1).
Qed.

Lemma foldl_insert_lookup ops :
  ∀ (m : gmap Z Z) key,
    foldl (λ m kv, <[kv.1 := kv.2]> m) m ops !! key =
      match last_value ops key with
      | Some x => Some x
      | None => m !! key
      end.
Proof.
  induction ops as [|[k' v'] ops IH]; intros m key; [done|].
  cbn [foldl last_value]. rewrite IH. destruct (last_value ops key); [done|]. simpl.
  destruct (Z.eqb_spec k' key) as [->|Hne].
  - by rewrite lookup_insert_eq.
  - by rewrite lookup_insert_ne.
Qed.

Lemma model_lookup ops key : model ops !! key = last_value ops key.
Proof.
  unfold model. rewrite foldl_insert_lookup, lookup_empty.
  by destruct (last_value ops key).
Qed.

Lemma last_value_elem ops key : is_Some (last_value ops key) ↔ key ∈ ops.*1.
Proof.
  induction ops as [|[k' v'] ops IH]; simpl.
  - split; [by intros [? ?]|by intros ?%elem_of_nil].
  - rewrite elem_of_cons, <- IH. destruct (last_value ops key) as [x|].
    + split; eauto.
    + destruct (Z.eqb_spec k' key) as [->|Hne].
      * split; eauto.
      * split; [by intros [? ?]|]. intros [?|[? ?]]; congruence.
Qed.

Lemma run_spec rnd height ops :
  (1 ≤ height)%nat →
  ∃ s ls, run rnd height ops = Some s ∧ Rep s (model ops) ls ∧ length ls = height.
Proof.
  intros Hh. destruct (ctor_spec height Hh) as (s0 & ls0 & Hrun0 & HR0 & Hlen0 & _).
  destruct (upserts_spec rnd ops s0 ∅ ls0 HR0) as (s & ls & Hrun & HR & Hlen & _).
  exists s, ls. split_and!; [|done|congruence].
  unfold run. by rewrite (bind_run _ _ _ _ _ Hrun0), Hrun.
Qed.

Lemma last_value_snoc ops key val : last_value (ops ++ [(key, val)]) key = Some val.
Proof.
  induction ops as [|[k' v'] ops IH]; simpl.
  - by rewrite Z.eqb_refl.
  - by rewrite IH.
Qed.

(** ** From the representation to what the program can observe *)

Lemma lseg_reach h m b x l a :
  lseg h m b (Some x) l None → a ∈ l.*1 → rtc (next_of h) x a.
Proof.
  revert x. induction l as [|[a0 k0] l IH]; intros x Hseg Hin.
  { by apply elem_of_nil in Hin. }
  destruct Hseg as ([= <-] & n & Hn & _ & Hseg).
  rewrite fmap_cons in Hin. simpl in Hin.
  apply elem_of_cons in Hin as [->|Hin]; [done|].
  destruct l as [|[a1 k1] l]; [by apply elem_of_nil in Hin|].
  pose proof Hseg as (Hnext & _). eapply rtc_l.
  - exists n. split; [done|exact Hnext].
  - apply IH; [|done]. by rewrite <- Hnext.
Qed.

Lemma lseg_adjacent h m b p l a n b' :
  lseg h m b p l None → NoDup l.*1 → a ∈ l.*1 → h !! a = Some n → next n = Some b' →
  ∃ l1 ka kb l2, l = l1 ++ (a, ka) :: (b', kb) :: l2.
Proof.
  revert p. induction l as [|[a0 k0] l IH]; intros p Hseg Hnd Hin Hn Hnext.
  { by apply elem_of_nil in Hin. }
  destruct Hseg as (-> & n0 & Hn0 & _ & Hseg).
  rewrite fmap_cons in Hin, Hnd. simpl in Hin, Hnd.
  apply NoDup_cons in Hnd as [Hnotin Hnd].
  apply elem_of_cons in Hin as [->|Hin].
  - rewrite Hn in Hn0. injection Hn0 as <-. rewrite Hnext in Hseg.
    destruct l as [|[a1 k1] l]; [done|]. destruct Hseg as ([= <-] & _).
    by exists [], k0, k1, l.
  - destruct (IH _ Hseg Hnd Hin Hn Hnext) as (l1 & ka & kb & l2 & ->).
    by exists ((a0, k0) :: l1), ka, kb, l2.
Qed.

Lemma lseg_NoDup h m b p l q :
  lseg h m b p l q → StronglySorted klt l.*2 → NoDup l.*1.
Proof.
  revert p. induction l as [|[a ka] L IH]; intros p Hseg Hs; [constructor|].
  destruct Hseg as (-> & n & Hn & Hok & Hseg).
  change (StronglySorted klt (ka :: L.*2)) in Hs. change (NoDup (a :: L.*1)).
  apply StronglySorted_cons in Hs as [Hall Hs]. apply NoDup_cons. split; [|by eapply IH].
  intros Hin. apply list_elem_of_fmap in Hin as ([a' ka'] & Heq & Hin). simpl in Heq.
  subst a'. destruct (lseg_lookup _ _ _ _ _ _ _ _ Hseg Hin) as (n' & Hn' & Hk' & _).
  rewrite Hn in Hn'. injection Hn' as <-. destruct Hok as (Hk & _).
  rewrite Hk in Hk'. subst ka'. rewrite Forall_forall in Hall.
  assert (klt ka ka) as Hirr.
  { apply Hall. by apply (list_elem_of_fmap_2 snd) in Hin. }
  destruct ka; simpl in Hirr; [lia|done].
Qed.

Lemma level_NoDup h m b L : level_ok h m b L → NoDup L.*1.
Proof. intros (hd & l & _ & Hseg & Hs). by eapply lseg_NoDup. Qed.

Lemma on_level_elem h m b L a :
  level_ok h m b L → on_level h (lhead L) a ↔ a ∈ L.*1.
Proof.
  intros HL. pose proof (level_NoDup _ _ _ _ HL) as Hnd.
  destruct HL as (hd & l & -> & Hseg & _). simpl lhead. split.
  - assert (∀ x, rtc (next_of h) x a → x ∈ ((hd, None) :: l).*1 →
                 a ∈ ((hd, None) :: l).*1) as Hclosed.
    { intros x Hrtc. induction Hrtc as [|x0 y z (n & Hn & Hnext) _ IH]; [done|].
      intros Hx. apply IH.
      destruct (lseg_adjacent _ _ _ _ _ _ _ _ Hseg Hnd Hx Hn Hnext)
        as (l1 & ka & kb & l2 & ->).
      rewrite fmap_app, !fmap_cons. apply elem_of_app. right. right. left. }
    intros Hrtc. apply (Hclosed hd Hrtc). rewrite fmap_cons. left.
  - by eapply lseg_reach.
Qed.

Lemma appears_iff h m b L key :
  level_ok h m b L → appears h (lhead L) key ↔ Some key ∈ L.*2.
Proof.
  intros HL. split.
  - intros (a & n & Ha & Hn & Hk). rewrite <- Hk.
    apply (on_level_elem _ _ _ _ _ HL) in Ha.
    apply (list_elem_of_fmap_2 snd L (a, k n)). by eapply level_node_key.
  - intros Hin. apply list_elem_of_fmap in Hin as ([a ka] & Heq & Hin). simpl in Heq.
    subst ka. pose proof HL as (hd & l & _ & Hseg & _).
    destruct (lseg_lookup _ _ _ _ _ _ _ _ Hseg Hin) as (n & Hn & Hk & _).
    exists a, n. split_and!; [|done..]. apply (on_level_elem _ _ _ _ _ HL).
    by apply (list_elem_of_fmap_2 fst) in Hin.
Qed.

Lemma tower_lookup h m ls i L :
  tower h m ls → ls !! i = Some L → level_ok h m (ls !! S i) L.
Proof.
  revert i. induction ls as [|L0 rest IH]; intros i Ht Hi; [done|].
  destruct i as [|i].
  - injection Hi as <-. destruct Ht as [HL _]. by destruct rest.
  - simpl in Hi. destruct rest as [|L1 rest]; [done|]. apply (IH i); [|done].
    by eapply tower_rest.
Qed.

Lemma Rep_level s m ls i hd :
  Rep s m ls → heads s !! i = Some hd →
  ∃ L, ls !! i = Some L ∧ lhead L = hd ∧ level_ok (heap s) m (ls !! S i) L.
Proof.
  intros (Ht & _ & Hheads & _) Hi. rewrite Hheads, list_lookup_fmap in Hi.
  destruct (ls !! i) as [L|] eqn:HL; [|done]. injection Hi as <-.
  exists L. split_and!; [done..|]. by eapply tower_lookup.
Qed.

Lemma Rep_level_inv s m ls i L :
  Rep s m ls → ls !! i = Some L → heads s !! i = Some (lhead L).
Proof. intros (_ & _ & -> & _) Hi. by rewrite list_lookup_fmap, Hi. Qed.

Lemma Rep_heads_elem s m ls hd :
  Rep s m ls → hd ∈ heads s →
  ∃ i L, heads s !! i = Some hd ∧ ls !! i = Some L ∧ lhead L = hd ∧
         level_ok (heap s) m (ls !! S i) L.
Proof.
  intros HR Hin. apply list_elem_of_lookup in Hin as [i Hi].
  destruct (Rep_level _ _ _ _ _ HR Hi) as (L & HL & Hhd & Hok). by exists i, L.
Qed.

Lemma Rep_sorted_next s m ls hd a n b :
  Rep s m ls → hd ∈ heads s → on_level (heap s) hd a →
  heap s !! a = Some n → next n = Some b →
  ∃ nb y, heap s !! b = Some nb ∧ k nb = Some y ∧ ∀ x, k n = Some x → x < y.
Proof.
  intros HR Hhd Ha Hn Hnext.
  destruct (Rep_heads_elem _ _ _ _ HR Hhd) as (i & L & _ & _ & <- & HL).
  apply (on_level_elem _ _ _ _ _ HL) in Ha.
  pose proof (level_NoDup _ _ _ _ HL) as Hnd.
  pose proof (level_sorted _ _ _ _ HL) as Hsort.
  pose proof HL as (hd & l & _ & Hseg & _).
  destruct (lseg_adjacent _ _ _ _ _ _ _ _ Hseg Hnd Ha Hn Hnext)
    as (l1 & ka & kb & l2 & HLeq).
  assert ((a, ka) ∈ L) as Hina by (rewrite HLeq; apply elem_of_app; right; left).
  assert ((b, kb) ∈ L) as Hinb
    by (rewrite HLeq; apply elem_of_app; right; right; left).
  destruct (lseg_lookup _ _ _ _ _ _ _ _ Hseg Hina) as (n' & Hn' & Hk & _).
  rewrite Hn in Hn'. injection Hn' as <-.
  destruct (lseg_lookup _ _ _ _ _ _ _ _ Hseg Hinb) as (nb & Hnb & Hkb & _).
  rewrite HLeq, fmap_app, !fmap_cons in Hsort.
  apply StronglySorted_app_1_r, StronglySorted_cons in Hsort as [Hall _].
  apply Forall_cons in Hall as [Hlt _]. simpl in Hlt.
  destruct kb as [y|]; [|by destruct ka].
  exists nb, y. split_and!; [done..|]. intros x Hx. rewrite Hk in Hx. rewrite Hx in Hlt. exact Hlt.
Qed.

Lemma Rep_down s m ls i hd a n d :
  Rep s m ls → heads s !! i = Some hd → on_level (heap s) hd a →
  heap s !! a = Some n → down n = Some d →
  ∃ hd' nd, heads s !! S i = Some hd' ∧ on_level (heap s) hd' d ∧
            heap s !! d = Some nd ∧ k nd = k n.
Proof.
  intros HR Hi Ha Hn Hdown.
  destruct (Rep_level _ _ _ _ _ HR Hi) as (L & HLi & <- & HL).
  apply (on_level_elem _ _ _ _ _ HL) in Ha.
  pose proof (level_node_key _ _ _ _ _ _ HL Ha Hn) as Hin.
  pose proof HL as (hd & l & _ & Hseg & _).
  destruct (lseg_lookup _ _ _ _ _ _ _ _ Hseg Hin) as (n' & Hn' & _ & _ & _ & Hd).
  rewrite Hn in Hn'. injection Hn' as <-.
  destruct (ls !! S i) as [L'|] eqn:HL'; simpl in Hd; [|congruence].
  destruct Hd as (d' & Hd' & Hind). rewrite Hdown in Hd'. injection Hd' as <-.
  pose proof (proj1 HR) as Ht.
  pose proof (tower_lookup _ _ _ _ _ Ht HL') as HLok'.
  pose proof HLok' as (hd' & l' & _ & Hseg' & _).
  destruct (lseg_lookup _ _ _ _ _ _ _ _ Hseg' Hind) as (nd & Hnd & Hknd & _).
  exists (lhead L'), nd. split_and!; [|apply (on_level_elem _ _ _ _ _ HLok')|done..].
  - by eapply Rep_level_inv.
  - by apply (list_elem_of_fmap_2 fst) in Hind.
Qed.

Lemma Rep_bottom_down s m ls hd a n :
  Rep s m ls → heads s !! (length (heads s) - 1)%nat = Some hd →
  on_level (heap s) hd a → heap s !! a = Some n → down n = None.
Proof.
  intros HR Hi Ha Hn.
  destruct (Rep_level _ _ _ _ _ HR Hi) as (L & HLi & <- & HL).
  apply (on_level_elem _ _ _ _ _ HL) in Ha.
  pose proof (level_node_key _ _ _ _ _ _ HL Ha Hn) as Hin.
  pose proof HL as (hd & l & _ & Hseg & _).
  destruct (lseg_lookup _ _ _ _ _ _ _ _ Hseg Hin) as (n' & Hn' & _ & _ & _ & Hd).
  rewrite Hn in Hn'. injection Hn' as <-.
  rewrite (Rep_heads_length _ _ _ HR) in Hd.
  rewrite (lookup_ge_None_2 ls) in Hd; [done|].
  apply lookup_lt_Some in HLi. lia.
Qed.

Lemma Rep_appears_step s m ls i hd hd' key :
  Rep s m ls → heads s !! i = Some hd → heads s !! S i = Some hd' →
  appears (heap s) hd key → appears (heap s) hd' key.
Proof.
  intros HR Hi HSi (a & n & Ha & Hn & Hk).
  destruct (Rep_level _ _ _ _ _ HR Hi) as (L & HLi & <- & HL).
  apply (on_level_elem _ _ _ _ _ HL) in Ha.
  pose proof (level_node_key _ _ _ _ _ _ HL Ha Hn) as Hin.
  pose proof HL as (hd & l & _ & Hseg & _).
  destruct (lseg_lookup _ _ _ _ _ _ _ _ Hseg Hin) as (n' & Hn' & _ & _ & _ & Hd).
  rewrite Hn in Hn'. injection Hn' as <-.
  destruct (Rep_level _ _ _ _ _ HR HSi) as (L' & HL' & <- & HLok').
  rewrite HL' in Hd. destruct Hd as (d & _ & Hind).
  apply (appears_iff _ _ _ _ _ HLok'). rewrite <- Hk.
  by apply (list_elem_of_fmap_2 snd) in Hind.
Qed.

Lemma Rep_appears_below s m ls key :
  Rep s m ls →
  ∀ j i hd hd', (i ≤ j)%nat → heads s !! i = Some hd → heads s !! j = Some hd' →
    appears (heap s) hd key → appears (heap s) hd' key.
Proof.
  intros HR. induction j as [|j IH]; intros i hd hd' Hij Hi Hj Happ.
  - assert (i = O) as -> by lia. congruence.
  - destruct (decide (i = S j)) as [->|Hne]; [congruence|].
    destruct (heads s !! j) as [hdj|] eqn:Hhj.
    + apply (Rep_appears_step s m ls j hdj hd' key HR Hhj Hj).
      apply (IH i hd hdj); [lia|done..].
    + apply lookup_ge_None in Hhj. apply lookup_lt_Some in Hj. lia.
Qed.

Lemma Rep_on_some_level s m ls a :
  Rep s m ls → is_Some (heap s !! a) →
  ∃ i hd, heads s !! i = Some hd ∧ on_level (heap s) hd a.
Proof.
  intros HR Ha. pose proof HR as (Ht & _ & _ & Hall).
  apply Hall, elem_of_addrs in Ha as (L & HL & Ha).
  apply list_elem_of_lookup in HL as [i Hi].
  exists i, (lhead L). split; [by eapply Rep_level_inv|].
  eapply on_level_elem; [by eapply tower_lookup|done].
Qed.

(** ** Statements about the sequential index *)

(** C1: on an index of height at least one, after any sequence of upserts,
    [find k] returns the value of the most recent upsert of [k], and absent
    when there was none; on a fresh index every lookup is absent. *)
Theorem find_returns_last_upsert (rnd : nat → Z) (height : nat) (ops : list (Z * Z))
    (key : Z) :
  (1 ≤ height)%nat →
  (∃ s, run rnd height ops = Some s ∧ find key s = Some (last_value ops key, s)) ∧
  (∃ s0, run rnd height [] = Some s0 ∧ find key s0 = Some (None, s0)).
Proof.
  intros Hh. split.
  - destruct (run_spec rnd height ops Hh) as (s & ls & Hrun & HR & _).
    exists s. split; [done|]. by rewrite (find_spec _ _ _ key HR), model_lookup.
  - destruct (run_spec rnd height [] Hh) as (s & ls & Hrun & HR & _).
    exists s. split; [done|]. by rewrite (find_spec _ _ _ key HR).
Qed.

Lemma find_returns_last_upsert_witness :
  (∃ s, run (λ _, 1) 3 [(1, 10); (2, 20); (1, 11)] = Some s ∧
        find 1 s = Some (last_value [(1, 10); (2, 20); (1, 11)] 1, s)) ∧
  (∃ s0, run (λ _, 1) 3 [] = Some s0 ∧ find 1 s0 = Some (None, s0)).
Proof. apply (find_returns_last_upsert (λ _, 1) 3 [(1, 10); (2, 20); (1, 11)] 1). lia. Defined.

(** C3: after any sequence of upserts on an index of height at least one,
    on every level the key of a node is strictly below the key of its
    successor; the successor of any node, sentinel included, carries a key. *)
Theorem levels_sorted (rnd : nat → Z) (height : nat) (ops : list (Z * Z)) :
  (1 ≤ height)%nat →
  ∃ s, run rnd height ops = Some s ∧
    ∀ hd a n b, hd ∈ heads s → on_level (heap s) hd a →
      heap s !! a = Some n → next n = Some b →
      ∃ nb y, heap s !! b = Some nb ∧ k nb = Some y ∧ ∀ x, k n = Some x → x < y.
Proof.
  intros Hh. destruct (run_spec rnd height ops Hh) as (s & ls & Hrun & HR & _).
  exists s. split; [done|]. intros hd a n b. by eapply Rep_sorted_next.
Qed.

Lemma levels_sorted_witness :
  ∃ s, run (λ _, 1) 2 [(3, 30); (1, 10)] = Some s ∧
    ∀ hd a n b, hd ∈ heads s → on_level (heap s) hd a →
      heap s !! a = Some n → next n = Some b →
      ∃ nb y, heap s !! b = Some nb ∧ k nb = Some y ∧ ∀ x, k n = Some x → x < y.
Proof. apply (levels_sorted (λ _, 1) 2 [(3, 30); (1, 10)]). lia. Defined.

(** C4: after any sequence of upserts, a non-null [down] pointer of a node
    on level [i] leads to a node of level [i+1] with the same key, nodes of
    the bottom level have a null [down], a key that appears on a level
    appears on every level below it, and every node is on some level. *)
Theorem columns_and_towers (rnd : nat → Z) (height : nat) (ops : list (Z * Z)) :
  (1 ≤ height)%nat →
  ∃ s, run rnd height ops = Some s ∧ length (heads s) = height ∧
    (∀ i hd a n d, heads s !! i = Some hd → on_level (heap s) hd a →
       heap s !! a = Some n → down n = Some d →
       ∃ hd' nd, heads s !! S i = Some hd' ∧ on_level (heap s) hd' d ∧
                 heap s !! d = Some nd ∧ k nd = k n) ∧
    (∀ hd a n, heads s !! (height - 1)%nat = Some hd → on_level (heap s) hd a →
       heap s !! a = Some n → down n = None) ∧
    (∀ i j hd hd' key, (i ≤ j)%nat → heads s !! i = Some hd →
       heads s !! j = Some hd' →
       appears (heap s) hd key → appears (heap s) hd' key) ∧
    (∀ a, is_Some (heap s !! a) →
       ∃ i hd, heads s !! i = Some hd ∧ on_level (heap s) hd a).
Proof.
  intros Hh. destruct (run_spec rnd height ops Hh) as (s & ls & Hrun & HR & Hlen).
  pose proof (Rep_heads_length _ _ _ HR) as Hhl.
  exists s. split_and!; [done|congruence|..].
  - intros i hd a n d. by eapply Rep_down.
  - intros hd a n Hi. eapply Rep_bottom_down; [done|]. by rewrite Hhl, Hlen.
  - intros i j hd hd' key. by eapply Rep_appears_below.
  - intros a. by eapply Rep_on_some_level.
Qed.

Lemma columns_and_towers_witness :
  ∃ s, run (λ _, 1) 2 [(3, 30)] = Some s ∧ length (heads s) = 2%nat ∧
    (∀ i hd a n d, heads s !! i = Some hd → on_level (heap s) hd a →
       heap s !! a = Some n → down n = Some d →
       ∃ hd' nd, heads s !! S i = Some hd' ∧ on_level (heap s) hd' d ∧
                 heap s !! d = Some nd ∧ k nd = k n) ∧
    (∀ hd a n, heads s !! (2 - 1)%nat = Some hd → on_level (heap s) hd a →
       heap s !! a = Some n → down n = None) ∧
    (∀ i j hd hd' key, (i ≤ j)%nat → heads s !! i = Some hd →
       heads s !! j = Some hd' →
       appears (heap s) hd key → appears (heap s) hd' key) ∧
    (∀ a, is_Some (heap s !! a) →
       ∃ i hd, heads s !! i = Some hd ∧ on_level (heap s) hd a).
Proof. apply (columns_and_towers (λ _, 1) 2 [(3, 30)]). lia. Defined.

Lemma Rep_key_in_model s m ls hd key :
  Rep s m ls → hd ∈ heads s → appears (heap s) hd key → is_Some (m !! key).
Proof.
  intros HR Hhd Happ.
  destruct (Rep_heads_elem _ _ _ _ HR Hhd) as (i & L & _ & _ & <- & HL).
  apply (appears_iff _ _ _ _ _ HL) in Happ.
  apply list_elem_of_fmap in Happ as ([a ka] & Heq & Hin). simpl in Heq. subst ka.
  pose proof HL as (hd & l & _ & Hseg & _).
  destruct (lseg_lookup _ _ _ _ _ _ _ _ Hseg Hin) as (n & _ & _ & _ & Hdom & _).
  by apply Hdom.
Qed.

Lemma Rep_unique_on_level s m ls hd a1 a2 n1 n2 key :
  Rep s m ls → hd ∈ heads s →
  on_level (heap s) hd a1 → on_level (heap s) hd a2 →
  heap s !! a1 = Some n1 → heap s !! a2 = Some n2 →
  k n1 = Some key → k n2 = Some key → a1 = a2.
Proof.
  intros HR Hhd Ha1 Ha2 Hn1 Hn2 Hk1 Hk2.
  destruct (Rep_heads_elem _ _ _ _ HR Hhd) as (i & L & _ & _ & <- & HL).
  apply (on_level_elem _ _ _ _ _ HL) in Ha1, Ha2.
  pose proof (level_node_key _ _ _ _ _ _ HL Ha1 Hn1) as Hin1.
  pose proof (level_node_key _ _ _ _ _ _ HL Ha2 Hn2) as Hin2.
  rewrite Hk1 in Hin1. rewrite Hk2 in Hin2.
  eapply sorted_key_unique; [by eapply level_sorted|done..].
Qed.

(** C2: when the key is already present, an upsert allocates nothing and
    changes the heap only by overwriting the value of every node that
    carries the key; each level still holds at most one such node and a
    following lookup returns the value written.  In particular two
    upserts of one key followed by a lookup return the second value. *)
Theorem upsert_present_overwrites (rnd : nat → Z) (height : nat) (ops : list (Z * Z))
    (key : Z) :
  (1 ≤ height)%nat →
  (∀ val, key ∈ ops.*1 →
     ∃ s s', run rnd height ops = Some s ∧ upsert rnd key val s = Some (tt, s') ∧
       heap s' = overwrite key val <$> heap s ∧
       dom (heap s') = dom (heap s) ∧ heads s' = heads s ∧ draws s' = draws s ∧
       (∀ a n, heap s' !! a = Some n → k n = Some key → v n = Some val) ∧
       (∀ hd a1 a2 n1 n2, hd ∈ heads s' →
          on_level (heap s') hd a1 → on_level (heap s') hd a2 →
          heap s' !! a1 = Some n1 → heap s' !! a2 = Some n2 →
          k n1 = Some key → k n2 = Some key → a1 = a2) ∧
       find key s' = Some (Some val, s')) ∧
  (∀ v1 v2, ∃ s, run rnd height (ops ++ [(key, v1); (key, v2)]) = Some s ∧
                 find key s = Some (Some v2, s)).
Proof.
  intros Hh. split.
  - intros val Hkey.
    destruct (run_spec rnd height ops Hh) as (s & ls & Hrun & HR & _).
    assert (is_Some (model ops !! key)) as Hm
      by (rewrite model_lookup; by apply last_value_elem).
    destruct (upsert_present rnd s _ ls key val HR Hm)
      as (s' & Hup & HR' & Hheap & Hheads & Hdraws).
    exists s, s'. split_and!; try done.
    + by rewrite Hheap, dom_fmap_L.
    + intros a n. rewrite Hheap, lookup_fmap. destruct (heap s !! a) as [n0|]; [|done].
      simpl. intros [= <-]. unfold overwrite.
      destruct (opt_eq (k n0) key) eqn:Heq; [done|].
      apply opt_eq_false in Heq. done.
    + intros hd a1 a2 n1 n2. by eapply Rep_unique_on_level.
    + by rewrite (find_spec _ _ _ key HR'), lookup_insert_eq.
  - intros v1 v2.
    destruct (run_spec rnd height (ops ++ [(key, v1); (key, v2)]) Hh)
      as (s & ls & Hrun & HR & _).
    exists s. split; [done|]. rewrite (find_spec _ _ _ key HR), model_lookup.
    change (ops ++ [(key, v1); (key, v2)]) with (ops ++ [(key, v1)] ++ [(key, v2)]).
    by rewrite app_assoc, last_value_snoc.
Qed.

Lemma upsert_present_overwrites_witness :
  (∃ s s', run (λ _, 1) 3 [(1, 10); (2, 20)] = Some s ∧
     upsert (λ _, 1) 1 11 s = Some (tt, s') ∧
     heap s' = overwrite 1 11 <$> heap s ∧ find 1 s' = Some (Some 11, s')) ∧
  (∃ s, run (λ _, 1) 3 ([(1, 10); (2, 20)] ++ [(1, 5); (1, 6)]) = Some s ∧
        find 1 s = Some (Some 6, s)).
Proof.
  destruct (upsert_present_overwrites (λ _, 1) 3 [(1, 10); (2, 20)] 1) as [H1 H2];
    [lia|].
  split; [|exact (H2 5 6)].
  destruct (H1 11) as (s & s' & Hrun & Hup & Hheap & _ & _ & _ & _ & _ & Hfind).
  { apply list_elem_of_here. }
  exists s, s'. split_and!; done.
Defined.

(** C5: with the coin flips given by the stream [rnd], an upsert of a key
    that is not present allocates exactly [1 + t] nodes, where [t] is the
    number of consecutive promote outcomes among the next [height - 1]
    draws; afterwards the key appears exactly on the bottom [1 + t]
    levels, so the column never exceeds the height of the index. *)
Theorem insert_column_height (rnd : nat → Z) (height : nat) (ops : list (Z * Z))
    (key val : Z) :
  (1 ≤ height)%nat → key ∉ ops.*1 →
  ∃ s s', run rnd height ops = Some s ∧ upsert rnd key val s = Some (tt, s') ∧
    let t := promotes rnd (height - 1) (draws s) in
    (S t ≤ height)%nat ∧
    (∀ hd, hd ∈ heads s → ¬ appears (heap s) hd key) ∧
    (∀ i hd, heads s' !! i = Some hd →
       appears (heap s') hd key ↔ (height - S t ≤ i)%nat) ∧
    size (heap s') = (size (heap s) + S t)%nat ∧
    draws s' = (draws s + min (height - 1) (S t))%nat ∧
    length (heads s') = height.
Proof.
  intros Hh Hkey.
  destruct (run_spec rnd height ops Hh) as (s & ls & Hrun & HR & Hlen).
  assert (model ops !! key = None) as Hm.
  { rewrite model_lookup. destruct (last_value ops key) as [x|] eqn:Hl; [|done].
    exfalso. apply Hkey, last_value_elem. by rewrite Hl. }
  destruct (upsert_absent rnd s _ ls key val HR Hm)
    as (s' & ls' & Hup & HR' & Hext & Hheads & Hdraws & Hcnt & Hcol).
  rewrite Hlen in Hdraws, Hcnt, Hcol.
  pose proof (promotes_le rnd (height - 1) (draws s)) as Hple.
  exists s, s'. split; [done|]. split; [done|]. cbv zeta. split_and!; try done.
  - lia.
  - intros hd Hhd Happ.
    destruct (Rep_key_in_model _ _ _ _ _ HR Hhd Happ) as [x Hx]. congruence.
  - intros i hd Hi. destruct (Rep_level _ _ _ _ _ HR' Hi) as (L & HLi & <- & HL).
    rewrite (appears_iff _ _ _ _ _ HL), (Hcol i L HLi). lia.
  - by rewrite (Rep_size _ _ _ HR), (Rep_size _ _ _ HR'), Hcnt.
  - rewrite Hheads, (Rep_heads_length _ _ _ HR). done.
Qed.

Lemma insert_column_height_witness :
  ∃ s s', run (λ i, Z.of_nat i) 4 [(1, 10)] = Some s ∧
    upsert (λ i, Z.of_nat i) 5 50 s = Some (tt, s') ∧
    let t := promotes (λ i, Z.of_nat i) (4 - 1) (draws s) in
    (S t ≤ 4)%nat ∧
    (∀ hd, hd ∈ heads s → ¬ appears (heap s) hd 5) ∧
    (∀ i hd, heads s' !! i = Some hd →
       appears (heap s') hd 5 ↔ (4 - S t ≤ i)%nat) ∧
    size (heap s') = (size (heap s) + S t)%nat ∧
    draws s' = (draws s + min (4 - 1) (S t))%nat ∧
    length (heads s') = 4%nat.
Proof.
  apply (insert_column_height (λ i, Z.of_nat i) 4 [(1, 10)] 5 50); [lia|].
  intros Hin. apply list_elem_of_singleton in Hin. discriminate Hin.
Defined.

(** ** Lookups leave the state alone *)

Lemma findInLevel_loop_frame fuel :
  ∀ cur key s r s', findInLevel_loop fuel cur key s = Some (r, s') → s' = s.
Proof.
  induction fuel as [|fuel IH]; intros cur key s r s'; simpl; [done|].
  unfold bind, load, ret. destruct (heap s !! cur) as [c|]; [|done].
  destruct (next c) as [nx|]; [|by intros [= _ <-]].
  destruct (heap s !! nx) as [n|]; [|done].
  destruct (opt_gt (k n) key); [by intros [= _ <-]|]. apply IH.
Qed.

Lemma findInLevel_frame cur key s r s' :
  findInLevel cur key s = Some (r, s') → s' = s.
Proof. unfold findInLevel, bind, nodes. apply findInLevel_loop_frame. Qed.

Lemma find_loop_frame fuel :
  ∀ cur key s r s', find_loop fuel cur key s = Some (r, s') → s' = s.
Proof.
  induction fuel as [|fuel IH]; intros cur key s r s'; simpl; [done|].
  unfold bind at 1. unfold load. destruct (heap s !! cur) as [n|]; [|done].
  destruct (down n) as [d|].
  - destruct (opt_eq (k n) key); [by intros [= _ <-]|].
    unfold bind. destruct (findInLevel d key s) as [[m s1]|] eqn:Hf; [|done].
    apply findInLevel_frame in Hf as ->. apply IH.
  - destruct (opt_ne (k n) key); by intros [= _ <-].
Qed.

Lemma find_frame key s r s' : find key s = Some (r, s') → s' = s.
Proof.
  unfold find, bind, heads_at, nodes. destruct (heads s !! 0%nat) as [top|]; [|done].
  destruct (findInLevel top key s) as [[m s1]|] eqn:Hf; [|done].
  apply findInLevel_frame in Hf as ->. apply find_loop_frame.
Qed.

Lemma finds_replicate n key s r :
  find key s = Some (r, s) → finds n key s = Some (replicate n r, s).
Proof.
  intros Hf. induction n as [|n IH]; [done|].
  cbn [finds]. rewrite (bind_run _ _ _ _ _ Hf), (bind_run _ _ _ _ _ IH). done.
Qed.

(** C7: [findInLevel] and [find] return the state they were given, on any
    state whatsoever, so a lookup repeated any number of times returns the
    same result each time; on every index built by the constructor and
    upserts the lookup does return. *)
Theorem find_is_pure (key : Z) :
  (∀ s cur a s', findInLevel cur key s = Some (a, s') → s' = s) ∧
  (∀ s r s', find key s = Some (r, s') →
     s' = s ∧ ∀ n, finds n key s = Some (replicate n r, s)) ∧
  (∀ rnd height ops, (1 ≤ height)%nat →
     ∃ s r, run rnd height ops = Some s ∧ find key s = Some (r, s) ∧
            ∀ n, finds n key s = Some (replicate n r, s)).
Proof.
  split_and!.
  - intros s cur a s'. apply findInLevel_frame.
  - intros s r s' Hf. pose proof (find_frame _ _ _ _ Hf) as ->. split; [done|].
    intros n. by apply finds_replicate.
  - intros rnd height ops Hh.
    destruct (run_spec rnd height ops Hh) as (s & ls & Hrun & HR & _).
    exists s, (model ops !! key). pose proof (find_spec _ _ _ key HR) as Hf.
    split_and!; [done..|]. intros n. by apply finds_replicate.
Qed.

Lemma find_is_pure_witness :
  let s := mkState {[ O := mkNode None (Some 1%nat) None None;
                      1%nat := mkNode None None (Some 7) (Some 70) ]} [O] O in
  find 7 s = Some (Some 70, s) ∧
  (∀ n, finds n 7 s = Some (replicate n (Some 70), s)) ∧
  (∃ s r, run (λ _, 1) 2 [(1, 10)] = Some s ∧ find 7 s = Some (r, s) ∧
          ∀ n, finds n 7 s = Some (replicate n r, s)).
Proof.
  intros s. assert (find 7 s = Some (Some 70, s)) as Hf by (vm_compute; reflexivity).
  destruct (find_is_pure 7) as (_ & H2 & H3).
  split; [exact Hf|]. split; [exact (proj2 (H2 s _ s Hf))|].
  apply (H3 (λ _, 1) 2%nat [(1, 10)]). lia.
Defined.

(** ** The height precondition *)

Lemma level_of_empty h b L :
  level_ok h ∅ b L →
  ∃ hd n, L = [(hd, None)] ∧ h !! hd = Some n ∧ k n = None ∧ v n = None ∧
          next n = None ∧ down_ok b None (down n).
Proof.
  intros (hd & l & -> & Hseg & Hsort).
  destruct Hseg as (_ & n & Hn & (Hk & Hv & _ & Hdown) & Hseg).
  destruct l as [|[a ka] l].
  - exists hd, n. by split_and!.
  - exfalso. destruct Hseg as (_ & na & _ & (_ & _ & Hdom & _) & _).
    rewrite !fmap_cons in Hsort. apply StronglySorted_cons in Hsort as [Hall _].
    apply Forall_cons in Hall as [Hlt _]. simpl in Hlt.
    destruct ka as [x|]; [|done]. destruct (Hdom x eq_refl) as [y Hy].
    by rewrite lookup_empty in Hy.
Qed.

Lemma heads_NoDup h m ls : tower h m ls → NoDup (addrs ls) → NoDup (lhead <$> ls).
Proof.
  induction ls as [|L rest IH]; intros Ht Hnd; [constructor|].
  rewrite fmap_cons. apply NoDup_addrs_cons in Hnd as (_ & Hnd & Hdisj).
  pose proof (tower_level _ _ _ _ Ht) as (hd & l & -> & _).
  apply NoDup_cons. split.
  - intros Hin. apply list_elem_of_fmap in Hin as (L' & Heq & HL').
    apply (Hdisj hd); [rewrite fmap_cons; left|].
    apply elem_of_addrs. exists L'. split; [done|].
    destruct rest as [|L1 rest]; [by apply elem_of_nil in HL'|].
    pose proof (tower_nonempty _ _ _ _ (tower_rest _ _ _ _ _ Ht) HL') as Hne.
    destruct L' as [|[a ka] L']; [done|]. simpl in Heq. subst. rewrite fmap_cons. left.
  - destruct rest as [|L1 rest]; [constructor|]. apply IH; [|done].
    by eapply tower_rest.
Qed.

Lemma Rep_empty_sentinel s ls i hd :
  Rep s ∅ ls → heads s !! i = Some hd →
  heap s !! hd = Some (mkNode (heads s !! S i) None None None).
Proof.
  intros HR Hi. destruct (Rep_level _ _ _ _ _ HR Hi) as (L & HLi & <- & HL).
  destruct (level_of_empty _ _ _ HL) as (hd & n & -> & Hn & Hk & Hv & Hnext & Hdown).
  simpl. rewrite Hn. f_equal. destruct n as [dn nx kn vn]. simpl in *. subst.
  f_equal. destruct HR as (Ht & _ & -> & _). rewrite list_lookup_fmap.
  destruct (ls !! S i) as [L'|] eqn:HL'; simpl in Hdown |- *; [|done].
  destruct Hdown as (d & -> & Hd).
  destruct (level_of_empty _ _ _ (tower_lookup _ _ _ _ _ Ht HL'))
    as (hd' & n' & -> & _).
  apply list_elem_of_singleton in Hd. by injection Hd as ->.
Qed.

(** C9: the constructor accepts height 0 and then leaves [heads] empty, so
    that [upsert] and [find] index it out of range; under the precondition
    [1 ≤ height] it builds [height] distinct sentinels chained by [down],
    and after any sequence of upserts [heads[0]] is in range and both
    operations return. *)
Theorem height_precondition (rnd : nat → Z) (height : nat) :
  (ctor O empty = Some (tt, empty) ∧
   ∀ key val, upsert rnd key val empty = None ∧ find key empty = None) ∧
  ((1 ≤ height)%nat →
   ∃ s, ctor height empty = Some (tt, s) ∧
     length (heads s) = height ∧ NoDup (heads s) ∧
     (∀ i hd, heads s !! i = Some hd →
        heap s !! hd = Some (mkNode (heads s !! S i) None None None)) ∧
     ∀ ops, ∃ s', upserts rnd ops s = Some (tt, s') ∧ heads s' = heads s ∧
       (∃ top, heads_at O s' = Some (top, s') ∧ is_Some (heap s' !! top)) ∧
       (∀ key val, is_Some (upsert rnd key val s')) ∧
       (∀ key, is_Some (find key s'))).
Proof.
  split; [done|]. intros Hh.
  destruct (ctor_spec height Hh) as (s & ls & Hrun & HR & Hlen & _).
  exists s. split_and!; [done| | | |].
  - by rewrite (Rep_heads_length _ _ _ HR).
  - destruct HR as (Ht & Hnd & -> & _). by eapply heads_NoDup.
  - intros i hd. by eapply Rep_empty_sentinel.
  - intros ops.
    destruct (upserts_spec rnd ops s ∅ ls HR) as (s' & ls' & Hrun' & HR' & _ & Hhd').
    exists s'. split_and!; [done..| | |].
    + destruct (Rep_top _ _ _ HR') as (hd & l & rest & Hls & Hhd).
      exists hd. unfold heads_at. rewrite Hhd. split; [done|].
      destruct HR' as (Ht' & _). eapply tower_in_heap; [done|].
      rewrite Hls, addrs_cons, fmap_cons. left.
    + intros key val.
      destruct (upsert_Rep rnd s' _ ls' key val HR') as (s'' & ls'' & -> & _). eauto.
    + intros key. rewrite (find_spec _ _ _ key HR'). eauto.
Qed.

Lemma height_precondition_witness :
  ∃ s, ctor 3 empty = Some (tt, s) ∧
     length (heads s) = 3%nat ∧ NoDup (heads s) ∧
     (∀ i hd, heads s !! i = Some hd →
        heap s !! hd = Some (mkNode (heads s !! S i) None None None)) ∧
     ∀ ops, ∃ s', upserts (λ _, 1) ops s = Some (tt, s') ∧ heads s' = heads s ∧
       (∃ top, heads_at O s' = Some (top, s') ∧ is_Some (heap s' !! top)) ∧
       (∀ key val, is_Some (upsert (λ _, 1) key val s')) ∧
       (∀ key, is_Some (find key s')).
Proof. apply (proj2 (height_precondition (λ _, 1) 3)). lia. Defined.

(** ** The two variants run in lock step *)

Lemma sim_bind {A B A' B'} (R : A → A' → Prop) (R' : B → B' → Prop)
    (m : M Node A) (m' : M ASW.Node A') f f' s t :
  res_sim R (m s) (m' t) →
  (∀ x x' s1 t1, R x x' → state_sim s1 t1 → res_sim R' (f x s1) (f' x' t1)) →
  res_sim R' (bind m f s) (bind m' f' t).
Proof.
  unfold bind, res_sim at 1. destruct (m s) as [[x s1]|], (m' t) as [[x' t1]|]; try done.
  intros [HR Hst] Hf. by apply Hf.
Qed.

Lemma sim_ret {A B} (R : A → B → Prop) x y s t :
  R x y → state_sim s t → res_sim R (ret x s) (ret y t).
Proof. by split. Qed.

Lemma sim_load a s t : state_sim s t → res_sim node_sim (load a s) (load a t).
Proof.
  intros Hst. pose proof Hst as (_ & _ & Hh). unfold load. specialize (Hh a).
  destruct Hh; simpl; done.
Qed.

Lemma sim_dom s t : state_sim s t → dom (heap s) = dom (heap t).
Proof.
  intros (_ & _ & Hh). apply set_eq. intros a. rewrite !elem_of_dom.
  specialize (Hh a). destruct Hh; split; intros [? ?]; eauto; done.
Qed.

Lemma sim_insert a n n' s t :
  state_sim s t → node_sim n n' →
  state_sim (mkState (<[a := n]> (heap s)) (heads s) (draws s))
            (mkState (<[a := n']> (heap t)) (heads t) (draws t)).
Proof.
  intros (Hhd & Hd & Hh) Hn. split_and!; [done..|]. intros x. simpl.
  destruct (decide (a = x)) as [->|Hne].
  - rewrite !lookup_insert_eq. by constructor.
  - rewrite !lookup_insert_ne by done. apply Hh.
Qed.

Lemma sim_insert_mk a n n' h h' hs d hs' d' :
  state_sim (mkState h hs d) (mkState h' hs' d') → node_sim n n' →
  state_sim (mkState (<[a := n]> h) hs d) (mkState (<[a := n']> h') hs' d').
Proof. apply (sim_insert a n n' (mkState h hs d) (mkState h' hs' d')). Qed.

Lemma sim_store a n n' s t :
  state_sim s t → node_sim n n' →
  res_sim (λ _ _, True) (store a n s) (store a n' t).
Proof.
  intros Hst Hn. pose proof Hst as (_ & _ & Hh). unfold store. specialize (Hh a).
  destruct Hh; simpl; [|done]. split; [done|]. by apply sim_insert.
Qed.

Lemma sim_alloc n n' s t :
  state_sim s t → node_sim n n' → res_sim eq (alloc n s) (alloc n' t).
Proof.
  intros Hst Hn. unfold alloc. rewrite (sim_dom _ _ Hst). simpl.
  split; [done|]. by apply sim_insert.
Qed.

Lemma sim_nodes s t : state_sim s t → res_sim eq (nodes s) (nodes t).
Proof.
  intros Hst. unfold nodes. simpl. split; [|done].
  by rewrite <- !size_dom, (sim_dom _ _ Hst).
Qed.

Lemma sim_heads_at i s t : state_sim s t → res_sim eq (heads_at i s) (heads_at i t).
Proof.
  intros Hst. pose proof Hst as (Hhd & _). unfold heads_at. rewrite Hhd.
  destruct (heads t !! i); simpl; done.
Qed.

Lemma sim_rand rnd s t : state_sim s t → res_sim eq (rand rnd s) (rand rnd t).
Proof.
  intros (Hhd & Hd & Hh). unfold rand. simpl. rewrite Hd. split; [done|].
  split_and!; simpl; done.
Qed.

Lemma sim_findInLevel_loop fuel :
  ∀ cur key s t, state_sim s t →
    res_sim eq (findInLevel_loop fuel cur key s) (ASW.findInLevel_loop fuel cur key t).
Proof.
  induction fuel as [|fuel IH]; intros cur key s t Hst; simpl; [done|].
  eapply sim_bind; [by apply sim_load|].
  intros c c' s1 t1 (_ & Hnext & _) Hst1. rewrite <- Hnext.
  destruct (next c) as [nx|]; [|by apply sim_ret].
  eapply sim_bind; [by apply sim_load|].
  intros n n' s2 t2 (_ & _ & Hk & _) Hst2. rewrite <- Hk.
  destruct (opt_gt (k n) key); [by apply sim_ret|by apply IH].
Qed.

Lemma sim_findInLevel cur key s t :
  state_sim s t → res_sim eq (findInLevel cur key s) (ASW.findInLevel cur key t).
Proof.
  intros Hst. eapply sim_bind; [by apply sim_nodes|].
  intros fuel ? s1 t1 <- Hst1. by apply sim_findInLevel_loop.
Qed.

Lemma node_sim_set_next n n' p :
  node_sim n n' → node_sim (set_next n p) (ASW.set_next n' p).
Proof. intros (? & ? & ? & ?). by split_and!. Qed.

Lemma chainNode_run_self h hs d prev p :
  h !! prev = Some p →
  chainNode prev prev (mkState h hs d)
    = Some (prev, mkState (<[prev := set_next p (Some prev)]> h) hs d).
Proof.
  intros Hp. unfold chainNode, bind, load, store, ret.
  repeat first [ rewrite lookup_insert_eq | rewrite Hp | progress simpl ].
  by rewrite !insert_insert_eq.
Qed.

Lemma chainNode_run_other h hs d prev new p n :
  new ≠ prev → h !! prev = Some p → h !! new = Some n →
  chainNode prev new (mkState h hs d)
    = Some (new, mkState (<[prev := set_next p (Some new)]>
                            (<[new := set_next n (next p)]> h)) hs d).
Proof.
  intros Hne Hp Hn. unfold chainNode, bind, load, store, ret.
  repeat first [ rewrite lookup_insert_eq | rewrite lookup_insert_ne by done
               | rewrite Hp | rewrite Hn | progress simpl ].
  do 3 f_equal. rewrite (insert_insert_ne _ new prev) by done.
  by rewrite insert_insert_eq.
Qed.

Lemma chainNode_run_dangling h hs d prev new p :
  new ≠ prev → h !! prev = Some p → h !! new = None →
  chainNode prev new (mkState h hs d) = None.
Proof.
  intros Hne Hp Hn. unfold chainNode, bind, load, store, ret.
  repeat first [ rewrite lookup_insert_eq | rewrite lookup_insert_ne by done
               | rewrite Hp | rewrite Hn | progress simpl ].
  done.
Qed.

Lemma ASW_chainNode_run_self h hs d prev p :
  h !! prev = Some p →
  ASW.chainNode prev prev (mkState h hs d)
    = Some (prev, mkState (<[prev := ASW.set_next p (Some prev)]> h) hs d).
Proof.
  intros Hp. unfold ASW.chainNode, bind, load, store, ret.
  repeat first [ rewrite lookup_insert_eq | rewrite Hp | progress simpl ].
  by rewrite !insert_insert_eq.
Qed.

Lemma ASW_chainNode_run_other h hs d prev new p n :
  new ≠ prev → h !! prev = Some p → h !! new = Some n →
  ASW.chainNode prev new (mkState h hs d)
    = Some (new, mkState (<[prev := ASW.set_next p (Some new)]>
                            (<[new := ASW.set_next n (ASW.next p)]> h)) hs d).
Proof.
  intros Hne Hp Hn. unfold ASW.chainNode, bind, load, store, ret.
  repeat first [ rewrite lookup_insert_eq | rewrite lookup_insert_ne by done
               | rewrite Hp | rewrite Hn | progress simpl ].
  done.
Qed.

Lemma ASW_chainNode_run_dangling h hs d prev new p :
  new ≠ prev → h !! prev = Some p → h !! new = None →
  ASW.chainNode prev new (mkState h hs d) = None.
Proof.
  intros Hne Hp Hn. unfold ASW.chainNode, bind, load, store, ret.
  repeat first [ rewrite lookup_insert_eq | rewrite lookup_insert_ne by done
               | rewrite Hp | rewrite Hn | progress simpl ].
  done.
Qed.

Lemma chainNode_run_null (h : gmap nat Node) hs d prev new :
  h !! prev = None → chainNode prev new (mkState h hs d) = None.
Proof. intros Hp. unfold chainNode, bind, load. simpl. by rewrite Hp. Qed.

Lemma ASW_chainNode_run_null (h : gmap nat ASW.Node) hs d prev new :
  h !! prev = None → ASW.chainNode prev new (mkState h hs d) = None.
Proof. intros Hp. unfold ASW.chainNode, bind, load. simpl. by rewrite Hp. Qed.

Lemma sim_chainNode prev new s t :
  state_sim s t → res_sim eq (chainNode prev new s) (ASW.chainNode prev new t).
Proof.
  intros Hst. pose proof Hst as (Hhd & Hd & Hh).
  destruct s as [h hs d], t as [h' hs' d']. simpl in Hhd, Hd, Hh. subst hs' d'.
  pose proof (Hh prev) as Hprev.
  destruct (h !! prev) as [p|] eqn:Hp, (h' !! prev) as [p'|] eqn:Hp';
    inversion Hprev as [? ? Hpp|]; subst.
  2:{ by rewrite chainNode_run_null, ASW_chainNode_run_null. }
  destruct (decide (new = prev)) as [->|Hne].
  - rewrite (chainNode_run_self _ _ _ _ _ Hp), (ASW_chainNode_run_self _ _ _ _ _ Hp').
    split; [done|]. apply sim_insert_mk; [done|]. by apply node_sim_set_next.
  - pose proof (Hh new) as Hnew.
    destruct (h !! new) as [n|] eqn:Hn, (h' !! new) as [n'|] eqn:Hn';
      inversion Hnew as [? ? Hnn|]; subst.
    2:{ by rewrite (chainNode_run_dangling _ _ _ _ _ _ Hne Hp Hn),
          (ASW_chainNode_run_dangling _ _ _ _ _ _ Hne Hp' Hn'). }
    rewrite (chainNode_run_other _ _ _ _ _ _ _ Hne Hp Hn),
      (ASW_chainNode_run_other _ _ _ _ _ _ _ Hne Hp' Hn').
    split; [done|]. apply sim_insert_mk; [apply sim_insert_mk; [done|]|].
    + destruct Hpp as (? & Hnx & ? & ?). rewrite <- Hnx. by apply node_sim_set_next.
    + by apply node_sim_set_next.
Qed.

Lemma node_sim_new d key val :
  node_sim (mkNode d None (Some key) (Some val)) (ASW.mkNode d None (Some key) val).
Proof. by split_and!. Qed.

Lemma node_sim_sentinel d nx : node_sim (mkNode d nx None None) (ASW.sentinel d nx).
Proof. split_and!; try done. by intros [? ?]. Qed.

Lemma sim_upsertRec rnd fuel :
  ∀ cur key val s t, state_sim s t →
    res_sim eq (upsertRec rnd fuel cur key val s) (ASW.upsertRec rnd fuel cur key val t).
Proof.
  induction fuel as [|fuel IH]; intros [cur|] key val s t Hst;
    try (by apply sim_ret); [done|].
  cbn [upsertRec ASW.upsertRec].
  eapply sim_bind; [by apply sim_findInLevel|]. intros a ? s1 t1 <- Hst1.
  eapply sim_bind; [by apply sim_load|].
  intros n n' s2 t2 Hn Hst2. pose proof Hn as (Hdown & _ & Hk & _).
  rewrite <- Hk, <- Hdown. destruct (opt_eq (k n) key).
  - eapply sim_bind.
    + apply sim_store; [done|]. destruct Hn as (? & ? & ? & ?). by split_and!.
    + intros _ _ s3 t3 _ Hst3. eapply sim_bind; [by apply IH|].
      intros ? ? s4 t4 _ Hst4. by apply sim_ret.
  - destruct (down n) as [d|].
    + eapply sim_bind; [by apply IH|]. intros [child|] ? s3 t3 <- Hst3;
        [|by apply sim_ret].
      eapply sim_bind; [by apply sim_rand|]. intros r ? s4 t4 <- Hst4.
      destruct (coin r); [|by apply sim_ret].
      eapply sim_bind; [apply sim_alloc; [done|apply node_sim_new]|].
      intros a' ? s5 t5 <- Hst5.
      eapply sim_bind; [by apply sim_chainNode|]. intros r' ? s6 t6 <- Hst6.
      by apply sim_ret.
    + eapply sim_bind; [apply sim_alloc; [done|apply node_sim_new]|].
      intros a' ? s5 t5 <- Hst5.
      eapply sim_bind; [by apply sim_chainNode|]. intros r' ? s6 t6 <- Hst6.
      by apply sim_ret.
Qed.

Lemma sim_upsert rnd key val s t :
  state_sim s t →
  res_sim eq (upsert rnd key val s) (ASW.upsert rnd key val t).
Proof.
  intros Hst. eapply sim_bind; [by apply sim_heads_at|]. intros top ? s1 t1 <- Hst1.
  eapply sim_bind; [by apply sim_nodes|]. intros fuel ? s2 t2 <- Hst2.
  eapply sim_bind; [by apply sim_upsertRec|]. intros ? ? s3 t3 _ Hst3.
  by apply sim_ret.
Qed.

Lemma sim_upserts rnd ops :
  ∀ s t, state_sim s t → res_sim eq (upserts rnd ops s) (ASW.upserts rnd ops t).
Proof.
  induction ops as [|[key val] ops IH]; intros s t Hst; [by apply sim_ret|].
  eapply sim_bind; [by apply sim_upsert|]. intros ? ? s1 t1 _ Hst1. by apply IH.
Qed.

Lemma sim_ctor_loop height :
  ∀ prev s t, state_sim s t →
    res_sim eq (ctor_loop height prev s) (ASW.ctor_loop height prev t).
Proof.
  induction height as [|height IH]; intros prev s t Hst; [by apply sim_ret|].
  cbn [ctor_loop ASW.ctor_loop].
  eapply sim_bind; [apply sim_alloc; [done|apply node_sim_sentinel]|].
  intros a ? s1 t1 <- Hst1.
  eapply (sim_bind (λ _ _, True)).
  - destruct prev as [p|]; [|by apply sim_ret].
    eapply sim_bind; [by apply sim_load|]. intros pn pn' s2 t2 Hpn Hst2.
    apply sim_store; [done|]. destruct Hpn as (? & ? & ? & ?). by split_and!.
  - intros _ _ s2 t2 _ Hst2. unfold get_heads, set_heads, bind. simpl.
    apply IH. destruct Hst2 as (Hhd & Hd & Hh). split_and!; simpl; [|done..].
    by rewrite Hhd.
Qed.

Lemma sim_find_loop fuel :
  ∀ cur key s t, state_sim s t →
    res_sim eq (find_loop fuel cur key s) (ASW.find_loop fuel cur key t).
Proof.
  induction fuel as [|fuel IH]; intros cur key s t Hst; simpl; [done|].
  eapply sim_bind; [by apply sim_load|].
  intros n n' s1 t1 (Hdown & _ & Hk & Hv) Hst1. rewrite <- Hdown, <- Hk.
  destruct (down n) as [d|].
  - destruct (opt_eq (k n) key) eqn:Heq.
    + apply sim_ret; [|done]. apply Hv. apply opt_eq_true in Heq. by rewrite Heq.
    + eapply sim_bind; [by apply sim_findInLevel|]. intros m ? s2 t2 <- Hst2.
      by apply IH.
  - rewrite opt_ne_eq. destruct (opt_eq (k n) key) eqn:Heq; simpl.
    + apply sim_ret; [|done]. apply Hv. apply opt_eq_true in Heq. by rewrite Heq.
    + by apply sim_ret.
Qed.

Lemma sim_find key s t :
  state_sim s t → res_sim eq (find key s) (ASW.find key t).
Proof.
  intros Hst. eapply sim_bind; [by apply sim_heads_at|]. intros top ? s1 t1 <- Hst1.
  eapply sim_bind; [by apply sim_findInLevel|]. intros m ? s2 t2 <- Hst2.
  eapply sim_bind; [by apply sim_nodes|]. intros fuel ? s3 t3 <- Hst3.
  by apply sim_find_loop.
Qed.

Lemma sim_empty : state_sim empty ASW.empty.
Proof. split_and!; [done..|]. intros a. simpl. rewrite !lookup_empty. constructor. Qed.

Lemma res_sim_fst {A} (x : option (A * State Node)) (y : option (A * State ASW.Node)) :
  res_sim eq x y → fst <$> x = fst <$> y.
Proof. destruct x as [[a s]|], y as [[b t]|]; simpl; try done. by intros [-> _]. Qed.

Lemma lookup_after_spec rnd height ops key :
  (1 ≤ height)%nat → lookup_after rnd height ops key = Some (last_value ops key).
Proof.
  intros Hh. destruct (ctor_spec height Hh) as (s0 & ls0 & Hrun0 & HR0 & _).
  destruct (upserts_spec rnd ops s0 ∅ ls0 HR0) as (s & ls & Hrun & HR & _).
  unfold lookup_after.
  rewrite (bind_run _ _ _ _ _ Hrun0), (bind_run _ _ _ _ _ Hrun).
  rewrite (find_spec _ _ _ key HR). simpl. f_equal.
  change (model ops !! key = last_value ops key). apply model_lookup.
Qed.

(** C6: run on one thread from a fresh index of the same height, with the
    same upserts and the same coin flips, the sequential and the atomic
    single-writer variant return the same result from [find] for every
    key; for a height of at least one that result is defined and is the
    value of the last upsert of the key. *)
Theorem variants_agree (rnd : nat → Z) (height : nat) (ops : list (Z * Z)) (key : Z) :
  SkipList.lookup_after rnd height ops key = ASW.lookup_after rnd height ops key ∧
  ((1 ≤ height)%nat →
   ASW.lookup_after rnd height ops key = Some (last_value ops key)).
Proof.
  assert (SkipList.lookup_after rnd height ops key
          = ASW.lookup_after rnd height ops key) as Heq.
  { apply res_sim_fst. eapply sim_bind; [apply sim_ctor_loop, sim_empty|].
    intros _ _ s1 t1 _ Hst1. eapply sim_bind; [by apply sim_upserts|].
    intros _ _ s2 t2 _ Hst2. by apply sim_find. }
  split; [done|]. intros Hh. rewrite <- Heq. by apply lookup_after_spec.
Qed.

Lemma variants_agree_witness :
  SkipList.lookup_after (λ i, Z.of_nat i) 3 [(1, 10); (2, 20); (1, 11)] 1
    = ASW.lookup_after (λ i, Z.of_nat i) 3 [(1, 10); (2, 20); (1, 11)] 1 ∧
  ASW.lookup_after (λ i, Z.of_nat i) 3 [(1, 10); (2, 20); (1, 11)] 1
    = Some (last_value [(1, 10); (2, 20); (1, 11)] 1).
Proof.
  destruct (variants_agree (λ i, Z.of_nat i) 3 [(1, 10); (2, 20); (1, 11)] 1)
    as [H1 H2].
  split; [exact H1|]. apply H2. lia.
Defined.

(** ** Clearing *)

Section Paths.
Context {N : Type} (nxt : N → option addr).

Lemma path_frame (h h' : gmap addr N) p l :
  (∀ a, a ∈ l → h' !! a = h !! a) → path nxt h p l → path nxt h' p l.
Proof.
  revert p. induction l as [|a l IH]; intros p Hsame; simpl; [done|].
  intros (-> & n & Hn & Hp). split; [done|]. exists n. split.
  - rewrite Hsame; [done|left].
  - apply IH; [|done]. intros x Hx. apply Hsame. by right.
Qed.

Lemma path_in_heap (h : gmap addr N) p l a :
  path nxt h p l → a ∈ l → is_Some (h !! a).
Proof.
  revert p. induction l as [|a0 l IH]; intros p; simpl.
  - by intros _ ?%elem_of_nil.
  - intros (-> & n & Hn & Hp) [->|Hin]%elem_of_cons; eauto.
Qed.

End Paths.

Lemma lseg_path h m b p l : lseg h m b p l None → path next h p l.*1.
Proof.
  revert p. induction l as [|[a ka] l IH]; intros p; simpl; [done|].
  intros (-> & n & Hn & _ & Hseg). split; [done|]. exists n. split; [done|]. by apply IH.
Qed.

Lemma path_sim (h : gmap addr Node) (h' : gmap addr ASW.Node) p l :
  (∀ a, option_Forall2 node_sim (h !! a) (h' !! a)) →
  path next h p l → path ASW.next h' p l.
Proof.
  intros Hh. revert p. induction l as [|a l IH]; intros p; simpl; [done|].
  intros (-> & n & Hn & Hp). split; [done|]. specialize (Hh a). rewrite Hn in Hh.
  inversion Hh as [? n' (_ & Hnext & _) Heq1 Heq2|]; subst.
  exists n'. split; [done|]. rewrite <- Hnext. by apply IH.
Qed.

Lemma Rep_Shape s m ls : Rep s m ls → Shape next s ((λ L : level, L.*1) <$> ls).
Proof.
  intros (Ht & Hnd & Hheads & Hall). split_and!; [|done| |done].
  - intros La HLa. apply list_elem_of_fmap in HLa as (L & -> & HL).
    apply list_elem_of_lookup in HL as [i Hi].
    destruct (tower_lookup _ _ _ _ _ Ht Hi) as (hd & l & -> & Hseg & _).
    exists hd, l.*1. split; [done|]. by apply lseg_path in Hseg.
  - rewrite Hheads, <- list_fmap_compose. apply list_fmap_ext.
    intros i L _. by destruct L as [|[a ka] L].
Qed.

Lemma Shape_sim (s : State Node) (t : State ASW.Node) lsa :
  state_sim s t → Shape next s lsa → Shape ASW.next t lsa.
Proof.
  intros (Hhd & _ & Hh) (Hp & Hnd & Hheads & Hall). split_and!; [|done|congruence|].
  - intros L HL. destruct (Hp L HL) as (hd & l & -> & Hpath). exists hd, l.
    split; [done|]. by eapply path_sim.
  - intros a Ha. apply Hall. specialize (Hh a). destruct Ha as [x Hx].
    rewrite Hx in Hh. inversion Hh. eauto.
Qed.

Lemma elem_of_concat {A} (ls : list (list A)) x :
  x ∈ concat ls ↔ ∃ L, L ∈ ls ∧ x ∈ L.
Proof.
  induction ls as [|L0 ls IH]; simpl.
  - split; [by intros ?%elem_of_nil|]. by intros (L & ?%elem_of_nil & _).
  - rewrite elem_of_app, IH. split.
    + intros [Hx|(L & HL & Hx)]; [exists L0|exists L]; split; try done;
        [left|by right].
    + intros (L & [->|HL]%elem_of_cons & Hx); eauto.
Qed.

Lemma firsts_in_concat (lsa : list (list addr)) x :
  (∀ L, L ∈ lsa → L ≠ []) → x ∈ first_addr <$> lsa → x ∈ concat lsa.
Proof.
  intros Hne Hx. apply list_elem_of_fmap in Hx as (L & -> & HL).
  apply elem_of_concat. exists L. split; [done|].
  specialize (Hne L HL). destruct L as [|a L]; [done|]. left.
Qed.

Lemma firsts_NoDup (lsa : list (list addr)) :
  (∀ L, L ∈ lsa → L ≠ []) → NoDup (concat lsa) → NoDup (first_addr <$> lsa).
Proof.
  induction lsa as [|L rest IH]; intros Hne Hnd; [constructor|].
  rewrite concat_cons in Hnd. apply NoDup_app in Hnd as (_ & Hdisj & Hnd).
  rewrite fmap_cons. apply NoDup_cons. split.
  - intros Hin. apply (Hdisj (first_addr L)).
    + assert (L ≠ []) as HL by (apply Hne; left). destruct L; [done|]. left.
    + apply firsts_in_concat; [|done]. intros L' HL'. apply Hne. by right.
  - apply IH; [|done]. intros L' HL'. apply Hne. by right.
Qed.

Lemma clear_chain_None fuel s : clear_chain fuel None s = Some (tt, s).
Proof. by destruct fuel. Qed.

Lemma clear_chain_spec hs d :
  ∀ l p h fuel,
    path next h p l → NoDup l → (length l ≤ fuel)%nat →
    ∃ h', clear_chain fuel p (mkState h hs d) = Some (tt, mkState h' hs d) ∧
      (∀ x, x ∈ l → h' !! x = None) ∧ (∀ x, x ∉ l → h' !! x = h !! x).
Proof.
  induction l as [|a l IH]; intros p h fuel Hp Hnd Hfuel.
  - simpl in Hp. subst p. exists h. rewrite clear_chain_None.
    split_and!; [done| |done]. by intros x ?%elem_of_nil.
  - destruct fuel as [|fuel]; [simpl in Hfuel; lia|].
    destruct Hp as (-> & n & Hn & Hp). apply NoDup_cons in Hnd as [Ha Hnd].
    destruct (IH (next n) (delete a (<[a := set_next n None]> h)) fuel)
      as (h' & Hrun & Hin & Hout); [|done| |].
    { eapply path_frame; [|done]. intros x Hx.
      assert (a ≠ x) by (by intros ->).
      by rewrite lookup_delete_ne, lookup_insert_ne. }
    { simpl in Hfuel. lia. }
    exists h'. split_and!.
    + cbn [clear_chain]. unfold bind at 1. unfold load. cbn [heap]. rewrite Hn.
      unfold bind at 1. unfold store. cbn [heap heads draws]. rewrite Hn.
      unfold bind at 1. unfold free. cbn [heap heads draws].
      by rewrite lookup_insert_eq.
    + intros x [->|Hx]%elem_of_cons; [|by apply Hin].
      by rewrite Hout, lookup_delete_eq.
    + intros x Hx. apply not_elem_of_cons in Hx as [Hxa Hx].
      by rewrite Hout, lookup_delete_ne, lookup_insert_ne.
Qed.

Lemma clear_levels_spec hs d :
  ∀ lsa h,
    (∀ L, L ∈ lsa → ∃ hd l, L = hd :: l ∧ path next h (Some hd) L) →
    NoDup (concat lsa) →
    ∃ h', clear_levels (first_addr <$> lsa) (mkState h hs d)
            = Some (tt, mkState h' hs d) ∧
      (∀ x, x ∈ concat lsa → x ∉ first_addr <$> lsa → h' !! x = None) ∧
      (∀ x, x ∈ first_addr <$> lsa → is_Some (h' !! x)) ∧
      (∀ x, x ∉ concat lsa → h' !! x = h !! x).
Proof.
  induction lsa as [|L rest IH]; intros h Hp Hnd.
  - exists h. split_and!; try done; by intros x ?%elem_of_nil.
  - destruct (Hp L) as (hd & l & -> & (_ & n & Hn & Hpath)); [left|].
    rewrite concat_cons in Hnd. apply NoDup_app in Hnd as (HndL & Hdisj & Hndr).
    apply NoDup_cons in HndL as [Hhd HndL].
    set (h1 := <[hd := set_next n None]> h).
    assert (path next h1 (next n) l) as Hpath1.
    { eapply path_frame; [|done]. intros x Hx. apply lookup_insert_ne. by intros ->. }
    destruct (clear_chain_spec hs d l (next n) h1 (size h1) Hpath1 HndL)
      as (h2 & Hrun2 & Hin2 & Hout2).
    { apply NoDup_length_heap; [done|]. intros x Hx. by eapply path_in_heap. }
    destruct (IH h2) as (h3 & Hrun3 & Hin3 & Hhd3 & Hout3); [|done|].
    { intros L' HL'. destruct (Hp L') as (hd' & l' & -> & Hpath'); [by right|].
      exists hd', l'. split; [done|]. eapply path_frame; [|done].
      intros x Hx.
      assert (x ∈ concat rest) as Hxr by (apply elem_of_concat; eauto).
      rewrite Hout2.
      - apply lookup_insert_ne. intros <-. eapply Hdisj; [left|done].
      - intros Hxl. eapply Hdisj; [by right|done]. }
    exists h3. split_and!.
    + rewrite fmap_cons. cbn [clear_levels first_addr head default].
      rewrite (bind_run _ _ _ n (mkState h hs d)) by (by apply load_run).
      rewrite (bind_run _ _ _ tt (mkState h1 hs d))
        by (by apply (store_run hd _ n (mkState h hs d))).
      rewrite (bind_run _ _ _ (size h1) (mkState h1 hs d)) by done.
      by rewrite (bind_run _ _ _ _ _ Hrun2).
    + intros x. rewrite concat_cons, fmap_cons, elem_of_app, !elem_of_cons.
      intros [[->|Hx]|Hx] Hnot.
      * exfalso. apply Hnot. by left.
      * rewrite Hout3; [by apply Hin2|]. intros Hxr. eapply Hdisj; [by right|done].
      * apply Hin3; [done|]. intros Hxf. apply Hnot. by right.
    + intros x. rewrite fmap_cons. intros [->|Hx]%elem_of_cons; [|by apply Hhd3].
      rewrite Hout3, Hout2; [|done|].
      * unfold h1. rewrite lookup_insert_eq. eauto.
      * intros Hxr. eapply Hdisj; [left|done].
    + intros x. rewrite concat_cons, elem_of_app, elem_of_cons. intros Hx.
      rewrite Hout3, Hout2 by tauto. apply lookup_insert_ne. intros <-. tauto.
Qed.

Lemma free_all_spec hs0 d :
  ∀ hs h,
    NoDup hs → (∀ x, x ∈ hs → is_Some (h !! x)) →
    ∃ h', free_all hs (mkState h hs0 d) = Some (tt, mkState h' hs0 d) ∧
      (∀ x, x ∈ hs → h' !! x = None) ∧ (∀ x, x ∉ hs → h' !! x = h !! x).
Proof.
  induction hs as [|a hs IH]; intros h Hnd Hin.
  - exists h. split_and!; try done. by intros x ?%elem_of_nil.
  - apply NoDup_cons in Hnd as [Ha Hnd]. destruct (Hin a) as [n Hn]; [left|].
    destruct (IH (delete a h) Hnd) as (h' & Hrun & Hin' & Hout').
    { intros x Hx. rewrite lookup_delete_ne; [apply Hin; by right|]. by intros ->. }
    exists h'. split_and!.
    + cbn [free_all]. unfold bind at 1. unfold free. cbn [heap heads draws].
      by rewrite Hn.
    + intros x [->|Hx]%elem_of_cons; [|by apply Hin'].
      by rewrite Hout', lookup_delete_eq.
    + intros x Hx. apply not_elem_of_cons in Hx as [Hxa Hx].
      by rewrite Hout', lookup_delete_ne.
Qed.

Lemma clear_spec s lsa :
  Shape next s lsa → clear s = Some (tt, mkState ∅ [] (draws s)).
Proof.
  intros HS. pose proof HS as (Hp & Hnd & Hheads & Hall). destruct s as [h hs d].
  cbn [heap heads draws] in *. clear HS. subst hs. set (hs := first_addr <$> lsa).
  assert (∀ L, L ∈ lsa → L ≠ []) as Hne.
  { intros L HL. by destruct (Hp L HL) as (hd & l & -> & _). }
  destruct (clear_levels_spec hs d lsa h Hp Hnd) as (h1 & Hrun1 & Hin1 & Hhd1 & Hout1).
  destruct (free_all_spec hs d (first_addr <$> lsa) h1) as (h2 & Hrun2 & Hin2 & Hout2).
  { by apply firsts_NoDup. }
  { done. }
  unfold clear. rewrite (bind_run _ _ _ hs (mkState h hs d)) by done.
  rewrite (bind_run _ _ _ _ _ Hrun1), (bind_run _ _ _ _ _ Hrun2).
  unfold set_heads. cbn [heap heads draws]. do 3 f_equal.
  apply map_eq. intros x. rewrite lookup_empty.
  destruct (decide (x ∈ first_addr <$> lsa)) as [Hx|Hx]; [by apply Hin2|].
  rewrite Hout2 by done.
  destruct (decide (x ∈ concat lsa)) as [Hxc|Hxc]; [by apply Hin1|].
  rewrite Hout1 by done. destruct (h !! x) as [n|] eqn:Hn; [|done].
  exfalso. apply Hxc, Hall. eauto.
Qed.

Lemma ASW_clear_chain_spec hs d :
  ∀ l cur nxt (h : gmap addr ASW.Node) fuel,
    is_Some (h !! cur) → path ASW.next h nxt l → NoDup (cur :: l) →
    (length (cur :: l) ≤ fuel)%nat →
    ∃ h', ASW.clear_chain fuel cur nxt (mkState h hs d) = Some (tt, mkState h' hs d) ∧
      (∀ x, x ∈ cur :: l → h' !! x = None) ∧ (∀ x, x ∉ cur :: l → h' !! x = h !! x).
Proof.
  induction l as [|c l IH]; intros cur nxt h fuel [n0 Hcur] Hp Hnd Hfuel;
    (destruct fuel as [|fuel]; [simpl in Hfuel; lia|]);
    apply NoDup_cons in Hnd as [Hnotin Hnd].
  - simpl in Hp. subst nxt. exists (delete cur h). split_and!.
    + cbn [ASW.clear_chain]. unfold bind, free. cbn [heap heads draws].
      by rewrite Hcur.
    + intros x ->%list_elem_of_singleton. apply lookup_delete_eq.
    + intros x Hx. apply lookup_delete_ne. intros ->. apply Hx. left.
  - destruct Hp as (-> & n & Hn & Hp).
    assert (cur ≠ c) as Hne by (intros ->; apply Hnotin; left).
    destruct (IH c (ASW.next n) (delete cur h) fuel) as (h' & Hrun & Hin & Hout).
    { rewrite lookup_delete_ne by done. eauto. }
    { eapply path_frame; [|done]. intros x Hx. apply lookup_delete_ne.
      intros ->. apply Hnotin. by right. }
    { done. }
    { simpl in Hfuel |- *. lia. }
    exists h'. split_and!.
    + cbn [ASW.clear_chain]. unfold bind at 1. unfold free. cbn [heap heads draws].
      rewrite Hcur. unfold bind at 1. unfold load. cbn [heap].
      by rewrite lookup_delete_ne, Hn.
    + intros x [->|Hx]%elem_of_cons; [|by apply Hin].
      by rewrite Hout, lookup_delete_eq.
    + intros x Hx. apply not_elem_of_cons in Hx as [Hxa Hx].
      by rewrite Hout, lookup_delete_ne.
Qed.

Lemma ASW_clear_levels_spec hs d :
  ∀ lsa (h : gmap addr ASW.Node),
    (∀ L, L ∈ lsa → ∃ hd l, L = hd :: l ∧ path ASW.next h (Some hd) L) →
    NoDup (concat lsa) →
    ∃ h', ASW.clear_levels (first_addr <$> lsa) (mkState h hs d)
            = Some (tt, mkState h' hs d) ∧
      (∀ x, x ∈ concat lsa → h' !! x = None) ∧
      (∀ x, x ∉ concat lsa → h' !! x = h !! x).
Proof.
  induction lsa as [|L rest IH]; intros h Hp Hnd.
  - exists h. split_and!; try done. by intros x ?%elem_of_nil.
  - destruct (Hp L) as (hd & l & -> & (_ & n & Hn & Hpath)); [left|].
    rewrite concat_cons in Hnd. apply NoDup_app in Hnd as (HndL & Hdisj & Hndr).
    destruct (ASW_clear_chain_spec hs d l hd (ASW.next n) h (size h))
      as (h2 & Hrun2 & Hin2 & Hout2); [eauto|done|done| |].
    { apply NoDup_length_heap; [done|]. intros x Hx.
      eapply (path_in_heap ASW.next h (Some hd) (hd :: l)); [|done].
      split; [done|]. eauto. }
    destruct (IH h2) as (h3 & Hrun3 & Hin3 & Hout3); [|done|].
    { intros L' HL'. destruct (Hp L') as (hd' & l' & -> & Hpath'); [by right|].
      exists hd', l'. split; [done|]. eapply path_frame; [|done].
      intros x Hx. apply Hout2. intros Hxl. eapply Hdisj; [done|].
      apply elem_of_concat; eauto. }
    exists h3. split_and!.
    + rewrite fmap_cons. cbn [ASW.clear_levels first_addr head default].
      rewrite (bind_run _ _ _ n (mkState h hs d)) by (by apply load_run).
      rewrite (bind_run _ _ _ (size h) (mkState h hs d)) by done.
      by rewrite (bind_run _ _ _ _ _ Hrun2).
    + intros x. rewrite concat_cons, elem_of_app. intros [Hx|Hx]; [|by apply Hin3].
      rewrite Hout3; [by apply Hin2|]. intros Hxr. by eapply Hdisj.
    + intros x. rewrite concat_cons, elem_of_app. intros Hx.
      rewrite Hout3, Hout2 by tauto. done.
Qed.

Lemma ASW_clear_spec (t : State ASW.Node) lsa :
  Shape ASW.next t lsa → ASW.clear t = Some (tt, mkState ∅ [] (draws t)).
Proof.
  intros (Hp & Hnd & Hheads & Hall). destruct t as [h hs d].
  cbn [heap heads draws] in *. subst hs. set (hs := first_addr <$> lsa).
  destruct (ASW_clear_levels_spec hs d lsa h Hp Hnd) as (h1 & Hrun1 & Hin1 & Hout1).
  unfold ASW.clear. rewrite (bind_run _ _ _ hs (mkState h hs d)) by done.
  rewrite (bind_run _ _ _ _ _ Hrun1).
  unfold set_heads. cbn [heap heads draws]. do 3 f_equal.
  apply map_eq. intros x. rewrite lookup_empty.
  destruct (decide (x ∈ concat lsa)) as [Hxc|Hxc]; [by apply Hin1|].
  rewrite Hout1 by done. destruct (h !! x) as [n|] eqn:Hn; [|done].
  exfalso. apply Hxc, Hall. eauto.
Qed.

Lemma run_sim rnd height ops :
  match run rnd height ops, ASW.run rnd height ops with
  | Some s, Some t => state_sim s t
  | None, None => True
  | _, _ => False
  end.
Proof.
  assert (res_sim eq ((ctor height;; upserts rnd ops) empty)
                     ((ASW.ctor height;; ASW.upserts rnd ops) ASW.empty)) as Hsim.
  { eapply sim_bind; [apply sim_ctor_loop, sim_empty|].
    intros _ _ s1 t1 _ Hst1. by apply sim_upserts. }
  unfold run, ASW.run.
  destruct ((ctor height;; upserts rnd ops) empty) as [[[] s]|],
    ((ASW.ctor height;; ASW.upserts rnd ops) ASW.empty) as [[[] t]|]; simpl; try done.
  by destruct Hsim.
Qed.

Lemma clear_heads s s' : clear s = Some (tt, s') → heads s' = [].
Proof.
  unfold clear. intros (hs & s1 & _ & H1)%bind_inv.
  apply bind_inv in H1 as (? & s2 & _ & H2). apply bind_inv in H2 as (? & s3 & _ & H3).
  unfold set_heads in H3. by injection H3 as <-.
Qed.

Lemma ASW_clear_heads (t t' : State ASW.Node) :
  ASW.clear t = Some (tt, t') → heads t' = [].
Proof.
  unfold ASW.clear. intros (hs & s1 & _ & H1)%bind_inv.
  apply bind_inv in H1 as (? & s2 & _ & H2).
  unfold set_heads in H2. by injection H2 as <-.
Qed.

(** C10: in both variants [clear] leaves [heads] empty, on any state on
    which it returns; [upsert] and [find] then read [heads[0]] out of range
    and have no defined result, while a second [clear] (the destructor)
    still returns.  On every index built by the constructor and upserts
    [clear] does return, with every node released. *)
Theorem clear_leaves_index_unusable :
  (∀ s s', clear s = Some (tt, s') →
     heads s' = [] ∧ (∀ rnd key val, upsert rnd key val s' = None) ∧
     (∀ key, find key s' = None) ∧ clear s' = Some (tt, s')) ∧
  (∀ t t', ASW.clear t = Some (tt, t') →
     heads t' = [] ∧ (∀ rnd key val, ASW.upsert rnd key val t' = None) ∧
     (∀ key, ASW.find key t' = None) ∧ ASW.clear t' = Some (tt, t')) ∧
  (∀ rnd height ops, (1 ≤ height)%nat →
     (∃ s, run rnd height ops = Some s ∧
           clear s = Some (tt, mkState ∅ [] (draws s))) ∧
     (∃ t, ASW.run rnd height ops = Some t ∧
           ASW.clear t = Some (tt, mkState ∅ [] (draws t)))).
Proof.
  split_and!.
  - intros s s' Hc. pose proof (clear_heads _ _ Hc) as Hhd.
    destruct s' as [h' hs' d']. simpl in Hhd. subst hs'. split_and!; try done.
  - intros t t' Hc. pose proof (ASW_clear_heads _ _ Hc) as Hhd.
    destruct t' as [h' hs' d']. simpl in Hhd. subst hs'. split_and!; try done.
  - intros rnd height ops Hh.
    destruct (run_spec rnd height ops Hh) as (s & ls & Hrun & HR & _).
    pose proof (Rep_Shape _ _ _ HR) as HS.
    split; [exists s; split; [done|by eapply clear_spec]|].
    pose proof (run_sim rnd height ops) as Hsim. rewrite Hrun in Hsim.
    destruct (ASW.run rnd height ops) as [t|]; [|done].
    exists t. split; [done|]. eapply ASW_clear_spec. by eapply Shape_sim.
Qed.

Lemma clear_leaves_index_unusable_witness :
  let s := mkState {[ O := mkNode None (Some 1%nat) None None;
                      1%nat := mkNode None None (Some 7) (Some 70) ]} [O] O in
  let s' := mkState (∅ : gmap nat Node) [] O in
  (heads s' = [] ∧ (∀ rnd key val, upsert rnd key val s' = None) ∧
   (∀ key, find key s' = None) ∧ clear s' = Some (tt, s')) ∧
  ((∃ s, run (λ _, 1) 2 [(1, 10)] = Some s ∧
         clear s = Some (tt, mkState ∅ [] (draws s))) ∧
   (∃ t, ASW.run (λ _, 1) 2 [(1, 10)] = Some t ∧
         ASW.clear t = Some (tt, mkState ∅ [] (draws t)))).
Proof.
  intros s s'. destruct clear_leaves_index_unusable as (H1 & _ & H3).
  split; [apply (H1 s s'); vm_compute; reflexivity|].
  apply (H3 (λ _, 1) 2%nat [(1, 10)]). lia.
Defined.

(** ** Further properties of the sequential index *)

Lemma klt_Some a b : klt a b → ∃ y, b = Some y.
Proof. destruct b as [y|]; [eauto|]. by destruct a. Qed.

Lemma level_tail_keyed h m b hd l a ka :
  level_ok h m b ((hd, None) :: l) → (a, ka) ∈ l → ∃ x, ka = Some x.
Proof.
  intros HL Hin. pose proof (level_sorted _ _ _ _ HL) as Hs.
  rewrite fmap_cons in Hs. apply StronglySorted_cons in Hs as [Hall _].
  rewrite Forall_forall in Hall. eapply klt_Some, Hall.
  by apply (list_elem_of_fmap_2 snd) in Hin.
Qed.

Lemma Rep_findInLevel s m ls hd cur key :
  Rep s m ls → hd ∈ heads s → on_level (heap s) hd cur →
  ∃ r n, findInLevel cur key s = Some (r, s) ∧
    rtc (next_of (heap s)) cur r ∧ heap s !! r = Some n ∧
    (r = cur ∨ ∃ x, k n = Some x ∧ x ≤ key) ∧
    match next n with
    | None => True
    | Some b => ∃ nb y, heap s !! b = Some nb ∧ k nb = Some y ∧ key < y
    end.
Proof.
  intros HR Hhd Hcur.
  destruct (Rep_heads_elem _ _ _ _ HR Hhd) as (i & L & _ & HLi & <- & HL).
  apply (on_level_elem _ _ _ _ _ HL) in Hcur.
  apply list_elem_of_fmap in Hcur as ([cur' kc] & Heq & Hin). simpl in Heq. subst cur'.
  apply list_elem_of_split in Hin as (pre & post & HLeq).
  pose proof HL as (hd & l & HLhd & Hseg & Hsort).
  assert (length L.*1 ≤ size (heap s))%nat as Hlen.
  { apply NoDup_length_heap.
    - by eapply level_NoDup.
    - intros a Ha. by eapply level_in_heap. }
  rewrite HLeq in Hseg, Hsort, Hlen. clear HLhd.
  apply lseg_app in Hseg as (p & _ & Hseg).
  assert (p = Some cur) as -> by (by destruct Hseg).
  destruct s as [h hs d]. cbn [heap heads draws] in *.
  destruct (findInLevel_loop_spec h hs d m _ key post cur kc (size h) Hseg)
    as (q1 & q2 & anc & ka & -> & Hlast & Hle & Hgt & Hrun).
  { rewrite length_fmap, length_app in Hlen. simpl in Hlen. lia. }
  pose proof Hlast as [l' Hl']%last_Some.
  change ((cur, kc) :: q1 ++ q2) with (((cur, kc) :: q1) ++ q2) in Hseg, Hsort.
  rewrite Hl', <- app_assoc in Hseg, Hsort.
  pose proof Hseg as Hseg0.
  apply lseg_app in Hseg as (p & _ & (-> & n & Hn & (Hk & _) & Hnext)).
  exists anc, n. split_and!.
  - unfold findInLevel. by rewrite (bind_run _ _ _ (size h) (mkState h hs d)).
  - eapply lseg_reach; [exact Hseg0|].
    apply (list_elem_of_fmap_2 fst _ (anc, ka)). apply elem_of_app. right. left.
  - done.
  - destruct q1 as [|x q1 _] using rev_ind.
    + left. simpl in Hlast. by injection Hlast.
    + right. rewrite app_comm_cons, last_snoc in Hlast. injection Hlast as ->.
      apply Forall_app in Hle as [_ Hle]. apply Forall_inv in Hle. simpl in Hle.
      rewrite Hk. destruct l' as [|y l']; [by destruct q1|].
      rewrite !fmap_app, !fmap_cons in Hsort.
      apply StronglySorted_app_1_r in Hsort. simpl in Hsort.
      apply StronglySorted_cons in Hsort as [Hall _]. rewrite Forall_forall in Hall.
      destruct (klt_Some y.2 ka) as [x ->].
      { apply Hall. apply elem_of_app. right. left. }
      exists x. split; [done|]. simpl in Hle. apply Z.ltb_ge in Hle. lia.
  - destruct q2 as [|[b kb] q2]; simpl in Hnext; [by rewrite Hnext|].
    destruct Hnext as (-> & nb & Hnb & (Hkb & _) & _).
    specialize (Hgt (b, kb) eq_refl). simpl in Hgt.
    destruct kb as [y|]; [|done]. exists nb, y. split_and!; [done..|].
    by apply Z.ltb_lt in Hgt.
Qed.

(** X1: on every index built by the constructor and upserts, [findInLevel]
    started at any node of any level returns, without changing the state,
    a node reached from the start along [next] that is the start itself or
    has a key not above the target, and whose successor, if any, has a key
    above the target. *)
Theorem findInLevel_contract (rnd : nat → Z) (height : nat) (ops : list (Z * Z))
    (key : Z) :
  (1 ≤ height)%nat →
  ∃ s, run rnd height ops = Some s ∧
    ∀ hd cur, hd ∈ heads s → on_level (heap s) hd cur →
      ∃ r n, findInLevel cur key s = Some (r, s) ∧
        rtc (next_of (heap s)) cur r ∧ heap s !! r = Some n ∧
        (r = cur ∨ ∃ x, k n = Some x ∧ x ≤ key) ∧
        match next n with
        | None => True
        | Some b => ∃ nb y, heap s !! b = Some nb ∧ k nb = Some y ∧ key < y
        end.
Proof.
  intros Hh. destruct (run_spec rnd height ops Hh) as (s & ls & Hrun & HR & _).
  exists s. split; [done|]. intros hd cur. by eapply Rep_findInLevel.
Qed.

Lemma findInLevel_contract_witness :
  ∃ s, run flips 3 [(5, 50); (2, 20); (8, 80)] = Some s ∧
    ∀ hd cur, hd ∈ heads s → on_level (heap s) hd cur →
      ∃ r n, findInLevel cur 6 s = Some (r, s) ∧
        rtc (next_of (heap s)) cur r ∧ heap s !! r = Some n ∧
        (r = cur ∨ ∃ x, k n = Some x ∧ x ≤ 6) ∧
        match next n with
        | None => True
        | Some b => ∃ nb y, heap s !! b = Some nb ∧ k nb = Some y ∧ 6 < y
        end.
Proof. apply (findInLevel_contract flips 3 [(5, 50); (2, 20); (8, 80)] 6). lia. Defined.

Lemma tower_bottom h m ls L :
  tower h m ls → ls !! (length ls - 1)%nat = Some L →
  ∀ x, is_Some (m !! x) → Some x ∈ L.*2.
Proof.
  induction ls as [|L0 rest IH]; intros Ht HL; [done|].
  destruct rest as [|L1 rest].
  - simpl in HL. injection HL as <-. by destruct Ht as [_ ?].
  - apply IH; [by eapply tower_rest|].
    replace (length (L0 :: L1 :: rest) - 1)%nat with (S (length (L1 :: rest) - 1))
      in HL by (simpl; lia).
    done.
Qed.

Lemma model_dom ops key : is_Some (model ops !! key) ↔ key ∈ ops.*1.
Proof. rewrite model_lookup. apply last_value_elem. Qed.

(** X2: after any sequence of upserts the bottom level holds exactly the
    keys that were upserted, and no level holds any other key. *)
Theorem bottom_level_complete (rnd : nat → Z) (height : nat) (ops : list (Z * Z)) :
  (1 ≤ height)%nat →
  ∃ s bottom, run rnd height ops = Some s ∧
    heads s !! (height - 1)%nat = Some bottom ∧
    (∀ key, appears (heap s) bottom key ↔ key ∈ ops.*1) ∧
    (∀ hd key, hd ∈ heads s → appears (heap s) hd key → key ∈ ops.*1).
Proof.
  intros Hh. destruct (run_spec rnd height ops Hh) as (s & ls & Hrun & HR & Hlen).
  destruct (ls !! (height - 1)%nat) as [L|] eqn:HL.
  2:{ apply lookup_ge_None in HL. lia. }
  exists s, (lhead L). split_and!; [done|by eapply Rep_level_inv| |].
  - intros key. pose proof (Rep_level_inv _ _ _ _ _ HR HL) as Hhd.
    destruct (Rep_level _ _ _ _ _ HR Hhd) as (L' & HL' & _ & HLok).
    rewrite HL in HL'. injection HL' as <-.
    rewrite (appears_iff _ _ _ _ _ HLok), <- model_dom. split.
    + intros Hin. apply list_elem_of_fmap in Hin as ([a ka] & Heq & Hin).
      simpl in Heq. subst ka. pose proof HLok as (hd & l & _ & Hseg & _).
      destruct (lseg_lookup _ _ _ _ _ _ _ _ Hseg Hin) as (n & _ & _ & _ & Hdom & _).
      by apply Hdom.
    + apply (tower_bottom (heap s) _ ls L); [by destruct HR|]. by rewrite Hlen.
  - intros hd key Hhd Happ. apply model_dom. by eapply Rep_key_in_model.
Qed.

Lemma bottom_level_complete_witness :
  ∃ s bottom, run flips 3 [(5, 50); (2, 20)] = Some s ∧
    heads s !! (3 - 1)%nat = Some bottom ∧
    (∀ key, appears (heap s) bottom key ↔ key ∈ [(5, 50); (2, 20)].*1) ∧
    (∀ hd key, hd ∈ heads s → appears (heap s) hd key → key ∈ [(5, 50); (2, 20)].*1).
Proof. apply (bottom_level_complete flips 3 [(5, 50); (2, 20)]). lia. Defined.

Lemma Rep_sentinel s m ls i hd :
  Rep s m ls → heads s !! i = Some hd →
  ∃ n, heap s !! hd = Some n ∧ k n = None ∧ v n = None ∧ down n = heads s !! S i.
Proof.
  intros HR Hi. destruct (Rep_level _ _ _ _ _ HR Hi) as (L & HLi & <- & HL).
  pose proof HL as (hd & l & -> & Hseg & _).
  destruct Hseg as (_ & n & Hn & (Hk & Hv & _ & Hdown) & _).
  exists n. simpl. split_and!; [done..|].
  destruct HR as (Ht & _ & -> & _). rewrite list_lookup_fmap.
  destruct (ls !! S i) as [L'|] eqn:HL'; simpl in Hdown |- *; [|done].
  destruct Hdown as (d & -> & Hd). f_equal.
  pose proof (tower_lookup _ _ _ _ _ Ht HL') as HLok'.
  pose proof HLok' as (hd' & l' & -> & _). simpl.
  eapply sorted_key_unique; [by eapply level_sorted|done|left].
Qed.

Lemma Rep_inner_node s m ls hd a n :
  Rep s m ls → hd ∈ heads s → on_level (heap s) hd a → heap s !! a = Some n →
  a ≠ hd → ∃ x y, k n = Some x ∧ v n = Some y ∧ m !! x = Some y.
Proof.
  intros HR Hhd Ha Hn Hne.
  destruct (Rep_heads_elem _ _ _ _ HR Hhd) as (i & L & _ & HLi & <- & HL).
  apply (on_level_elem _ _ _ _ _ HL) in Ha.
  pose proof (level_node_key _ _ _ _ _ _ HL Ha Hn) as Hin.
  pose proof HL as (hd & l & -> & Hseg & _). simpl in Hne.
  apply elem_of_cons in Hin as [[= ? _]|Hin]; [done|].
  destruct (level_tail_keyed _ _ _ _ _ _ _ HL Hin) as [x Hx].
  destruct (lseg_lookup _ _ _ _ _ _ _ _ Hseg (list_elem_of_further _ _ _ Hin))
    as (n' & Hn' & _ & Hv & Hdom & _).
  rewrite Hn in Hn'. injection Hn' as <-. rewrite Hx in Hv. simpl in Hv.
  destruct (Hdom x Hx) as [y Hy]. exists x, y. split_and!; [done| |done].
  by rewrite Hv.
Qed.

(** X3: the sentinels are fixed at construction: after any upserts [heads]
    is the vector the constructor built, every sentinel still has no key
    and no value and points down to the sentinel of the next level (null on
    the bottom level), and every other node of a level has a key and a
    value. *)
Theorem sentinels_stay (rnd : nat → Z) (height : nat) (ops : list (Z * Z)) :
  (1 ≤ height)%nat →
  ∃ s0 s, ctor height empty = Some (tt, s0) ∧ run rnd height ops = Some s ∧
    heads s = heads s0 ∧
    (∀ i hd, heads s !! i = Some hd →
       ∃ n, heap s !! hd = Some n ∧ k n = None ∧ v n = None ∧
            down n = heads s !! S i) ∧
    (∀ hd a n, hd ∈ heads s → on_level (heap s) hd a → heap s !! a = Some n →
       a ≠ hd → ∃ x y, k n = Some x ∧ v n = Some y).
Proof.
  intros Hh. destruct (ctor_spec height Hh) as (s0 & ls0 & Hrun0 & HR0 & _).
  destruct (upserts_spec rnd ops s0 ∅ ls0 HR0) as (s & ls & Hrun & HR & _ & Hhd).
  exists s0, s. split_and!; [done| |done| |].
  - unfold run. by rewrite (bind_run _ _ _ _ _ Hrun0), Hrun.
  - intros i hd. by eapply Rep_sentinel.
  - intros hd a n H1 H2 H3 H4.
    destruct (Rep_inner_node _ _ _ _ _ _ HR H1 H2 H3 H4) as (x & y & ? & ? & _).
    eauto.
Qed.

Lemma sentinels_stay_witness :
  ∃ s0 s, ctor 3 empty = Some (tt, s0) ∧ run flips 3 [(5, 50); (2, 20)] = Some s ∧
    heads s = heads s0 ∧
    (∀ i hd, heads s !! i = Some hd →
       ∃ n, heap s !! hd = Some n ∧ k n = None ∧ v n = None ∧
            down n = heads s !! S i) ∧
    (∀ hd a n, hd ∈ heads s → on_level (heap s) hd a → heap s !! a = Some n →
       a ≠ hd → ∃ x y, k n = Some x ∧ v n = Some y).
Proof. apply (sentinels_stay flips 3 [(5, 50); (2, 20)]). lia. Defined.

Lemma Rep_node_value s m ls a n x :
  Rep s m ls → heap s !! a = Some n → k n = Some x →
  v n = m !! x ∧ is_Some (m !! x).
Proof.
  intros HR Hn Hk. pose proof HR as (Ht & _ & _ & Hall).
  assert (a ∈ addrs ls) as Ha by (apply Hall; eauto).
  apply elem_of_addrs in Ha as (L & HL & Ha).
  apply list_elem_of_lookup in HL as [i Hi].
  pose proof (tower_lookup _ _ _ _ _ Ht Hi) as HLok.
  pose proof (level_node_key _ _ _ _ _ _ HLok Ha Hn) as Hin.
  pose proof HLok as (hd & l & _ & Hseg & _).
  destruct (lseg_lookup _ _ _ _ _ _ _ _ Hseg Hin) as (n' & Hn' & _ & Hv & Hdom & _).
  rewrite Hn in Hn'. injection Hn' as <-. rewrite Hk in Hv. split; [done|].
  by apply Hdom.
Qed.

(** X4: after any sequence of upserts every node that carries a key, on
    whatever level, holds the value of the most recent upsert of that key;
    the nodes of one column therefore all hold the same value. *)
Theorem nodes_hold_last_value (rnd : nat → Z) (height : nat) (ops : list (Z * Z)) :
  (1 ≤ height)%nat →
  ∃ s, run rnd height ops = Some s ∧
    ∀ a n x, heap s !! a = Some n → k n = Some x →
      is_Some (v n) ∧ v n = last_value ops x.
Proof.
  intros Hh. destruct (run_spec rnd height ops Hh) as (s & ls & Hrun & HR & _).
  exists s. split; [done|]. intros a n x Hn Hk.
  destruct (Rep_node_value _ _ _ _ _ _ HR Hn Hk) as [Hv Hs].
  rewrite Hv. split; [done|]. apply model_lookup.
Qed.

Lemma nodes_hold_last_value_witness :
  ∃ s, run flips 3 [(5, 50); (2, 20); (5, 51)] = Some s ∧
    ∀ a n x, heap s !! a = Some n → k n = Some x →
      is_Some (v n) ∧ v n = last_value [(5, 50); (2, 20); (5, 51)] x.
Proof. apply (nodes_hold_last_value flips 3 [(5, 50); (2, 20); (5, 51)]). lia. Defined.

Lemma model_snoc ops key val : model (ops ++ [(key, val)]) = <[key := val]> (model ops).
Proof. unfold model. by rewrite foldl_app. Qed.

(** X5: an upsert repeated with the same key and value changes nothing:
    the state after the second call is the state after the first, the
    [rand()] counter included. *)
Theorem upsert_idempotent (rnd : nat → Z) (height : nat) (ops : list (Z * Z))
    (key val : Z) :
  (1 ≤ height)%nat →
  ∃ s, run rnd height (ops ++ [(key, val)]) = Some s ∧
       upsert rnd key val s = Some (tt, s).
Proof.
  intros Hh.
  destruct (run_spec rnd height (ops ++ [(key, val)]) Hh) as (s & ls & Hrun & HR & _).
  exists s. split; [done|].
  assert (model (ops ++ [(key, val)]) !! key = Some val) as Hm
    by (by rewrite model_snoc, lookup_insert_eq).
  destruct (upsert_present rnd s _ ls key val HR) as (s' & Hup & _ & Hheap & Hhd & Hd).
  { by rewrite Hm. }
  rewrite Hup. do 2 f_equal. destruct s as [h hs d], s' as [h' hs' d'].
  cbn [heap heads draws] in *. subst hs' d'. f_equal. rewrite Hheap.
  apply map_eq. intros a. rewrite lookup_fmap.
  destruct (h !! a) as [n|] eqn:Hn; [|done]. simpl. f_equal.
  unfold overwrite. destruct (opt_eq (k n) key) eqn:Heq; [|done].
  apply opt_eq_true in Heq.
  destruct (Rep_node_value _ _ _ a n key HR Hn Heq) as [Hv _]. simpl in Hv.
  rewrite Hm in Hv. destruct n as [dn nx kn vn]. simpl in *. by subst.
Qed.

Lemma upsert_idempotent_witness :
  ∃ s, run flips 3 ([(5, 50); (2, 20)] ++ [(7, 70)]) = Some s ∧
       upsert flips 7 70 s = Some (tt, s).
Proof. apply (upsert_idempotent flips 3 [(5, 50); (2, 20)] 7 70). lia. Defined.

(** ** Upserts on arbitrary states *)

Lemma load_inv {N} (a : addr) (s : State N) n s' :
  load a s = Some (n, s') → s' = s ∧ heap s !! a = Some n.
Proof. unfold load. destruct (heap s !! a); [|done]. by intros [= -> ->]. Qed.

Lemma store_inv {N} (a : addr) (n : N) s x s' :
  store a n s = Some (x, s') →
  is_Some (heap s !! a) ∧ s' = mkState (<[a := n]> (heap s)) (heads s) (draws s).
Proof. unfold store. destruct (heap s !! a); [|done]. intros [= _ <-]. eauto. Qed.

Lemma kept_refl key val n : kept key val n n.
Proof. split_and!; [done..|by left]. Qed.

Lemma kept_trans key val n1 n2 n3 :
  kept key val n1 n2 → kept key val n2 n3 → kept key val n1 n3.
Proof.
  intros (Hk1 & Hd1 & Hv1) (Hk2 & Hd2 & Hv2). split_and!; [congruence..|].
  destruct Hv2 as [Hv2|[Hk Hv2]].
  - rewrite Hv2. done.
  - right. split; congruence.
Qed.

Lemma grows_refl key val s : grows key val s s.
Proof.
  split_and!; [done..| |].
  - intros a n Hn. exists n. split; [done|apply kept_refl].
  - intros a n Hn Hn'. congruence.
Qed.

Lemma grows_trans key val s1 s2 s3 :
  grows key val s1 s2 → grows key val s2 s3 → grows key val s1 s3.
Proof.
  intros (Hh1 & Hd1 & Hk1 & Hn1) (Hh2 & Hd2 & Hk2 & Hn2).
  split_and!; [congruence|lia| |].
  - intros a n Hn. destruct (Hk1 a n Hn) as (n' & Hn' & Hkept).
    destruct (Hk2 a n' Hn') as (n'' & Hn'' & Hkept'). exists n''.
    split; [done|]. by eapply kept_trans.
  - intros a n3 H3 H1. destruct (heap s2 !! a) as [n2|] eqn:H2.
    + destruct (Hn1 a n2 H2 H1) as [Hkn Hvn].
      destruct (Hk2 a n2 H2) as (n3' & H3' & Hk3 & _ & Hv3).
      rewrite H3 in H3'. injection H3' as <-. split; [congruence|].
      destruct Hv3 as [->|[_ ->]]; done.
    + by apply (Hn2 a).
Qed.

Lemma store_grows key val a n n' s x s' :
  heap s !! a = Some n → kept key val n n' →
  store a n' s = Some (x, s') → grows key val s s'.
Proof.
  intros Hn Hkept Hst. apply store_inv in Hst as [_ ->].
  split_and!; cbn [heap heads draws]; [done..| |].
  - intros b nb Hb. destruct (decide (b = a)) as [->|Hne].
    + rewrite lookup_insert_eq. exists n'. split; [done|]. congruence.
    + rewrite lookup_insert_ne by done. exists nb. split; [done|apply kept_refl].
  - intros b nb Hb Hb'. destruct (decide (b = a)) as [->|Hne]; [congruence|].
    rewrite lookup_insert_ne in Hb by done. congruence.
Qed.

Lemma kept_set_next key val n p : kept key val n (set_next n p).
Proof. split_and!; [done..|by left]. Qed.

Lemma alloc_grows key val d s a s' :
  alloc (mkNode d None (Some key) (Some val)) s = Some (a, s') → grows key val s s'.
Proof.
  unfold alloc. intros [= <- <-].
  assert (heap s !! fresh (dom (heap s)) = None) as Hfr.
  { apply not_elem_of_dom. apply is_fresh. }
  split_and!; cbn [heap heads draws]; [done..| |].
  - intros b nb Hb. rewrite lookup_insert_ne by congruence.
    exists nb. split; [done|apply kept_refl].
  - intros b nb Hb Hb'. destruct (decide (b = fresh (dom (heap s)))) as [->|Hne].
    + rewrite lookup_insert_eq in Hb. by injection Hb as <-.
    + rewrite lookup_insert_ne in Hb by done. congruence.
Qed.

Lemma chainNode_grows key val prev new s r s' :
  chainNode prev new s = Some (r, s') → grows key val s s'.
Proof.
  unfold chainNode. intros H.
  apply bind_inv in H as (p & s1 & Hl1 & H). apply load_inv in Hl1 as [-> Hp].
  apply bind_inv in H as (x1 & s2 & Hs1 & H).
  pose proof (store_grows key val _ _ _ _ _ _ Hp (kept_set_next _ _ _ _) Hs1) as G1.
  apply bind_inv in H as (n & s3 & Hl2 & H). apply load_inv in Hl2 as [-> Hn].
  apply bind_inv in H as (x2 & s4 & Hs2 & H).
  pose proof (store_grows key val _ _ _ _ _ _ Hn (kept_set_next _ _ _ _) Hs2) as G2.
  apply bind_inv in H as (p' & s5 & Hl3 & H). apply load_inv in Hl3 as [-> Hp'].
  apply bind_inv in H as (x3 & s6 & Hs3 & H).
  pose proof (store_grows key val _ _ _ _ _ _ Hp' (kept_set_next _ _ _ _) Hs3) as G3.
  injection H as _ <-. eauto using grows_trans.
Qed.

Lemma upsertRec_grows rnd key val fuel :
  ∀ cur s r s', upsertRec rnd fuel cur key val s = Some (r, s') → grows key val s s'.
Proof.
  induction fuel as [|fuel IH]; intros [cur|] s r s' H;
    try (injection H as _ <-; apply grows_refl); [done|].
  cbn [upsertRec] in H.
  apply bind_inv in H as (ins & s1 & Hf & H). apply findInLevel_frame in Hf as ->.
  apply bind_inv in H as (n & s1 & Hl & H). apply load_inv in Hl as [-> Hn].
  destruct (opt_eq (k n) key) eqn:Heq.
  - apply opt_eq_true in Heq.
    apply bind_inv in H as (x & s1 & Hs & H).
    apply bind_inv in H as (y & s2 & Hrec & H). injection H as _ <-.
    eapply grows_trans; [|by eapply IH].
    eapply store_grows; [done| |done]. split_and!; [done..|]. by right.
  - destruct (down n) as [d|].
    + apply bind_inv in H as ([child|] & s1 & Hrec & H).
      2:{ injection H as _ <-. by eapply IH. }
      apply IH in Hrec.
      apply bind_inv in H as (x & s2 & Hr & H). unfold rand in Hr.
      injection Hr as <- <-.
      assert (grows key val s (mkState (heap s1) (heads s1) (S (draws s1)))) as G.
      { destruct Hrec as (? & ? & ? & ?). split_and!; cbn [heap heads draws]; [done|lia|done..]. }
      destruct (coin (rnd (draws s1))).
      * apply bind_inv in H as (new & s3 & Ha & H).
        apply bind_inv in H as (c & s4 & Hc & H). injection H as _ <-.
        eapply grows_trans; [exact G|]. eapply grows_trans; [by eapply alloc_grows|].
        by eapply chainNode_grows.
      * by injection H as _ <-.
    + apply bind_inv in H as (new & s3 & Ha & H).
      apply bind_inv in H as (c & s4 & Hc & H). injection H as _ <-.
      eapply grows_trans; [by eapply alloc_grows|]. by eapply chainNode_grows.
Qed.

(** X6: on any state whatsoever, well formed or not, an upsert that returns
    has removed no node and has changed no key and no [down] pointer; it
    has changed no value other than to [val] in a node carrying [key];
    every node it added carries [key] and [val]; [heads] is untouched and
    [rand()] was only consumed. *)
Theorem upsert_keeps_nodes (rnd : nat → Z) (key val : Z) (s s' : State Node) :
  upsert rnd key val s = Some (tt, s') →
  heads s' = heads s ∧ (draws s ≤ draws s')%nat ∧
  (∀ a n, heap s !! a = Some n →
     ∃ n', heap s' !! a = Some n' ∧ k n' = k n ∧ down n' = down n ∧
           (v n' = v n ∨ (k n = Some key ∧ v n' = Some val))) ∧
  (∀ a n', heap s' !! a = Some n' → heap s !! a = None →
     k n' = Some key ∧ v n' = Some val).
Proof.
  unfold upsert. intros H.
  apply bind_inv in H as (top & s1 & Ht & H). unfold heads_at in Ht.
  destruct (heads s !! 0%nat); [|done]. injection Ht as <- <-.
  apply bind_inv in H as (fuel & s1 & Hn & H). injection Hn as <- <-.
  apply bind_inv in H as (r & s1 & Hrec & H). injection H as <-.
  by apply upsertRec_grows in Hrec.
Qed.

Lemma upsert_keeps_nodes_witness :
  let s := mkState {[ O := mkNode None (Some 1%nat) None None;
                      1%nat := mkNode None None (Some 7) (Some 70) ]} [O] O in
  ∃ s', upsert flips 3 30 s = Some (tt, s') ∧
    heads s' = heads s ∧ (draws s ≤ draws s')%nat ∧
    (∀ a n, heap s !! a = Some n →
       ∃ n', heap s' !! a = Some n' ∧ k n' = k n ∧ down n' = down n ∧
             (v n' = v n ∨ (k n = Some 3 ∧ v n' = Some 30))) ∧
    (∀ a n', heap s' !! a = Some n' → heap s !! a = None →
       k n' = Some 3 ∧ v n' = Some 30).
Proof.
  intros s. eexists. split; [vm_compute; reflexivity|].
  apply (upsert_keeps_nodes flips 3 30 s). vm_compute. reflexivity.
Defined.

(** ** Number of nodes *)

Lemma klt_irrefl x : ¬ klt x x.
Proof. destruct x; simpl; [lia|tauto]. Qed.

Lemma sorted_keys_NoDup (l : list (option Z)) : StronglySorted klt l → NoDup l.
Proof.
  induction 1 as [|x l Hs IH Hall]; constructor; [|done].
  intros Hin. rewrite Forall_forall in Hall. by apply (klt_irrefl x), Hall.
Qed.

Lemma keys_length (m : gmap Z Z) : length (Some <$> elements (dom m)) = size m.
Proof. rewrite length_fmap. by rewrite <- size_dom. Qed.

Lemma level_size_le h m b L : level_ok h m b L → (1 ≤ length L ≤ 1 + size m)%nat.
Proof.
  intros HL. pose proof (level_sorted _ _ _ _ HL) as Hs.
  pose proof HL as (hd & l & -> & Hseg & _). simpl. split; [lia|].
  apply le_n_S. rewrite <- (length_fmap snd l), <- keys_length.
  apply submseteq_length, NoDup_submseteq.
  - rewrite fmap_cons in Hs. apply StronglySorted_cons in Hs as [_ Hs].
    by apply sorted_keys_NoDup.
  - intros ka Hin. apply list_elem_of_fmap in Hin as ([a ka'] & -> & Hin).
    destruct (level_tail_keyed _ _ _ _ _ _ _ HL Hin) as [x ->].
    destruct (lseg_lookup _ _ _ _ _ _ _ _ Hseg (list_elem_of_further _ _ _ Hin))
      as (n & _ & _ & _ & Hdom & _).
    apply (list_elem_of_fmap_2 Some), elem_of_elements, elem_of_dom. by apply Hdom.
Qed.

Lemma bottom_size_ge (L : level) (m : gmap Z Z) :
  (∀ x, is_Some (m !! x) → Some x ∈ L.*2) → (size m ≤ length L)%nat.
Proof.
  intros Hall. rewrite <- (length_fmap snd L), <- keys_length.
  apply submseteq_length, NoDup_submseteq.
  - apply NoDup_fmap; [by intros ?? [=]|apply NoDup_elements].
  - intros ka Hin. apply list_elem_of_fmap in Hin as (x & -> & Hin).
    apply Hall. by apply elem_of_dom, elem_of_elements.
Qed.

Lemma sentinel_not_key (L : level) hd l x :
  L = (hd, None) :: l → Some x ∈ L.*2 → Some x ∈ l.*2.
Proof. intros -> Hin. rewrite fmap_cons in Hin. by apply elem_of_cons in Hin as [?|?]. Qed.

Lemma tower_size h m ls :
  tower h m ls →
  (length ls + size m ≤ length (addrs ls) ≤ length ls * (1 + size m))%nat.
Proof.
  induction ls as [|L rest IH]; [done|]. intros Ht.
  pose proof (level_size_le _ _ _ _ (tower_level _ _ _ _ Ht)) as HL.
  rewrite addrs_cons, length_app, length_fmap. destruct rest as [|L' rest].
  - destruct Ht as [HLok Hbot]. destruct HLok as (hd & l & -> & _).
    assert (size m ≤ length l)%nat.
    { apply (bottom_size_ge l). intros x Hx. by eapply sentinel_not_key, Hbot. }
    simpl in *. lia.
  - specialize (IH (tower_rest _ _ _ _ _ Ht)). cbn [length] in *. lia.
Qed.

Lemma model_size ops : size (model ops) = length (remove_dups ops.*1).
Proof.
  rewrite <- size_dom.
  rewrite <- (size_list_to_set (C := gset Z) (remove_dups ops.*1))
    by apply NoDup_remove_dups.
  f_equal. apply set_eq. intros x.
  rewrite elem_of_dom, elem_of_list_to_set, elem_of_remove_dups. apply model_dom.
Qed.

(** X7: the number of allocated nodes after any sequence of upserts lies
    between [height + d] and [height * (1 + d)], where [d] is the number of
    distinct keys upserted: one sentinel per level, every key once on the
    bottom level and at most once on each level above. *)
Theorem node_count_bounds (rnd : nat → Z) (height : nat) (ops : list (Z * Z)) :
  (1 ≤ height)%nat →
  ∃ s, run rnd height ops = Some s ∧
    (height + length (remove_dups ops.*1) ≤ size (heap s)
       ≤ height * (1 + length (remove_dups ops.*1)))%nat.
Proof.
  intros Hh. destruct (run_spec rnd height ops Hh) as (s & ls & Hrun & HR & Hlen).
  exists s. split; [done|]. rewrite (Rep_size _ _ _ HR), <- model_size, <- Hlen.
  apply (tower_size (heap s)). by destruct HR.
Qed.

Lemma node_count_bounds_witness :
  ∃ s, run flips 3 [(5, 50); (2, 20); (5, 51)] = Some s ∧
    (3 + length (remove_dups [(5, 50); (2, 20); (5, 51)].*1) ≤ size (heap s)
       ≤ 3 * (1 + length (remove_dups [(5, 50); (2, 20); (5, 51)].*1)))%nat.
Proof. apply (node_count_bounds flips 3 [(5, 50); (2, 20); (5, 51)]). lia. Defined.

(** ** The atomic single-writer index *)

Lemma ASW_findInLevel_loop_frame fuel :
  ∀ cur key (t : State ASW.Node) r t',
    ASW.findInLevel_loop fuel cur key t = Some (r, t') → t' = t.
Proof.
  induction fuel as [|fuel IH]; intros cur key t r t'; simpl; [done|].
  unfold bind, load, ret. destruct (heap t !! cur) as [c|]; [|done].
  destruct (ASW.next c) as [nx|]; [|by intros [= _ <-]].
  destruct (heap t !! nx) as [n|]; [|done].
  destruct (opt_gt (ASW.k n) key); [by intros [= _ <-]|]. apply IH.
Qed.

Lemma ASW_findInLevel_frame cur key (t : State ASW.Node) r t' :
  ASW.findInLevel cur key t = Some (r, t') → t' = t.
Proof. unfold ASW.findInLevel, bind, nodes. apply ASW_findInLevel_loop_frame. Qed.

Lemma ASW_find_loop_frame fuel :
  ∀ cur key (t : State ASW.Node) r t',
    ASW.find_loop fuel cur key t = Some (r, t') → t' = t.
Proof.
  induction fuel as [|fuel IH]; intros cur key t r t'; simpl; [done|].
  unfold bind at 1. unfold load. destruct (heap t !! cur) as [n|]; [|done].
  destruct (ASW.down n) as [d|].
  - destruct (opt_eq (ASW.k n) key); [by intros [= _ <-]|].
    unfold bind. destruct (ASW.findInLevel d key t) as [[m t1]|] eqn:Hf; [|done].
    apply ASW_findInLevel_frame in Hf as ->. apply IH.
  - destruct (opt_ne (ASW.k n) key); by intros [= _ <-].
Qed.

Lemma ASW_find_frame key (t : State ASW.Node) r t' :
  ASW.find key t = Some (r, t') → t' = t.
Proof.
  unfold ASW.find, bind, heads_at, nodes.
  destruct (heads t !! 0%nat) as [top|]; [|done].
  destruct (ASW.findInLevel top key t) as [[m t1]|] eqn:Hf; [|done].
  apply ASW_findInLevel_frame in Hf as ->. apply ASW_find_loop_frame.
Qed.

Lemma ASW_find_spec t m key : ASW_Rep t m → ASW.find key t = Some (m !! key, t).
Proof.
  intros (s & ls & Hst & HR). pose proof (sim_find key s t Hst) as Hsim.
  rewrite (find_spec _ _ _ key HR) in Hsim.
  destruct (ASW.find key t) as [[r t']|] eqn:Hf; [|done].
  destruct Hsim as [<- _]. by apply ASW_find_frame in Hf as ->.
Qed.

Lemma ASW_upsert_spec rnd t m key val :
  ASW_Rep t m →
  ∃ t', ASW.upsert rnd key val t = Some (tt, t') ∧ ASW_Rep t' (<[key := val]> m) ∧
        heads t' = heads t.
Proof.
  intros (s & ls & Hst & HR).
  destruct (upsert_Rep rnd s m ls key val HR) as (s' & ls' & Hup & HR' & _ & Hhd).
  pose proof (sim_upsert rnd key val s t Hst) as Hsim. rewrite Hup in Hsim.
  destruct (ASW.upsert rnd key val t) as [[[] t']|]; [|done].
  destruct Hsim as [_ Hst']. exists t'. split; [done|].
  split; [by exists s', ls'|]. destruct Hst as (<- & _), Hst' as (<- & _). done.
Qed.

Lemma ASW_run_spec rnd height ops :
  (1 ≤ height)%nat →
  ∃ t, ASW.run rnd height ops = Some t ∧ ASW_Rep t (model ops) ∧
       length (heads t) = height.
Proof.
  intros Hh. destruct (run_spec rnd height ops Hh) as (s & ls & Hrun & HR & Hlen).
  pose proof (run_sim rnd height ops) as Hsim. rewrite Hrun in Hsim.
  destruct (ASW.run rnd height ops) as [t|]; [|done]. exists t.
  split; [done|]. split; [by exists s, ls|].
  destruct Hsim as (<- & _). by rewrite (Rep_heads_length _ _ _ HR).
Qed.

Lemma sim_lookup s t a n' :
  state_sim s t → heap t !! a = Some n' → ∃ n, heap s !! a = Some n ∧ node_sim n n'.
Proof.
  intros (_ & _ & Hh) Ha. specialize (Hh a). rewrite Ha in Hh.
  inversion Hh; subst. eauto.
Qed.

Lemma sim_lookup_l s t a n :
  state_sim s t → heap s !! a = Some n → ∃ n', heap t !! a = Some n' ∧ node_sim n n'.
Proof.
  intros (_ & _ & Hh) Ha. specialize (Hh a). rewrite Ha in Hh.
  inversion Hh; subst. eauto.
Qed.

Lemma Rep_next_heap s m ls a n b :
  Rep s m ls → heap s !! a = Some n → next n = Some b →
  ∃ nb y, heap s !! b = Some nb ∧ k nb = Some y ∧ ∀ x, k n = Some x → x < y.
Proof.
  intros HR Hn Hb.
  destruct (Rep_on_some_level _ _ _ a HR) as (i & hd & Hhd & Hon); [by eauto|].
  eapply Rep_sorted_next; [done|by eapply list_elem_of_lookup_2|done..].
Qed.

Lemma Rep_down_heap s m ls a n d :
  Rep s m ls → heap s !! a = Some n → down n = Some d →
  ∃ nd, heap s !! d = Some nd ∧ k nd = k n.
Proof.
  intros HR Hn Hd.
  destruct (Rep_on_some_level _ _ _ a HR) as (i & hd & Hhd & Hon); [by eauto|].
  destruct (Rep_down _ _ _ _ _ _ _ _ HR Hhd Hon Hn Hd) as (? & nd & _ & _ & ? & ?).
  eauto.
Qed.

(** X8: the atomic single-writer index keeps the structure of the
    sequential one.  After any sequence of upserts on a fresh index of
    height at least one: every [next] pointer leads to a node with a
    strictly larger key, every [down] pointer leads to a node with the same
    key, every node that carries a key holds the value of the most recent
    upsert of that key, and [heads] lists [height] sentinels without a key,
    each pointing down to the next one. *)
Theorem atomic_index_invariants (rnd : nat → Z) (height : nat) (ops : list (Z * Z)) :
  (1 ≤ height)%nat →
  ∃ t, ASW.run rnd height ops = Some t ∧ length (heads t) = height ∧
    (∀ a n b, heap t !! a = Some n → ASW.next n = Some b →
       ∃ nb y, heap t !! b = Some nb ∧ ASW.k nb = Some y ∧
               ∀ x, ASW.k n = Some x → x < y) ∧
    (∀ a n d, heap t !! a = Some n → ASW.down n = Some d →
       ∃ nd, heap t !! d = Some nd ∧ ASW.k nd = ASW.k n) ∧
    (∀ a n x, heap t !! a = Some n → ASW.k n = Some x →
       last_value ops x = Some (ASW.v n)) ∧
    (∀ i hd, heads t !! i = Some hd →
       ∃ n, heap t !! hd = Some n ∧ ASW.k n = None ∧ ASW.down n = heads t !! S i).
Proof.
  intros Hh. destruct (ASW_run_spec rnd height ops Hh) as (t & Hrun & HR & Hlen).
  exists t. destruct HR as (s & ls & Hst & HR). split_and!; [done..| | | |].
  - intros a n' b Hn' Hb.
    destruct (sim_lookup _ _ _ _ Hst Hn') as (n & Hn & _ & Hnx & Hk & _).
    destruct (Rep_next_heap _ _ _ a n b HR Hn) as (nb & y & Hnb & Hky & Hlt);
      [congruence|].
    destruct (sim_lookup_l _ _ _ _ Hst Hnb) as (nb' & Hnb' & _ & _ & Hkb & _).
    exists nb', y. split_and!; [done|congruence|].
    intros x Hx. apply Hlt. congruence.
  - intros a n' d Hn' Hd.
    destruct (sim_lookup _ _ _ _ Hst Hn') as (n & Hn & Hdn & _ & Hk & _).
    destruct (Rep_down_heap _ _ _ a n d HR Hn) as (nd & Hnd & Hkd); [congruence|].
    destruct (sim_lookup_l _ _ _ _ Hst Hnd) as (nd' & Hnd' & _ & _ & Hkd' & _).
    exists nd'. split; [done|congruence].
  - intros a n' x Hn' Hx.
    destruct (sim_lookup _ _ _ _ Hst Hn') as (n & Hn & _ & _ & Hk & Hv).
    assert (k n = Some x) as Hkx by congruence.
    destruct (Rep_node_value _ _ _ _ _ _ HR Hn Hkx) as [Hvm _].
    rewrite <- model_lookup, <- Hvm. apply Hv. by rewrite Hkx.
  - intros i hd Hi. pose proof Hst as (Hhd & _). rewrite <- Hhd in Hi |- *.
    destruct (Rep_sentinel _ _ _ _ _ HR Hi) as (n & Hn & Hk & _ & Hd).
    destruct (sim_lookup_l _ _ _ _ Hst Hn) as (n' & Hn' & Hd' & _ & Hk' & _).
    exists n'. split_and!; [done|congruence..].
Qed.

Lemma atomic_index_invariants_witness :
  ∃ t, ASW.run flips 3 [(5, 50); (2, 20); (5, 51)] = Some t ∧
    length (heads t) = 3%nat ∧
    (∀ a n b, heap t !! a = Some n → ASW.next n = Some b →
       ∃ nb y, heap t !! b = Some nb ∧ ASW.k nb = Some y ∧
               ∀ x, ASW.k n = Some x → x < y) ∧
    (∀ a n d, heap t !! a = Some n → ASW.down n = Some d →
       ∃ nd, heap t !! d = Some nd ∧ ASW.k nd = ASW.k n) ∧
    (∀ a n x, heap t !! a = Some n → ASW.k n = Some x →
       last_value [(5, 50); (2, 20); (5, 51)] x = Some (ASW.v n)) ∧
    (∀ i hd, heads t !! i = Some hd →
       ∃ n, heap t !! hd = Some n ∧ ASW.k n = None ∧ ASW.down n = heads t !! S i).
Proof. apply (atomic_index_invariants flips 3 [(5, 50); (2, 20); (5, 51)]). lia. Defined.

(** X9: lookups of the atomic variant write nothing: [findInLevel] and
    [find] return the state they were given, on any state whatsoever; on
    every index built by the constructor and upserts [find] returns the
    value of the most recent upsert of the key. *)
Theorem atomic_find_is_pure (key : Z) :
  (∀ t cur a t', ASW.findInLevel cur key t = Some (a, t') → t' = t) ∧
  (∀ t r t', ASW.find key t = Some (r, t') → t' = t) ∧
  (∀ rnd height ops, (1 ≤ height)%nat →
     ∃ t, ASW.run rnd height ops = Some t ∧
          ASW.find key t = Some (last_value ops key, t)).
Proof.
  split_and!.
  - intros t cur a t'. apply ASW_findInLevel_frame.
  - intros t r t'. apply ASW_find_frame.
  - intros rnd height ops Hh.
    destruct (ASW_run_spec rnd height ops Hh) as (t & Hrun & HR & _).
    exists t. split; [done|]. by rewrite (ASW_find_spec _ _ key HR), model_lookup.
Qed.

Lemma atomic_find_is_pure_witness :
  let t := mkState {[ O := ASW.sentinel None (Some 1%nat);
                      1%nat := ASW.mkNode None None (Some 7) 70 ]} [O] O in
  (∃ a t', ASW.findInLevel O 7 t = Some (a, t') ∧ t' = t) ∧
  (∃ r t', ASW.find 7 t = Some (r, t') ∧ t' = t) ∧
  (∃ t, ASW.run flips 2 [(1, 10)] = Some t ∧
        ASW.find 7 t = Some (last_value [(1, 10)] 7, t)).
Proof.
  intros t. destruct (atomic_find_is_pure 7) as (H1 & H2 & H3). split_and!.
  - eexists _, _. split; [vm_compute; reflexivity|].
    apply (H1 t O 1%nat). vm_compute. reflexivity.
  - eexists _, _. split; [vm_compute; reflexivity|].
    apply (H2 t (Some 70)). vm_compute. reflexivity.
  - apply (H3 flips 2%nat [(1, 10)]). lia.
Defined.

(** ** The sequences of the correctness test *)

Lemma to_size_t_small x : 0 ≤ x < 18446744073709551616 → to_size_t x = x.
Proof. intros Hx. unfold to_size_t. by apply Z.mod_small. Qed.

Lemma to_int_small x : -2147483648 ≤ x < 2147483648 → to_int x = x.
Proof. intros Hx. unfold to_int. rewrite Z.mod_small; lia. Qed.

Lemma MAX_VALUE_eq : ConcurrentCorrectnessTest.MAX_VALUE = 1000000.
Proof. reflexivity. Qed.

Lemma multiple_ge d step : 0 < step → 0 < d → d mod step = 0 → step ≤ d.
Proof.
  intros Hs Hd Hm. destruct (Z.le_gt_cases step d) as [|Hlt]; [done|].
  rewrite Z.mod_small in Hm; lia.
Qed.

Lemma generateThreadSequence_loop_spec num_writers :
  1 ≤ num_writers → num_writers + ConcurrentCorrectnessTest.MAX_VALUE < 2147483648 →
  ∀ fuel i sequence,
    0 ≤ i ≤ ConcurrentCorrectnessTest.MAX_VALUE + num_writers →
    (Z.to_nat (ConcurrentCorrectnessTest.MAX_VALUE + 1 - i) < fuel)%nat →
    ∃ l, ConcurrentCorrectnessTest.generateThreadSequence_loop fuel num_writers i sequence
           = Some (sequence ++ l) ∧
         NoDup l ∧ (length l ≤ fuel)%nat ∧
         ∀ key, key ∈ l ↔
           i ≤ key ≤ ConcurrentCorrectnessTest.MAX_VALUE ∧ (key - i) mod num_writers = 0.
Proof.
  intros Hnw Hbound. pose proof MAX_VALUE_eq as HM.
  induction fuel as [|fuel IH]; intros i sequence Hi Hfuel; [lia|].
  cbn [ConcurrentCorrectnessTest.generateThreadSequence_loop].
  rewrite (to_size_t_small i) by lia.
  destruct (Z.leb_spec i ConcurrentCorrectnessTest.MAX_VALUE) as [Hle|Hgt].
  - rewrite (to_size_t_small (i + num_writers)) by lia.
    rewrite (to_int_small (i + num_writers)) by lia.
    destruct (IH (i + num_writers) (sequence ++ [i])) as (l & Hrun & Hnd & Hlen & Hl);
      [lia..|].
    exists (i :: l). split_and!.
    + by rewrite Hrun, <- app_assoc.
    + constructor; [|done]. rewrite Hl. lia.
    + simpl. lia.
    + intros key. rewrite elem_of_cons, Hl. split.
      * intros [->|[Hk Hmod]].
        -- split; [lia|]. by rewrite Z.sub_diag.
        -- split; [lia|]. rewrite <- Hmod.
           replace (key - i) with (key - (i + num_writers) + 1 * num_writers) by lia.
           by rewrite Z_mod_plus_full.
      * intros [Hk Hmod]. destruct (decide (key = i)) as [->|Hne]; [by left|right].
        pose proof (multiple_ge (key - i) num_writers ltac:(lia) ltac:(lia) Hmod).
        split; [lia|]. rewrite <- Hmod.
        replace (key - i) with (key - (i + num_writers) + 1 * num_writers) by lia.
        by rewrite Z_mod_plus_full.
  - exists []. rewrite app_nil_r. split_and!; [done|constructor|simpl; lia|].
    intros key. rewrite elem_of_nil. lia.
Qed.

Lemma residue_class key thread_id num_writers :
  0 ≤ thread_id < num_writers →
  (thread_id + 1 ≤ key ∧ (key - (thread_id + 1)) mod num_writers = 0) ↔
  (1 ≤ key ∧ (key - 1) mod num_writers = thread_id).
Proof.
  intros Ht. split.
  - intros [Hk Hmod]. split; [lia|].
    pose proof (Z.div_mod (key - (thread_id + 1)) num_writers ltac:(lia)) as Heq.
    rewrite Hmod in Heq.
    symmetry. apply (Z.mod_unique_pos _ _ ((key - (thread_id + 1)) / num_writers)); lia.
  - intros [Hk Hmod].
    pose proof (Z.div_mod (key - 1) num_writers ltac:(lia)) as Heq.
    rewrite Hmod in Heq.
    assert (0 ≤ (key - 1) / num_writers) by (apply Z.div_pos; lia).
    split; [nia|].
    replace (key - (thread_id + 1))
      with (0 + ((key - 1) / num_writers) * num_writers) by lia.
    rewrite Z_mod_plus_full. by apply Z.mod_0_l; lia.
Qed.

Lemma generateThreadSequence_spec num_writers thread_id :
  1 ≤ num_writers → num_writers + ConcurrentCorrectnessTest.MAX_VALUE < 2147483648 →
  0 ≤ thread_id < num_writers →
  ∃ sequence,
    ConcurrentCorrectnessTest.generateThreadSequence num_writers thread_id = Some sequence ∧
    NoDup sequence ∧
    (length sequence ≤ S (Z.to_nat ConcurrentCorrectnessTest.MAX_VALUE))%nat ∧
    ∀ key, key ∈ sequence ↔
      1 ≤ key ≤ ConcurrentCorrectnessTest.MAX_VALUE ∧
      (key - 1) mod num_writers = thread_id.
Proof.
  intros Hnw Hbound Ht. pose proof MAX_VALUE_eq as HM.
  unfold ConcurrentCorrectnessTest.generateThreadSequence.
  rewrite (to_size_t_small (thread_id + 1)) by lia.
  rewrite (to_int_small (thread_id + 1)) by lia.
  destruct (generateThreadSequence_loop_spec num_writers Hnw Hbound
              (S (Z.to_nat ConcurrentCorrectnessTest.MAX_VALUE)) (thread_id + 1) [])
    as (l & Hrun & Hnd & Hlen & Hl); [lia..|].
  exists l. split_and!; [done..|].
  intros key. rewrite Hl. pose proof (residue_class key thread_id num_writers Ht).
  tauto.
Qed.

Lemma generateReaderSequence_loop_spec :
  ∀ fuel i sequence,
    0 ≤ i ≤ ConcurrentCorrectnessTest.MAX_VALUE + 1 →
    (Z.to_nat (ConcurrentCorrectnessTest.MAX_VALUE + 1 - i) < fuel)%nat →
    ConcurrentCorrectnessTest.generateReaderSequence_loop fuel i sequence
      = Some (sequence ++ seqZ i (ConcurrentCorrectnessTest.MAX_VALUE + 1 - i)).
Proof.
  pose proof MAX_VALUE_eq as HM.
  induction fuel as [|fuel IH]; intros i sequence Hi Hfuel; [lia|].
  cbn [ConcurrentCorrectnessTest.generateReaderSequence_loop].
  rewrite (to_size_t_small i) by lia.
  destruct (Z.leb_spec i ConcurrentCorrectnessTest.MAX_VALUE) as [Hle|Hgt].
  - rewrite IH by lia. rewrite <- app_assoc. do 2 f_equal.
    rewrite (seqZ_cons i) by lia. cbn [app]. f_equal. f_equal; lia.
  - replace (ConcurrentCorrectnessTest.MAX_VALUE + 1 - i) with 0 by lia.
    by rewrite app_nil_r.
Qed.

Lemma generateReaderSequence_spec :
  ConcurrentCorrectnessTest.generateReaderSequence
    = Some (seqZ 1 ConcurrentCorrectnessTest.MAX_VALUE).
Proof.
  unfold ConcurrentCorrectnessTest.generateReaderSequence.
  pose proof MAX_VALUE_eq as HM.
  rewrite generateReaderSequence_loop_spec by lia.
  by rewrite app_nil_l, Z.add_simpl_r.
Qed.

(** X10: the writers of the correctness test split the keys between them.
    For [num_writers] writers (with [num_writers + MAX_VALUE] inside the
    range of [int]) the loop of [generateThreadSequence] ends, and the
    sequence of writer [thread_id], however it is shuffled, holds without
    repetition exactly the keys of [1 .. MAX_VALUE] that are congruent to
    [thread_id + 1] modulo [num_writers]; so every key has exactly one
    writer.  The sequence of a reader is a permutation of
    [1 .. MAX_VALUE]. *)
Theorem writers_partition_keys (shuffle : list Z → list Z) (num_writers thread_id : Z) :
  (∀ l, shuffle l ≡ₚ l) →
  1 ≤ num_writers → num_writers + ConcurrentCorrectnessTest.MAX_VALUE < 2147483648 →
  0 ≤ thread_id < num_writers →
  (∃ sequence,
     ConcurrentCorrectnessTest.generateThreadSequence num_writers thread_id = Some sequence ∧
     NoDup (shuffle sequence) ∧
     ∀ key, key ∈ shuffle sequence ↔
       1 ≤ key ≤ ConcurrentCorrectnessTest.MAX_VALUE ∧
       (key - 1) mod num_writers = thread_id) ∧
  (∃ sequence,
     ConcurrentCorrectnessTest.generateReaderSequence = Some sequence ∧
     NoDup (shuffle sequence) ∧
     length (shuffle sequence) = Z.to_nat ConcurrentCorrectnessTest.MAX_VALUE ∧
     ∀ key, key ∈ shuffle sequence ↔ 1 ≤ key ≤ ConcurrentCorrectnessTest.MAX_VALUE).
Proof.
  intros Hsh Hnw Hbound Ht. split.
  - destruct (generateThreadSequence_spec num_writers thread_id Hnw Hbound Ht)
      as (sequence & Hgen & Hnd & _ & Hin).
    exists sequence. split_and!; [done| |].
    + by rewrite Hsh.
    + intros key. by rewrite Hsh.
  - exists (seqZ 1 ConcurrentCorrectnessTest.MAX_VALUE).
    split_and!; [apply generateReaderSequence_spec| | |].
    + rewrite Hsh. apply NoDup_seqZ.
    + by rewrite Hsh, length_seqZ.
    + intros key. rewrite Hsh, elem_of_seqZ. lia.
Qed.

Lemma writers_partition_keys_witness :
  (∃ sequence,
     ConcurrentCorrectnessTest.generateThreadSequence 4 1 = Some sequence ∧
     NoDup (reverse sequence) ∧
     ∀ key, key ∈ reverse sequence ↔
       1 ≤ key ≤ ConcurrentCorrectnessTest.MAX_VALUE ∧ (key - 1) mod 4 = 1) ∧
  (∃ sequence,
     ConcurrentCorrectnessTest.generateReaderSequence = Some sequence ∧
     NoDup (reverse sequence) ∧
     length (reverse sequence) = Z.to_nat ConcurrentCorrectnessTest.MAX_VALUE ∧
     ∀ key, key ∈ reverse sequence ↔ 1 ≤ key ≤ ConcurrentCorrectnessTest.MAX_VALUE).
Proof.
  apply (writers_partition_keys reverse 4 1).
  - intros l. apply reverse_Permutation.
  - lia.
  - rewrite MAX_VALUE_eq. lia.
  - lia.
Defined.

(** ** The threads of the correctness test, run alone *)

Lemma at_index_run {N A} (l : list A) i x (s : State N) :
  l !! i = Some x → at_index l i s = Some (x, s).
Proof. unfold at_index. by intros ->. Qed.

Lemma last_value_dup_inv keys key x :
  last_value (dup <$> keys) key = Some x → x = key.
Proof.
  induction keys as [|k0 keys IH]; [done|].
  rewrite fmap_cons. unfold dup at 1. cbn [last_value].
  destruct (last_value (dup <$> keys) key) as [y|]; [exact IH|].
  destruct (Z.eqb_spec k0 key); [|done]. by intros [= <-].
Qed.

Lemma last_value_dup keys key :
  key ∈ keys → last_value (dup <$> keys) key = Some key.
Proof.
  intros Hin. assert (is_Some (last_value (dup <$> keys) key)) as [x Hx].
  { apply last_value_elem. rewrite <- list_fmap_compose.
    by apply (list_elem_of_fmap_2 (fst ∘ dup)) in Hin. }
  rewrite Hx. f_equal. by eapply last_value_dup_inv.
Qed.

Lemma ASW_upserts_spec rnd ops :
  ∀ t m, ASW_Rep t m →
    ∃ t', ASW.upserts rnd ops t = Some (tt, t') ∧
      ASW_Rep t' (foldl (λ m kv, <[kv.1 := kv.2]> m) m ops) ∧ heads t' = heads t.
Proof.
  induction ops as [|[key val] ops IH]; intros t m HR; [by exists t|].
  destruct (ASW_upsert_spec rnd t m key val HR) as (t1 & Hup & HR1 & Hhd1).
  destruct (IH t1 _ HR1) as (t' & Hrun & HR' & Hhd'). exists t'.
  cbn [ASW.upserts]. rewrite (bind_run _ _ _ _ _ Hup). split; [done|].
  split; [done|congruence].
Qed.

Lemma readerThread_loop_spec sequence :
  ∀ st t m, ASW_Rep t m → (∀ key x, m !! key = Some x → x = key) →
    0 ≤ ConcurrentCorrectnessTest.reads st →
    ConcurrentCorrectnessTest.reads st + Z.of_nat (length sequence)
      < 18446744073709551616 →
    ∃ st', ConcurrentCorrectnessTest.readerThread_loop sequence st t = Some (st', t) ∧
      ConcurrentCorrectnessTest.reads st'
        = ConcurrentCorrectnessTest.reads st + Z.of_nat (length sequence) ∧
      ConcurrentCorrectnessTest.writes st' = ConcurrentCorrectnessTest.writes st ∧
      ConcurrentCorrectnessTest.validation_failures st'
        = ConcurrentCorrectnessTest.validation_failures st.
Proof.
  induction sequence as [|key sequence IH]; intros st t m HR Hid Hr0 Hr.
  - exists st. split; [done|]. simpl. split_and!; [lia|done..].
  - cbn [ConcurrentCorrectnessTest.readerThread_loop].
    rewrite (bind_run _ _ _ _ _ (ASW_find_spec t m key HR)).
    cbn [length] in Hr.
    set (st1 := match m !! key with
                | Some x =>
                    if negb (x =? key)
                    then ConcurrentCorrectnessTest.incr_validation_failures
                           (ConcurrentCorrectnessTest.incr_reads st)
                    else ConcurrentCorrectnessTest.incr_reads st
                | None => ConcurrentCorrectnessTest.incr_reads st
                end).
    assert (st1 = ConcurrentCorrectnessTest.incr_reads st) as ->.
    { unfold st1. destruct (m !! key) as [x|] eqn:Hx; [|done].
      apply Hid in Hx as ->. by rewrite Z.eqb_refl. }
    destruct (IH (ConcurrentCorrectnessTest.incr_reads st) t m HR Hid)
      as (st' & Hrun & Hreads & Hwrites & Hfail).
    + simpl. rewrite to_size_t_small; lia.
    + simpl. rewrite to_size_t_small; lia.
    + exists st'. split; [done|]. rewrite Hreads, Hwrites, Hfail. simpl.
      rewrite to_size_t_small by lia. split_and!; [lia|done..].
Qed.

Lemma writerThread_loop_spec rnd sequence :
  Z.of_nat (length sequence) < 18446744073709551616 →
  ∀ fuel i st t m,
    ASW_Rep t m → (i ≤ length sequence)%nat → (length sequence - i < fuel)%nat →
    ((0 < i)%nat → ∃ pk, sequence !! (i - 1)%nat = Some pk ∧ m !! pk = Some pk) →
    ConcurrentCorrectnessTest.writes st = Z.of_nat i →
    ConcurrentCorrectnessTest.reads st = Z.of_nat (i - 1) →
    ∃ st' t',
      ConcurrentCorrectnessTest.writerThread_loop fuel rnd sequence i st t
        = Some (st', t') ∧
      ASW.upserts rnd (dup <$> drop i sequence) t = Some (tt, t') ∧
      ASW_Rep t' (foldl (λ m kv, <[kv.1 := kv.2]> m) m (dup <$> drop i sequence)) ∧
      ConcurrentCorrectnessTest.writes st' = Z.of_nat (length sequence) ∧
      ConcurrentCorrectnessTest.reads st' = Z.of_nat (length sequence - 1) ∧
      ConcurrentCorrectnessTest.validation_failures st'
        = ConcurrentCorrectnessTest.validation_failures st.
Proof.
  intros Hlen. induction fuel as [|fuel IH]; intros i st t m HR Hi Hfuel Hprev Hw Hr;
    [lia|].
  cbn [ConcurrentCorrectnessTest.writerThread_loop].
  destruct (Nat.ltb_spec i (length sequence)) as [Hlt|Hge].
  - destruct (lookup_lt_is_Some_2 sequence i Hlt) as [key Hkey].
    rewrite (bind_run _ _ _ _ _ (at_index_run sequence i key t Hkey)).
    rewrite (drop_S _ _ _ Hkey). cbn [fmap list_fmap foldl ASW.upserts].
    destruct (ASW_upsert_spec rnd t m key key HR) as (t1 & Hup & HR1 & _).
    rewrite !(bind_run _ _ _ _ _ Hup). cbn [dup fst snd].
    assert (∃ st1,
      (if (0 <? i)%nat
       then
         let* prev_key := at_index sequence (i - 1) in
         let* result := ASW.find prev_key in
         match result with
         | Some x =>
             if negb (x =? prev_key)
             then ret (ConcurrentCorrectnessTest.incr_validation_failures
                         (ConcurrentCorrectnessTest.incr_reads
                            (ConcurrentCorrectnessTest.incr_writes st)))
             else ret (ConcurrentCorrectnessTest.incr_reads
                         (ConcurrentCorrectnessTest.incr_writes st))
         | None => ret (ConcurrentCorrectnessTest.incr_validation_failures
                          (ConcurrentCorrectnessTest.incr_reads
                             (ConcurrentCorrectnessTest.incr_writes st)))
         end
       else ret (ConcurrentCorrectnessTest.incr_writes st)) t1 = Some (st1, t1) ∧
      ConcurrentCorrectnessTest.writes st1 = Z.of_nat (S i) ∧
      ConcurrentCorrectnessTest.reads st1 = Z.of_nat (S i - 1) ∧
      ConcurrentCorrectnessTest.validation_failures st1
        = ConcurrentCorrectnessTest.validation_failures st) as (st1 & Hchk & Hw1 & Hr1 & Hf1).
    { destruct (Nat.ltb_spec 0 i) as [Hpos|Hzero].
      - destruct (Hprev Hpos) as (pk & Hpk & Hm).
        rewrite (bind_run _ _ _ _ _ (at_index_run sequence (i - 1) pk t1 Hpk)).
        rewrite (bind_run _ _ _ _ _ (ASW_find_spec t1 _ pk HR1)).
        assert (<[key := key]> m !! pk = Some pk) as ->.
        { destruct (decide (key = pk)) as [->|Hne].
          - by rewrite lookup_insert_eq.
          - by rewrite lookup_insert_ne. }
        rewrite Z.eqb_refl. cbn [negb]. eexists. split; [done|]. simpl.
        rewrite Hw, Hr, !to_size_t_small by lia. split_and!; [lia..|done].
      - eexists. split; [done|]. simpl.
        rewrite Hw, Hr, !to_size_t_small by lia. split_and!; [lia..|done]. }
    rewrite (bind_run _ _ _ _ _ Hchk).
    destruct (IH (S i) st1 t1 _ HR1) as (st' & t' & Hrun & Hups & HR' & Hw' & Hr' & Hf');
      [lia|lia| |done|done|].
    { intros _. exists key. replace (S i - 1)%nat with i by lia.
      split; [done|]. by rewrite lookup_insert_eq. }
    exists st', t'. split_and!; [done| |done..|congruence].
    by rewrite (bind_run _ _ _ _ _ Hup).
  - assert (i = length sequence) as -> by lia. rewrite drop_all.
    exists st, t. split_and!; done.
Qed.

(** X11: a writer of the correctness test that runs alone never reports a
    validation failure.  On any index built by the constructor and
    upserts, [writerThread] returns with one write per key of its
    sequence, one read per key but the first, and no failure; it leaves the
    index in the state that the upserts [(key, key)] of its sequence alone
    produce, in which every key of the writer is found with itself as
    value. *)
Theorem writer_alone_validates (rnd : nat → Z) (shuffle : list Z → list Z)
    (height : nat) (ops : list (Z * Z)) (num_writers thread_id : Z) :
  (∀ l, shuffle l ≡ₚ l) → (1 ≤ height)%nat →
  1 ≤ num_writers → num_writers + ConcurrentCorrectnessTest.MAX_VALUE < 2147483648 →
  0 ≤ thread_id < num_writers →
  ∃ t sequence st t',
    ASW.run rnd height ops = Some t ∧
    ConcurrentCorrectnessTest.generateThreadSequence num_writers thread_id
      = Some sequence ∧
    ConcurrentCorrectnessTest.writerThread rnd shuffle num_writers thread_id stats0 t
      = Some (st, t') ∧
    ConcurrentCorrectnessTest.writes st = Z.of_nat (length sequence) ∧
    ConcurrentCorrectnessTest.reads st = Z.of_nat (length sequence - 1) ∧
    ConcurrentCorrectnessTest.validation_failures st = 0 ∧
    ASW.upserts rnd (dup <$> shuffle sequence) t = Some (tt, t') ∧
    ∀ key, 1 ≤ key ≤ ConcurrentCorrectnessTest.MAX_VALUE →
      (key - 1) mod num_writers = thread_id →
      ASW.find key t' = Some (Some key, t').
Proof.
  intros Hsh Hh Hnw Hbound Ht. pose proof MAX_VALUE_eq as HM.
  destruct (ASW_run_spec rnd height ops Hh) as (t & Hrun & HR & _).
  destruct (generateThreadSequence_spec num_writers thread_id Hnw Hbound Ht)
    as (sequence & Hgen & _ & Hlen & Hin).
  assert (length (shuffle sequence) = length sequence) as Hl by by rewrite Hsh.
  destruct (writerThread_loop_spec rnd (shuffle sequence) ltac:(lia)
              (S (length (shuffle sequence))) 0%nat stats0 t _ HR)
    as (st & t' & Hloop & Hups & HR' & Hw & Hr & Hf); [lia|lia|lia|done|done|].
  rewrite drop_0 in Hups, HR'. rewrite Hl in Hw, Hr.
  exists t, sequence, st, t'. split_and!; [done|done| |done..|].
  - unfold ConcurrentCorrectnessTest.writerThread. by rewrite Hgen.
  - intros key Hk Hmod. rewrite (ASW_find_spec _ _ key HR'). do 2 f_equal.
    rewrite foldl_insert_lookup, last_value_dup; [done|].
    rewrite Hsh. by apply Hin.
Qed.

Lemma writer_alone_validates_witness :
  ∃ t sequence st t',
    ASW.run flips 2 [(5, 50)] = Some t ∧
    ConcurrentCorrectnessTest.generateThreadSequence 4 1 = Some sequence ∧
    ConcurrentCorrectnessTest.writerThread flips reverse 4 1 stats0 t = Some (st, t') ∧
    ConcurrentCorrectnessTest.writes st = Z.of_nat (length sequence) ∧
    ConcurrentCorrectnessTest.reads st = Z.of_nat (length sequence - 1) ∧
    ConcurrentCorrectnessTest.validation_failures st = 0 ∧
    ASW.upserts flips (dup <$> reverse sequence) t = Some (tt, t') ∧
    ∀ key, 1 ≤ key ≤ ConcurrentCorrectnessTest.MAX_VALUE →
      (key - 1) mod 4 = 1 → ASW.find key t' = Some (Some key, t').
Proof.
  apply (writer_alone_validates flips reverse 2 [(5, 50)] 4 1).
  - intros l. apply reverse_Permutation.
  - lia.
  - lia.
  - rewrite MAX_VALUE_eq. lia.
  - lia.
Defined.

(** X12: a reader of the correctness test reports no validation failure on
    an index whose values equal their keys, whichever keys it holds:
    [readerThread] returns with [MAX_VALUE] reads and no failure and leaves
    the index as it was. *)
Theorem reader_alone_validates (rnd : nat → Z) (shuffle : list Z → list Z)
    (height : nat) (keys : list Z) :
  (∀ l, shuffle l ≡ₚ l) → (1 ≤ height)%nat →
  ∃ t st,
    ASW.run rnd height (dup <$> keys) = Some t ∧
    ConcurrentCorrectnessTest.readerThread shuffle stats0 t = Some (st, t) ∧
    ConcurrentCorrectnessTest.reads st = ConcurrentCorrectnessTest.MAX_VALUE ∧
    ConcurrentCorrectnessTest.writes st = 0 ∧
    ConcurrentCorrectnessTest.validation_failures st = 0.
Proof.
  intros Hsh Hh. pose proof MAX_VALUE_eq as HM.
  destruct (ASW_run_spec rnd height (dup <$> keys) Hh) as (t & Hrun & HR & _).
  assert (length (shuffle (seqZ 1 ConcurrentCorrectnessTest.MAX_VALUE))
            = Z.to_nat ConcurrentCorrectnessTest.MAX_VALUE) as Hl
    by by rewrite Hsh, length_seqZ.
  destruct (readerThread_loop_spec (shuffle (seqZ 1 ConcurrentCorrectnessTest.MAX_VALUE))
              stats0 t _ HR) as (st & Hloop & Hr & Hw & Hf).
  - intros key x. rewrite model_lookup. apply last_value_dup_inv.
  - done.
  - rewrite Hl. cbn [stats0 ConcurrentCorrectnessTest.reads]. lia.
  - exists t, st. split_and!; [done| |..].
    + unfold ConcurrentCorrectnessTest.readerThread.
      by rewrite generateReaderSequence_spec.
    + rewrite Hr, Hl. cbn [stats0 ConcurrentCorrectnessTest.reads]. lia.
    + by rewrite Hw.
    + by rewrite Hf.
Qed.

Lemma reader_alone_validates_witness :
  ∃ t st,
    ASW.run flips 2 (dup <$> [3; 1; 3]) = Some t ∧
    ConcurrentCorrectnessTest.readerThread reverse stats0 t = Some (st, t) ∧
    ConcurrentCorrectnessTest.reads st = ConcurrentCorrectnessTest.MAX_VALUE ∧
    ConcurrentCorrectnessTest.writes st = 0 ∧
    ConcurrentCorrectnessTest.validation_failures st = 0.
Proof.
  apply (reader_alone_validates flips reverse 2 [3; 1; 3]).
  - intros l. apply reverse_Permutation.
  - lia.
Defined.

(** ** The initial fill of the load test *)

Lemma ASW_ctor_spec height :
  (1 ≤ height)%nat →
  ∃ t, ASW.ctor height ASW.empty = Some (tt, t) ∧ ASW_Rep t ∅ ∧
       length (heads t) = height.
Proof.
  intros Hh. destruct (ctor_spec height Hh) as (s & ls & Hrun & HR & Hlen & _).
  pose proof (sim_ctor_loop height None _ _ sim_empty) as Hsim.
  fold (ctor height) in Hsim. fold (ASW.ctor height) in Hsim. rewrite Hrun in Hsim.
  destruct (ASW.ctor height ASW.empty) as [[[] t]|]; [|done].
  destruct Hsim as [_ Hst]. exists t. split; [done|]. split; [by exists s, ls|].
  destruct Hst as (<- & _). by rewrite (Rep_heads_length _ _ _ HR).
Qed.

Lemma run_init_loop_spec rnd initial_size :
  0 ≤ initial_size ≤ 2147483648 →
  ∀ fuel i t m,
    ASW_Rep t m → 0 ≤ i ≤ initial_size → (Z.to_nat (initial_size - i) < fuel)%nat →
    ∃ t', ConcurrentTest.run_init_loop fuel rnd initial_size i t = Some (tt, t') ∧
      ASW.upserts rnd (dup <$> seqZ i (initial_size - i)) t = Some (tt, t') ∧
      ASW_Rep t' (foldl (λ m kv, <[kv.1 := kv.2]> m) m
                    (dup <$> seqZ i (initial_size - i))).
Proof.
  intros Hn. induction fuel as [|fuel IH]; intros i t m HR Hi Hfuel; [lia|].
  cbn [ConcurrentTest.run_init_loop].
  destruct (Z.ltb_spec i initial_size) as [Hlt|Hge].
  - rewrite (to_int_small i), (to_size_t_small (i + 1)) by lia.
    destruct (ASW_upsert_spec rnd t m i i HR) as (t1 & Hup & HR1 & _).
    destruct (IH (i + 1) t1 _ HR1) as (t' & Hrun & Hups & HR'); [lia..|].
    rewrite (seqZ_cons i) by lia. rewrite fmap_cons.
    replace (Z.succ i) with (i + 1) by lia.
    replace (Z.pred (initial_size - i)) with (initial_size - (i + 1)) by lia.
    exists t'. unfold dup at 1 3. cbn [ASW.upserts foldl fst snd].
    rewrite !(bind_run _ _ _ _ _ Hup). done.
  - replace (initial_size - i) with 0 by lia. exists t. done.
Qed.

(** X13: the loop with which [ConcurrentTest::run] fills the index before
    the threads start is, for an [initial_size] up to [2^31], the sequence
    of upserts [(i, i)] for [i] from [0] to [initial_size - 1]; after it
    every key in that range is found with itself as value and no other key
    is found. *)
Theorem initial_fill (rnd : nat → Z) (height : nat) (initial_size : Z) :
  (1 ≤ height)%nat → 0 ≤ initial_size ≤ 2147483648 →
  ∃ t0 t,
    ASW.ctor height ASW.empty = Some (tt, t0) ∧
    ConcurrentTest.run_init rnd initial_size t0 = Some (tt, t) ∧
    ASW.upserts rnd (dup <$> seqZ 0 initial_size) t0 = Some (tt, t) ∧
    (∀ key, 0 ≤ key < initial_size → ASW.find key t = Some (Some key, t)) ∧
    (∀ key, ¬ 0 ≤ key < initial_size → ASW.find key t = Some (None, t)).
Proof.
  intros Hh Hn. destruct (ASW_ctor_spec height Hh) as (t0 & Hctor & HR0 & _).
  destruct (run_init_loop_spec rnd initial_size Hn (S (Z.to_nat initial_size)) 0 t0 ∅ HR0)
    as (t & Hrun & Hups & HR); [lia..|].
  rewrite Z.sub_0_r in Hups, HR.
  exists t0, t. split_and!; [done..| |].
  - intros key Hk. rewrite (ASW_find_spec _ _ key HR). do 2 f_equal.
    rewrite foldl_insert_lookup, last_value_dup; [done|]. apply elem_of_seqZ. lia.
  - intros key Hk. rewrite (ASW_find_spec _ _ key HR). do 2 f_equal.
    rewrite foldl_insert_lookup, lookup_empty.
    destruct (last_value (dup <$> seqZ 0 initial_size) key) as [x|] eqn:Hl; [|done].
    exfalso. apply Hk.
    assert (key ∈ (dup <$> seqZ 0 initial_size).*1) as Hin
      by (apply last_value_elem; by rewrite Hl).
    rewrite <- list_fmap_compose in Hin.
    apply list_elem_of_fmap in Hin as (y & -> & Hy). apply elem_of_seqZ in Hy.
    simpl. lia.
Qed.

Lemma initial_fill_witness :
  ∃ t0 t,
    ASW.ctor 3 ASW.empty = Some (tt, t0) ∧
    ConcurrentTest.run_init flips 5 t0 = Some (tt, t) ∧
    ASW.upserts flips (dup <$> seqZ 0 5) t0 = Some (tt, t) ∧
    (∀ key, 0 ≤ key < 5 → ASW.find key t = Some (Some key, t)) ∧
    (∀ key, ¬ 0 ≤ key < 5 → ASW.find key t = Some (None, t)).
Proof. apply (initial_fill flips 3 5); lia. Defined.

(** ** What a lookup does not depend on *)

Lemma last_value_NoDup ops key val :
  NoDup ops.*1 → last_value ops key = Some val ↔ (key, val) ∈ ops.
Proof.
  induction ops as [|[k0 v0] ops IH]; intros Hnd.
  - simpl. split; [done|by intros ?%elem_of_nil].
  - rewrite fmap_cons in Hnd. apply NoDup_cons in Hnd as [Hk0 Hnd]. simpl in Hk0.
    specialize (IH Hnd). cbn [last_value]. rewrite elem_of_cons.
    destruct (last_value ops key) as [x|] eqn:Hl.
    + rewrite IH. split; [by right|]. intros [[= -> ->]|Hin]; [|done].
      exfalso. apply Hk0, last_value_elem. by rewrite Hl.
    + destruct (Z.eqb_spec k0 key) as [->|Hne].
      * split; [by intros [= ->]; left|]. intros [[= ->]|Hin]; [done|].
        by apply IH in Hin.
      * split; [done|]. intros [[= -> ->]|Hin]; [done|]. by apply IH in Hin.
Qed.

Lemma last_value_Permutation ops ops' key :
  NoDup ops.*1 → ops ≡ₚ ops' → last_value ops key = last_value ops' key.
Proof.
  intros Hnd Hp. assert (NoDup ops'.*1) as Hnd' by by rewrite <- Hp.
  destruct (last_value ops key) as [x|] eqn:H1.
  - apply (last_value_NoDup _ _ _ Hnd) in H1. rewrite Hp in H1.
    symmetry. by apply last_value_NoDup.
  - destruct (last_value ops' key) as [y|] eqn:H2; [|done].
    apply (last_value_NoDup _ _ _ Hnd') in H2. rewrite <- Hp in H2.
    apply (last_value_NoDup _ _ _ Hnd) in H2. congruence.
Qed.

Lemma ASW_lookup_after_spec rnd height ops key :
  (1 ≤ height)%nat → ASW.lookup_after rnd height ops key = Some (last_value ops key).
Proof.
  intros Hh. rewrite <- (lookup_after_spec rnd height ops key Hh). symmetry.
  apply res_sim_fst. eapply sim_bind; [apply sim_ctor_loop, sim_empty|].
  intros _ _ s1 t1 _ Hst1. eapply sim_bind; [by apply sim_upserts|].
  intros _ _ s2 t2 _ Hst2. by apply sim_find.
Qed.

(** X14: what a lookup returns depends neither on the coin flips nor on
    the height of the index, and, when every key is upserted once, not on
    the order of the upserts either, in both variants; so inserting keys in
    shuffled order gives the lookups of inserting them in sequence. *)
Theorem lookup_ignores_coins_and_order (rnd rnd' : nat → Z) (height height' : nat)
    (ops ops' : list (Z * Z)) (key : Z) :
  (1 ≤ height)%nat → (1 ≤ height')%nat →
  SkipList.lookup_after rnd height ops key = SkipList.lookup_after rnd' height' ops key ∧
  ASW.lookup_after rnd height ops key = ASW.lookup_after rnd' height' ops key ∧
  (NoDup ops.*1 → ops ≡ₚ ops' →
   SkipList.lookup_after rnd height ops key
     = SkipList.lookup_after rnd' height' ops' key ∧
   ASW.lookup_after rnd height ops key = ASW.lookup_after rnd' height' ops' key).
Proof.
  intros Hh Hh'. rewrite !lookup_after_spec, !ASW_lookup_after_spec by done.
  split_and!; [done..|]. intros Hnd Hp.
  by rewrite (last_value_Permutation ops ops' key Hnd Hp).
Qed.

Lemma lookup_ignores_coins_and_order_witness :
  SkipList.lookup_after flips 3 [(1, 2); (0, 0); (2, 4)] 1
    = SkipList.lookup_after (λ _, 1) 5 [(0, 0); (1, 2); (2, 4)] 1 ∧
  ASW.lookup_after flips 3 [(1, 2); (0, 0); (2, 4)] 1
    = ASW.lookup_after (λ _, 1) 5 [(0, 0); (1, 2); (2, 4)] 1.
Proof.
  destruct (lookup_ignores_coins_and_order flips (λ _, 1) 3 5
              [(1, 2); (0, 0); (2, 4)] [(0, 0); (1, 2); (2, 4)] 1) as (_ & _ & H);
    [lia..|].
  apply H.
  - compute_done.
  - apply perm_swap.
Defined.

(** ** The cost of an upsert in the atomic variant *)

Lemma sim_size s t : state_sim s t → size (heap s) = size (heap t).
Proof. intros Hst. by rewrite <- !size_dom, (sim_dom _ _ Hst). Qed.

(** X15: what one upsert costs in the atomic single-writer variant.  An
    upsert of a key that is present allocates nothing and does not call
    [rand()]; an upsert of a key that is absent allocates [1 + c] nodes,
    at most [height], and calls [rand()] [min (height - 1) (1 + c)] times,
    where [c] is the number of consecutive promote outcomes among the next
    [height - 1] draws.  [heads] is the same afterwards and the new value
    is found. *)
Theorem atomic_upsert_cost (rnd : nat → Z) (height : nat) (ops : list (Z * Z))
    (key val : Z) :
  (1 ≤ height)%nat →
  ∃ t t', ASW.run rnd height ops = Some t ∧
    ASW.upsert rnd key val t = Some (tt, t') ∧
    heads t' = heads t ∧ ASW.find key t' = Some (Some val, t') ∧
    (key ∈ ops.*1 → size (heap t') = size (heap t) ∧ draws t' = draws t) ∧
    (key ∉ ops.*1 →
       let c := promotes rnd (height - 1) (draws t) in
       (S c ≤ height)%nat ∧ size (heap t') = (size (heap t) + S c)%nat ∧
       draws t' = (draws t + min (height - 1) (S c))%nat).
Proof.
  intros Hh. destruct (ASW_run_spec rnd height ops Hh) as (t & Hrun & HR & Hlen).
  destruct (ASW_upsert_spec rnd t _ key val HR) as (t' & Hup & HR' & Hhd).
  exists t, t'. split_and!; [done..| | |].
  - by rewrite (ASW_find_spec _ _ key HR'), lookup_insert_eq.
  - intros Hin. destruct HR as (s & ls & Hst & HRs).
    destruct (upsert_present rnd s _ ls key val HRs) as (s' & Hups & _ & Hheap & _ & Hd).
    { by apply model_dom. }
    pose proof (sim_upsert rnd key val s t Hst) as Hsim. rewrite Hups, Hup in Hsim.
    destruct Hsim as [_ Hst'].
    rewrite <- (sim_size _ _ Hst), <- (sim_size _ _ Hst'), Hheap.
    split; [by rewrite <- !size_dom, dom_fmap_L|].
    destruct Hst as (_ & <- & _), Hst' as (_ & <- & _). done.
  - intros Hnin. destruct HR as (s & ls & Hst & HRs).
    assert (model ops !! key = None) as Hm.
    { destruct (model ops !! key) eqn:Hl; [|done].
      exfalso. apply Hnin, model_dom. by rewrite Hl. }
    destruct (upsert_absent rnd s _ ls key val HRs Hm)
      as (s' & ls' & Hups & HRs' & _ & _ & Hdraws & Hcnt & _).
    pose proof (sim_upsert rnd key val s t Hst) as Hsim. rewrite Hups, Hup in Hsim.
    destruct Hsim as [_ Hst'].
    assert (length ls = height) as Hls.
    { rewrite <- (Rep_heads_length _ _ _ HRs). destruct Hst as (-> & _). done. }
    rewrite Hls in Hdraws, Hcnt.
    pose proof (promotes_le rnd (height - 1) (draws s)) as Hple.
    cbv zeta. rewrite <- (sim_size _ _ Hst), <- (sim_size _ _ Hst').
    rewrite (Rep_size _ _ _ HRs), (Rep_size _ _ _ HRs'), Hcnt.
    destruct Hst as (_ & <- & _), Hst' as (_ & <- & _). split_and!; [lia|done..].
Qed.

Lemma atomic_upsert_cost_witness :
  ∃ t t', ASW.run flips 4 [(1, 10)] = Some t ∧
    ASW.upsert flips 5 50 t = Some (tt, t') ∧
    heads t' = heads t ∧ ASW.find 5 t' = Some (Some 50, t') ∧
    (5 ∈ [(1, 10)].*1 → size (heap t') = size (heap t) ∧ draws t' = draws t) ∧
    (5 ∉ [(1, 10)].*1 →
       let c := promotes flips (4 - 1) (draws t) in
       (S c ≤ 4)%nat ∧ size (heap t') = (size (heap t) + S c)%nat ∧
       draws t' = (draws t + min (4 - 1) (S c))%nat).
Proof. apply (atomic_upsert_cost flips 4 [(1, 10)] 5 50). lia. Defined.

(** ** The scenarios of the unit tests, evaluated *)

Example basic_insert_find :
  let ops := [(1, 10); (2, 20); (3, 30)] in
  (λ key, lookup_after flips 5 ops key) <$> [1; 2; 3; 4]
    = [Some (Some 10); Some (Some 20); Some (Some 30); Some None] ∧
  (λ key, ASW.lookup_after flips 5 ops key) <$> [1; 2; 3; 4]
    = [Some (Some 10); Some (Some 20); Some (Some 30); Some None].
Proof. split; vm_compute; reflexivity. Qed.

Example update_in_place :
  lookup_after flips 5 [(1, 10); (1, 20)] 1 = Some (Some 20) ∧
  (size ∘ heap <$> run flips 5 [(1, 10)]) = (size ∘ heap <$> run flips 5 [(1, 10); (1, 20)]).
Proof. split; vm_compute; reflexivity. Qed.

Example negative_keys :
  let ops := [(-1, 10); (-5, 50); (-10, 100)] in
  (λ key, lookup_after flips 5 ops key) <$> [-1; -5; -10; -2]
    = [Some (Some 10); Some (Some 50); Some (Some 100); Some None].
Proof. vm_compute. reflexivity. Qed.

Example single_level :
  (λ key, lookup_after flips 1 [(3, 30); (1, 10); (2, 20)] key) <$> [1; 2; 3; 0]
    = [Some (Some 10); Some (Some 20); Some (Some 30); Some None].
Proof. vm_compute. reflexivity. Qed.

(** With the draws [flips] the first insertion stops at the first coin and
    the second one is promoted twice: one node, then three. *)
Example column_heights :
  (size ∘ heap <$> run flips 4 []) = Some 4%nat ∧
  (size ∘ heap <$> run flips 4 [(7, 70)]) = Some 5%nat ∧
  (draws <$> run flips 4 [(7, 70)]) = Some 1%nat ∧
  (size ∘ heap <$> run flips 4 [(7, 70); (9, 90)]) = Some 8%nat ∧
  (draws <$> run flips 4 [(7, 70); (9, 90)]) = Some 4%nat.
Proof. repeat split; vm_compute; reflexivity. Qed.

Example height_zero_undefined :
  run flips 0 [] = Some empty ∧ run flips 0 [(1, 10)] = None ∧
  lookup_after flips 0 [] 1 = None.
Proof. repeat split. Qed.
